(** * Lighthouse: First Interactive, report scoring and the computed-artifact cache

    A shallow embedding of

    - [lighthouse-core/gather/computed/first-interactive.js]
      (the quiet-window search behind the "First Interactive" metric),
    - the report generator [ReportGeneratorV2] (weighted score roll-up and
      the HTML report),
    - the computed-artifact cache that the specification describes.

    JavaScript numbers are IEEE 754 doubles and are embedded as the primitive
    [float]s: [+], [-], [*], [/], [<?], [<=?] and [=?] are the operations of
    binary64 (round to nearest, ties to even), with [NaN], the two infinities
    and the two zeros.  [Math.exp], whose accuracy the language leaves to the
    implementation, is a parameter of the quiet-window search; [ieee754_exp]
    is an implementation by which examples are run. *)

From Stdlib Require Import ZArith Floats Lia Ascii String.
From stdpp Require Import gmap strings list sorting.

Set Warnings "-inexact-float".

(** ** JavaScript numbers *)

(** [x > y] and [x >= y]: false, like [<] and [<=], when an operand is
    [NaN]. *)
Notation "x >? y" := (PrimFloat.ltb y x) (only parsing) : float_scope.
Notation "x >=? y" := (PrimFloat.leb y x) (only parsing) : float_scope.

(** Two doubles are the same double or not ([+0] and [-0] are two, [NaN] is
    one). *)
#[global] Instance float_eq_dec : EqDecision float.
Proof.
  intros x y. destruct (PrimFloat.Leibniz.eqb x y) eqn:E.
  - left. by apply FloatAxioms.Leibniz.eqb_spec.
  - right. intros H. apply FloatAxioms.Leibniz.eqb_spec in H. congruence.
Defined.

(** [Math.max(x, y)]: [NaN] when an argument is [NaN]; [+0] counts as larger
    than [-0]. *)
Definition Math_max (x y : float) : float :=
  if (is_nan x || is_nan y)%bool then nan
  else if (x <? y)%float then y
  else if (y <? x)%float then x
  else if get_sign x then y else x.

(** A number is falsy when it is [NaN], [+0] or [-0]. *)
Definition truthy (n : float) : bool := negb (is_nan n || is_zero n).

(** [n || 0] *)
Definition orZero (n : float) : float := if truthy n then n else 0%float.

(** The comparison of two doubles, as the specification of binary64 gives
    it: [None] when one of them is [NaN]. *)
Definition fcompare (x y : float) : option comparison :=
  SFcompare (Prim2SF x) (Prim2SF y).

(** A number that is not negative and not [-0]: [+0], a positive number or
    [Infinity]. *)
Definition positiveSign (x : float) : Prop := (0 <=? x)%float = true ∧ x ≠ neg_zero.

(** The same number, or two zeros. *)
Definition sameUpToZero (p q : float) : Prop :=
  p = q ∨ (is_zero p = true ∧ is_zero q = true).

(** ** Completions: a call either returns or throws *)

Inductive Exn : Type :=
  | Error (message : string)   (* [throw new Error(message)] *)
  | TypeError.                 (* property access or call on [undefined]/[null] *)

Inductive Completion (A : Type) : Type :=
  | Return (a : A)
  | Throw (e : Exn).
Arguments Return {A} a.
Arguments Throw {A} e.

#[global] Instance Completion_ret : MRet Completion := λ A a, Return a.
#[global] Instance Completion_bind : MBind Completion := λ A B k m,
  match m with
  | Return a => k a
  | Throw e => Throw e
  end.

Definition returns {A} (m : Completion A) : Prop := ∃ a, m = Return a.

(** ** first-interactive.js

    The sources hold a second copy of this file that says "group" where this
    one says "cluster" ([getTaskGroupsInWindow], [isBadTaskGroup]); the code
    is the same statement for statement, and one embedding serves both. *)

Module FirstInteractive.
Local Open Scope float_scope.

Definition LONG_TASK_THRESHOLD : float := 50.

Definition MAX_TASK_CLUSTER_DURATION : float := 250.
Definition MIN_TASK_CLUSTER_PADDING : float := 1000.
Definition MIN_TASK_CLUSTER_FMP_DISTANCE : float := 5000.

Definition MAX_QUIET_WINDOW_SIZE : float := 5000.
Definition TRACE_BUSY_MSG : string := "trace was busy the entire time".
Definition SHORT_TRACE_MSG : string := "trace not at least 5 seconds longer than FMP".

(** [{start, end}]: a top-level main-thread event. *)
Record Task : Type := mkTask {
  task_start : float;
  task_end : float;
}.

(** [{start, end, duration, tasks}]: what the [.map] of
    [getTaskClustersInWindow] builds for one cluster. *)
Record Cluster : Type := mkCluster {
  cluster_start : float;
  cluster_end : float;
  cluster_duration : float;
  cluster_tasks : list Task;
}.

(** The three variables the [for] loop of [getTaskClustersInWindow] updates;
    [previousTaskEndTime] starts as [-Infinity]. *)
Record LoopState : Type := mkLoopState {
  clusters : list (list Task);
  currentCluster : option (list Task);      (* [None] is [null] *)
  previousTaskEndTime : float;
}.

Definition initialLoopState : LoopState :=
  {| clusters := []; currentCluster := None; previousTaskEndTime := neg_infinity |}.

(** [if (currentCluster) clusters.push(currentCluster)] *)
Definition pushCurrent (st : LoopState) : list (list Task) :=
  match currentCluster st with
  | Some c => clusters st ++ [c]
  | None => clusters st
  end.

(** One pass of the loop body for [task]. *)
Definition clusterStep (task : Task) (st : LoopState) : Completion LoopState :=
  let st1 :=
    if task_start task - previousTaskEndTime st >? MIN_TASK_CLUSTER_PADDING
    then {| clusters := pushCurrent st; currentCluster := Some [];
            previousTaskEndTime := previousTaskEndTime st |}
    else st in
  match currentCluster st1 with
  | None => Throw TypeError                 (* [null.push(task)] *)
  | Some c =>
      Return {| clusters := clusters st1; currentCluster := Some (c ++ [task]);
                previousTaskEndTime := task_end task |}
  end.

(** [for (let i = startIndex; couldTaskBelongToCluster(tasks[i]); i++)]:
    [remaining] is [tasks] from index [i] on; the loop stops at the end of
    the array ([tasks[i]] is [undefined]) or at the first task for which
    [task.start < clusteringWindowEnd] is false. *)
Fixpoint clusterLoop (clusteringWindowEnd : float) (remaining : list Task)
    (st : LoopState) : Completion LoopState :=
  match remaining with
  | [] => Return st
  | task :: later =>
      if task_start task <? clusteringWindowEnd
      then st' ← clusterStep task st; clusterLoop clusteringWindowEnd later st'
      else Return st
  end.

(** The function given to [.map]: [tasks[0]] and [tasks[tasks.length - 1]]
    are [undefined] on an empty array. *)
Definition describeCluster (tasks : list Task) : Completion Cluster :=
  match head tasks, last tasks with
  | Some first, Some final =>
      let start := task_start first in
      let end_ := task_end final in
      let duration := end_ - start in
      Return {| cluster_start := start; cluster_end := end_;
                cluster_duration := duration; cluster_tasks := tasks |}
  | _, _ => Throw TypeError
  end.

(** [getTaskClustersInWindow(tasks, startIndex, windowEnd)] *)
Definition getTaskClustersInWindow (tasks : list Task) (startIndex : nat)
    (windowEnd : float) : Completion (list Cluster) :=
  let clusteringWindowEnd := windowEnd + MIN_TASK_CLUSTER_PADDING in
  st ← clusterLoop clusteringWindowEnd (drop startIndex tasks) initialLoopState;
  described ← mapM describeCluster (pushCurrent st);
  mret (List.filter (λ cluster, cluster_start cluster <? windowEnd) described).

Definition isTooCloseToFMP (FMP : float) (cluster : Cluster) : bool :=
  cluster_start cluster <? FMP + MIN_TASK_CLUSTER_FMP_DISTANCE.
Definition isTooLong (cluster : Cluster) : bool :=
  cluster_duration cluster >? MAX_TASK_CLUSTER_DURATION.
Definition isBadCluster (FMP : float) (cluster : Cluster) : bool :=
  isTooCloseToFMP FMP cluster || isTooLong cluster.

(** [longTasks.length === 0 || longTasks[0].start > FMP + MAX_QUIET_WINDOW_SIZE] *)
Definition quietFromFMP (FMP : float) (longTasks : list Task) : bool :=
  match longTasks with
  | [] => true
  | first :: _ => task_start first >? FMP + MAX_QUIET_WINDOW_SIZE
  end.

(** [traceOfTab.timestamps] and [traceOfTab.timings], the fields read here. *)
Record Timestamps : Type := mkTimestamps {
  navigationStart : float;
}.
Record Timings : Type := mkTimings {
  firstMeaningfulPaint : float;
  domContentLoaded : float;
  traceEnd : float;
}.
Record TraceOfTab : Type := mkTraceOfTab {
  timestamps : Timestamps;
  timings : Timings;
}.

Record FirstInteractiveResult : Type := mkResult {
  timeInMs : float;
  timestamp : float;
}.

(** [evt => evt.end - evt.start >= LONG_TASK_THRESHOLD && evt.end > FMP] *)
Definition isLongTaskAfter (FMP : float) (evt : Task) : bool :=
  (task_end evt - task_start evt >=? LONG_TASK_THRESHOLD) && (task_end evt >? FMP).

Section MathExp.
(** [Math.exp] returns "an implementation-approximated value"; the search is
    embedded for any implementation of it. *)
Variable Math_exp : float → float.

(** [getRequiredWindowSizeInMs(t)] *)
Definition getRequiredWindowSizeInMs (t : float) : float :=
  let tInSeconds := t / 1000 in
  let exponentiationComponent := Math_exp (- 0.045 * tInSeconds) in
  (4 * exponentiationComponent + 1) * 1000.

(** The [for] loop of [findQuietWindow]: [remaining] is [longTasks] from
    index [i] on. *)
Fixpoint quietWindowLoop (FMP traceEnd : float) (longTasks : list Task)
    (remaining : list Task) (i : nat) : Completion float :=
  match remaining with
  | [] => Throw (Error TRACE_BUSY_MSG)
  | event :: later =>
      let windowStart := task_end event in
      let windowSize := getRequiredWindowSizeInMs (windowStart - FMP) in
      let windowEnd := windowStart + windowSize in
      if windowEnd >? traceEnd
      then Throw (Error TRACE_BUSY_MSG)
      else
        taskClusters ← getTaskClustersInWindow longTasks (i + 1) windowEnd;
        match List.find (isBadCluster FMP) taskClusters with
        | None => Return windowStart
        | Some _ => quietWindowLoop FMP traceEnd longTasks later (S i)
        end
  end.

(** [findQuietWindow(FMP, traceEnd, longTasks)] *)
Definition findQuietWindow (FMP traceEnd : float) (longTasks : list Task)
    : Completion float :=
  if quietFromFMP FMP longTasks
  then Return FMP
  else quietWindowLoop FMP traceEnd longTasks longTasks 0.

Section ComputeWithArtifacts.
(** [TracingProcessor.getMainThreadTopLevelEvents] lives in
    [lib/traces/tracing-processor.js]; it is a parameter here, together
    with the types of the trace and of the trace model it reads. *)
Context {Trace TraceModel : Type}.
Variable getMainThreadTopLevelEvents :
  TraceModel → Trace → float → Completion (list Task).

(** [computeWithArtifacts(trace, traceModel, traceOfTab)] *)
Definition computeWithArtifacts (trace : Trace) (traceModel : TraceModel)
    (traceOfTab : TraceOfTab) : Completion FirstInteractiveResult :=
  let navStart := navigationStart (timestamps traceOfTab) in
  let FMP := firstMeaningfulPaint (timings traceOfTab) in
  let DCL := domContentLoaded (timings traceOfTab) in
  let traceEnd := traceEnd (timings traceOfTab) in
  if traceEnd - FMP <? MAX_QUIET_WINDOW_SIZE
  then Throw (Error SHORT_TRACE_MSG)
  else
    topLevelEvents ← getMainThreadTopLevelEvents traceModel trace FMP;
    let longTasksAfterFMP := List.filter (isLongTaskAfter FMP) topLevelEvents in
    firstInteractive ← findQuietWindow FMP traceEnd longTasksAfterFMP;
    let valueInMs := Math_max firstInteractive DCL in
    Return {| timeInMs := valueInMs; timestamp := (valueInMs + navStart) * 1000 |}.
End ComputeWithArtifacts.

End MathExp.

End FirstInteractive.

(** ** JavaScript values in the score arithmetic *)

(** The values the JSDoc type of the source gives to the [score] of a raw
    audit result: [?number|boolean|undefined]. *)
Inductive JsValue : Type :=
  | VUndefined
  | VNull
  | VBoolean (b : bool)
  | VNumber (n : float).

(** [Number(v)] *)
Definition Number (v : JsValue) : float :=
  match v with
  | VUndefined => nan
  | VNull => 0
  | VBoolean true => 1
  | VBoolean false => 0
  | VNumber n => n
  end.

(** A property of type [number|undefined], as the JSDoc types of the source
    give to the [score] and [weight] of an item and to a configured weight:
    [None] is [undefined]. *)
Definition optional (x : option float) : JsValue :=
  match x with
  | Some n => VNumber n
  | None => VUndefined
  end.

(** ** The report generator *)

Module ReportGeneratorV2.
Local Open Scope float_scope.

(** An element of [items]: the two properties [arithmeticMean] reads. *)
Record Item : Type := mkItem {
  score : option float;
  weight : option float;
}.

(** The accumulator [{weight, sum}] of the [reduce]. *)
Record Totals : Type := mkTotals {
  total_weight : float;
  total_sum : float;
}.

(** The callback of [items.reduce]. *)
Definition accumulate (result : Totals) (item : Item) : Totals :=
  let score := orZero (Number (optional (score item))) in
  let weight := orZero (Number (optional (weight item))) in
  {| total_weight := total_weight result + weight;
     total_sum := total_sum result + score * weight |}.

(** [arithmeticMean(items)] *)
Definition arithmeticMean (items : list Item) : float :=
  let results := fold_left accumulate items {| total_weight := 0; total_sum := 0 |} in
  orZero (total_sum results / total_weight results).

(** An entry of [category.audits] in the scoring configuration. *)
Record AuditRef : Type := mkAuditRef {
  audit_id : string;
  audit_weight : option float;
}.

(** An object read from [resultsByAuditId].  The code reads its [score] and
    passes the object on as it is; [result_displayValue] stands for the rest
    of the object. *)
Record AuditResult : Type := mkAuditResult {
  result_score : JsValue;
  result_displayValue : string;
}.

(** The object [resultsByAuditId], as the property read
    [resultsByAuditId[audit.id]] sees it: its own properties, and the
    properties of its prototype chain, which a key reaches when the object has
    no own property of that name.  A property that holds [undefined] or
    [null] maps to [None]. *)
Record ResultsObject : Type := mkResultsObject {
  own : gmap string (option AuditResult);
  inherited : gmap string (option AuditResult);
}.

(** [resultsByAuditId[key]]: [None] when the read gives [undefined] or
    [null]. *)
Definition getResult (resultsByAuditId : ResultsObject) (key : string)
    : option AuditResult :=
  match own resultsByAuditId !! key with
  | Some value => value
  | None =>
      match inherited resultsByAuditId !! key with
      | Some value => value
      | None => None
      end
  end.

(** A member of [Object.prototype], as a value that can be read from an
    object: a function (for ["__proto__"] the prototype itself), whose
    [score] is [undefined]. *)
Definition prototypeMember (name : string) : option AuditResult :=
  Some {| result_score := VUndefined; result_displayValue := name |}.

(** The properties an object literal inherits from [Object.prototype]. *)
Definition objectPrototype : gmap string (option AuditResult) :=
  list_to_map
    (map (λ name, (name, prototypeMember name))
       [ "constructor"; "hasOwnProperty"; "isPrototypeOf"; "propertyIsEnumerable";
         "toLocaleString"; "toString"; "valueOf"; "__proto__";
         "__defineGetter__"; "__defineSetter__"; "__lookupGetter__";
         "__lookupSetter__" ]%string).

(** An object literal [{id1: result1, ...}] with the given own properties. *)
Definition objectLiteral (properties : gmap string AuditResult) : ResultsObject :=
  {| own := Some <$> properties; inherited := objectPrototype |}.

(** A category object of the scoring configuration.  [category_id] is
    [None] while the object has no [id] property. *)
Record Category : Type := mkCategory {
  category_id : option string;
  category_name : string;
  category_description : string;
  category_weight : option float;
  category_audits : list AuditRef;
}.

(** Category objects live in a store: the configuration holds references,
    and two keys may hold the same object. *)
Abbreviation loc := positive.
Abbreviation Store := (gmap loc Category).

(** [config]: the own enumerable properties of [config.categories], in
    [Object.keys] order, each with the reference it holds. *)
Record Config : Type := mkConfig {
  categories : list (string * loc);
}.

(** [Object.assign({}, audit, {result, score: auditScore})] *)
Record ReportAudit : Type := mkReportAudit {
  ra_id : string;
  ra_weight : option float;
  ra_result : AuditResult;
  ra_score : float;
}.

(** [Object.assign({}, category, {audits, score: categoryScore})] *)
Record ReportCategory : Type := mkReportCategory {
  rc_id : option string;
  rc_name : string;
  rc_description : string;
  rc_weight : option float;
  rc_audits : list ReportAudit;
  rc_score : float;
}.

(** The single element of an aggregation's [score] array. *)
Record AggregationScore : Type := mkAggregationScore {
  as_name : string;
  as_description : string;
  as_overall : float;
  as_subItems : list AuditResult;
}.

Record Aggregation : Type := mkAggregation {
  agg_name : string;
  agg_description : string;
  agg_categorizable : bool;
  agg_scored : bool;
  agg_total : float;
  agg_score : list AggregationScore;
}.

Record Report : Type := mkReport {
  report_score : float;
  report_categories : list ReportCategory;
  report_aggregations : list Aggregation;
}.

Definition auditItem (audit : ReportAudit) : Item :=
  {| score := Some (ra_score audit); weight := ra_weight audit |}.
Definition categoryItem (category : ReportCategory) : Item :=
  {| score := Some (rc_score category); weight := rc_weight category |}.

(** [_getAggregations(reportCategories)] *)
Definition _getAggregations (reportCategories : list ReportCategory) : list Aggregation :=
  map (λ category,
    let name := rc_name category in
    let description := rc_description category in
    {| agg_name := name; agg_description := description;
       agg_categorizable := false;
       agg_scored := bool_decide (rc_id category = Some "pwa"%string);
       agg_total := rc_score category / 100;
       agg_score := [ {| as_name := name; as_description := description;
                         as_overall := rc_score category / 100;
                         as_subItems := map ra_result (rc_audits category) |} ] |})
    reportCategories.

(** The callback of [category.audits.map]. *)
Definition scoreAudit (resultsByAuditId : ResultsObject)
    (audit : AuditRef) : Completion ReportAudit :=
  match getResult resultsByAuditId (audit_id audit) with
  | None => Throw TypeError               (* [result.score] of [undefined] *)
  | Some result =>
      let auditScore := orZero (Number (result_score result)) in
      let auditScore :=
        match result_score result with
        | VBoolean b => if b then 100 else 0
        | _ => auditScore
        end in
      Return {| ra_id := audit_id audit; ra_weight := audit_weight audit;
                ra_result := result; ra_score := auditScore |}
  end.

(** [category.id = categoryId] *)
Definition setId (categoryId : string) (category : Category) : Category :=
  {| category_id := Some categoryId;
     category_name := category_name category;
     category_description := category_description category;
     category_weight := category_weight category;
     category_audits := category_audits category |}.

(** The callback of [Object.keys(config.categories).map], on the store. *)
Definition scoreCategory (resultsByAuditId : ResultsObject)
    (categoryId : string) (ref : loc) (store : Store)
    : Store * Completion ReportCategory :=
  match store !! ref with
  | None => (store, Throw TypeError)      (* the property holds no object *)
  | Some category0 =>
      let category := setId categoryId category0 in
      let store := <[ref := category]> store in
      (store,
       audits ← mapM (scoreAudit resultsByAuditId) (category_audits category);
       let categoryScore := arithmeticMean (map auditItem audits) in
       mret {| rc_id := category_id category; rc_name := category_name category;
               rc_description := category_description category;
               rc_weight := category_weight category;
               rc_audits := audits; rc_score := categoryScore |})
  end.

(** [Object.keys(config.categories).map(...)], key after key; a throw leaves
    the store as the callbacks run so far have made it. *)
Fixpoint scoreCategories (resultsByAuditId : ResultsObject)
    (entries : list (string * loc)) (store : Store)
    : Store * Completion (list ReportCategory) :=
  match entries with
  | [] => (store, Return [])
  | (categoryId, ref) :: later =>
      match scoreCategory resultsByAuditId categoryId ref store with
      | (store, Throw e) => (store, Throw e)
      | (store, Return category) =>
          match scoreCategories resultsByAuditId later store with
          | (store, Throw e) => (store, Throw e)
          | (store, Return rest) => (store, Return (category :: rest))
          end
      end
  end.

(** [generateReportJson(config, resultsByAuditId)], as a function of the
    store before the call to the store after it and the completion. *)
Definition generateReportJson (config : Config)
    (resultsByAuditId : ResultsObject) (store : Store)
    : Store * Completion Report :=
  let '(store, mapped) := scoreCategories resultsByAuditId (categories config) store in
  (store,
   categories ← mapped;
   let overallScore := arithmeticMean (map categoryItem categories) in
   let aggregations := _getAggregations categories in
   mret {| report_score := overallScore; report_categories := categories;
           report_aggregations := aggregations |}).

End ReportGeneratorV2.

(** ** The artifact cache *)

Module ArtifactCache.

(** An artifact key: the artifact's name and the identity of the trace. *)
Abbreviation ArtifactKey := (string * nat)%type.

(** Who asked: requesters are told apart by a number. *)
Abbreviation Requester := nat.

Section Cache.
Context {Value : Type}.

(** Modelled from the spec: the cache entry of [computed-artifact.js],
    which is not among the sources.  A key maps "to either an in-flight
    computation or a completed value"; an in-flight computation carries the
    requesters attached to it, and a completed one its outcome, a value or
    the failure that "is cached as a failure". *)
Inductive Entry : Type :=
  | InFlight (attached : list Requester)
  | Completed (outcome : Completion Value).

(** Modelled from the spec: the state of the cache of
    [computed-artifact.js].  Besides the "key→result mapping" it records
    what the spec's test instruments: the computations started (the
    counter) and what each requester has been handed. *)
Record CacheState : Type := mkCacheState {
  entries : gmap ArtifactKey Entry;
  computations : list ArtifactKey;
  delivered : list (Requester * ArtifactKey * Completion Value);
}.

(** Modelled from the spec: what can happen at a suspension point of the
    single-threaded scheduler.  A caller requests an artifact, or the
    computation in flight for a key finishes with a value or a failure. *)
Inductive Event : Type :=
  | Request (who : Requester) (key : ArtifactKey)
  | Settle (key : ArtifactKey) (outcome : Completion Value).

(** Modelled from the spec: the cache of [computed-artifact.js] before any
    request, with no entry ("created on first request"). *)
Definition emptyCache : CacheState :=
  {| entries := ∅; computations := []; delivered := [] |}.

(** Modelled from the spec: [request(artifactName, traceRef)] of
    [computed-artifact.js].  A first request creates the entry and starts
    the computation; "if a computation for the key is already in flight, a
    new request attaches to the same pending computation rather than
    starting another"; "once complete, the result is retained", so a later
    request is answered from the entry. *)
Definition request (who : Requester) (key : ArtifactKey) (st : CacheState) : CacheState :=
  match entries st !! key with
  | None =>
      {| entries := <[key := InFlight [who]]> (entries st);
         computations := computations st ++ [key];
         delivered := delivered st |}
  | Some (InFlight attached) =>
      {| entries := <[key := InFlight (attached ++ [who])]> (entries st);
         computations := computations st;
         delivered := delivered st |}
  | Some (Completed outcome) =>
      {| entries := entries st;
         computations := computations st;
         delivered := delivered st ++ [(who, key, outcome)] |}
  end.

(** Modelled from the spec: the end of a computation of
    [computed-artifact.js].  The outcome replaces the in-flight entry and
    goes "to all attached requesters"; a failure is stored like a value
    ("not silently retried").  Without a computation in flight for the key
    there is nothing to settle. *)
Definition settle (key : ArtifactKey) (outcome : Completion Value) (st : CacheState) : CacheState :=
  match entries st !! key with
  | Some (InFlight attached) =>
      {| entries := <[key := Completed outcome]> (entries st);
         computations := computations st;
         delivered := delivered st ++ map (λ who, (who, key, outcome)) attached |}
  | _ => st
  end.

(** Modelled from the spec: one event at a suspension point; "there is no
    preemption", so events apply one after the other. *)
Definition step (st : CacheState) (ev : Event) : CacheState :=
  match ev with
  | Request who key => request who key st
  | Settle key outcome => settle key outcome st
  end.

(** Modelled from the spec: the cache of [computed-artifact.js] after a
    schedule of events, from the empty cache. *)
Definition run (evs : list Event) : CacheState := fold_left step evs emptyCache.

(** How many computations have been started for [key]. *)
Definition started (key : ArtifactKey) (st : CacheState) : nat :=
  length (filter (λ k, k = key) (computations st)).

(** What the cache knows about [key] after the schedule [evs]: nothing
    before the first request; one computation and the requesters so far
    while it is in flight; one computation and one outcome, handed to
    everyone who asked, once it has settled. *)
Definition coherent (key : ArtifactKey) (evs : list Event) (st : CacheState) : Prop :=
  match entries st !! key with
  | None =>
      started key st = 0%nat
      ∧ (∀ who, Request who key ∉ evs)
      ∧ (∀ who outcome, (who, key, outcome) ∉ delivered st)
  | Some (InFlight attached) =>
      started key st = 1%nat
      ∧ (∀ who, Request who key ∈ evs ↔ who ∈ attached)
      ∧ (∀ who outcome, (who, key, outcome) ∉ delivered st)
  | Some (Completed outcome) =>
      started key st = 1%nat
      ∧ (∀ who, Request who key ∈ evs → (who, key, outcome) ∈ delivered st)
      ∧ (∀ who outcome', (who, key, outcome') ∈ delivered st → outcome' = outcome)
      ∧ Settle key outcome ∈ evs
  end.
End Cache.

End ArtifactCache.

(** ** Task clusters, as the specification words them *)

Module Clustering.
Import FirstInteractive.
Local Open Scope float_scope.

(** "Tasks are sorted ascending by [start] and non-overlapping": every task
    ends no earlier than it starts, and starts no earlier than the task
    before it ends.  (A [NaN] time compares with nothing, so the times of
    such a list are numbers.) *)
Definition precedes (a b : Task) : Prop := (task_end a <=? task_start b) = true.
Definition sortedNonOverlapping (tasks : list Task) : Prop :=
  Forall (λ t, (task_start t <=? task_end t) = true) tasks ∧ Sorted precedes tasks.

(** No task starts at [-Infinity]. *)
Definition startsBounded (tasks : list Task) : Prop :=
  Forall (λ t, task_start t ≠ neg_infinity) tasks.

(** The gap between a task and the one after it "exceeds 1000ms": the
    difference the code computes, [next.start - previous.end], is above
    1000. *)
Definition gapExceeds (previous next : Task) : bool :=
  task_start next - task_end previous >? 1000.

(** The tasks the loop of [getTaskClustersInWindow] goes through: those up
    to the first one for which [task.start < clusteringWindowEnd] is false. *)
Fixpoint consideredTasks (clusteringWindowEnd : float) (remaining : list Task)
    : list Task :=
  match remaining with
  | [] => []
  | task :: later =>
      if task_start task <? clusteringWindowEnd
      then task :: consideredTasks clusteringWindowEnd later
      else []
  end.

(** The first task [getTaskClustersInWindow] goes through, if any. *)
Definition firstConsidered (tasks : list Task) (startIndex : nat) (windowEnd : float)
    : option Task :=
  head (consideredTasks (windowEnd + 1000) (drop startIndex tasks)).

(** "Start a new cluster whenever the gap between the current task's start
    and the previous task's end exceeds 1000ms; otherwise extend the current
    cluster": the runs of a task list, cut at every gap above 1000 ms. *)
Fixpoint clustersByGap (tasks : list Task) : list (list Task) :=
  match tasks with
  | [] => []
  | task :: later =>
      match head later, clustersByGap later with
      | Some next, run :: runs =>
          if gapExceeds task next
          then [task] :: run :: runs
          else (task :: run) :: runs
      | _, _ => [[task]]
      end
  end.

(** No two neighbours inside a cluster are more than 1000 ms apart. *)
Fixpoint closeKnit (run : list Task) : Prop :=
  match run with
  | a :: (b :: _) as later => gapExceeds a b = false ∧ closeKnit later
  | _ => True
  end.

(** Each cluster is more than 1000 ms away from the next one. *)
Fixpoint farApart (runs : list (list Task)) : Prop :=
  match runs with
  | run :: (next :: _) as later =>
      (∀ a b, last run = Some a → head next = Some b → gapExceeds a b = true)
      ∧ farApart later
  | _ => True
  end.

(** "[start] (first task's start), [end] (last task's end),
    [duration = end - start], member tasks". *)
Definition describes (run : list Task) (cluster : Cluster) : Prop :=
  ∃ first final,
    head run = Some first ∧ last run = Some final
    ∧ cluster_start cluster = task_start first
    ∧ cluster_end cluster = task_end final
    ∧ cluster_duration cluster = cluster_end cluster - cluster_start cluster
    ∧ cluster_tasks cluster = run.

(** The cluster record of a run of one task. *)
Definition clusterOfOne (task : Task) : Cluster :=
  {| cluster_start := task_start task; cluster_end := task_end task;
     cluster_duration := task_end task - task_start task;
     cluster_tasks := [task] |}.

(** The cluster record of a run of two tasks. *)
Definition clusterOfTwo (first final : Task) : Cluster :=
  {| cluster_start := task_start first; cluster_end := task_end final;
     cluster_duration := task_end final - task_start first;
     cluster_tasks := [first; final] |}.

(** A task that starts inside the window: before [windowEnd], and before the
    look-ahead bound [windowEnd + 1000] that the loop tests. *)
Definition startsInWindow (windowEnd : float) (task : Task) : Prop :=
  (task_start task <? windowEnd) = true
  ∧ (task_start task <? windowEnd + 1000) = true.

End Clustering.

(** ** Candidates of the quiet-window search *)

Module Candidates.
Import FirstInteractive.
Local Open Scope float_scope.

Section MathExp.
Variable Math_exp : float → float.

(** [windowEnd] of the candidate that starts where [event] ends. *)
Definition windowEndAfter (FMP : float) (event : Task) : float :=
  task_end event + getRequiredWindowSizeInMs Math_exp (task_end event - FMP).

(** The window of candidate [i] runs past the end of the trace. *)
Definition tooShortAt (FMP traceEnd : float) (longTasks : list Task) (i : nat) : Prop :=
  ∃ event, longTasks !! i = Some event
           ∧ (windowEndAfter FMP event >? traceEnd) = true.

(** The window of candidate [i] contains a bad cluster. *)
Definition badAt (FMP : float) (longTasks : list Task) (i : nat) : Prop :=
  ∃ event taskClusters cluster,
    longTasks !! i = Some event
    ∧ getTaskClustersInWindow longTasks (i + 1) (windowEndAfter FMP event)
      = Return taskClusters
    ∧ cluster ∈ taskClusters
    ∧ isBadCluster FMP cluster = true.

(** The search gets as far as candidate [i]: every earlier candidate fitted
    into the trace and had a bad cluster. *)
Definition examined (FMP traceEnd : float) (longTasks : list Task) (i : nat) : Prop :=
  ∀ j, (j < i)%nat → ¬ tooShortAt FMP traceEnd longTasks j ∧ badAt FMP longTasks j.
End MathExp.

End Candidates.

(** ** Score aggregation, as the specification words it *)

Module Scoring.
Import ReportGeneratorV2.
Local Open Scope float_scope.

(** An item with a numeric score and a numeric weight. *)
Definition numericItem (sw : float * float) : Item :=
  {| score := Some sw.1; weight := Some sw.2 |}.

(** "Σ weight_i", added up in the order of the list. *)
Definition totalWeight (items : list (float * float)) : float :=
  fold_left (λ acc sw, acc + sw.2) items 0.

(** "Σ score_i * weight_i", added up in the order of the list. *)
Definition weightedSum (items : list (float * float)) : float :=
  fold_left (λ acc sw, acc + sw.1 * sw.2) items 0.

(** An accumulator of the [reduce] whose two sums are not [-0]. *)
Definition tidy (result : Totals) : Prop :=
  total_weight result ≠ neg_zero ∧ total_sum result ≠ neg_zero.

(** "A boolean [true/false] score is normalized to [100/0];
    [null]/missing/non-numeric is normalized to [0]."  A zero of either sign
    is [+0]. *)
Definition normalizedScore (raw : JsValue) : float :=
  match raw with
  | VBoolean true => 100
  | VBoolean false => 0
  | VNull | VUndefined => 0
  | VNumber n => if is_nan n then 0 else if is_zero n then 0 else n
  end.


(** Every category the configuration refers to is an object of the store,
    and for every audit it lists [resultsByAuditId[audit.id]] is an object. *)
Definition resultsComplete (resultsByAuditId : ResultsObject)
    (entries : list (string * loc)) (store : Store) : Prop :=
  ∀ categoryId ref, (categoryId, ref) ∈ entries →
    ∃ category,
      store !! ref = Some category
      ∧ Forall (λ audit, is_Some (getResult resultsByAuditId (audit_id audit)))
          (category_audits category).

(** The writes [category.id = categoryId], key after key. *)
Definition writeIds (entries : list (string * loc)) (store : Store) : Store :=
  foldl (λ st entry, alter (setId entry.1) entry.2 st) store entries.

(** Two category objects that differ at most in their [id]. *)
Definition sameButId (before after : Category) : Prop :=
  category_name after = category_name before
  ∧ category_description after = category_description before
  ∧ category_weight after = category_weight before
  ∧ category_audits after = category_audits before.

(** What the report says of one configured audit. *)
Definition scored (resultsByAuditId : ResultsObject)
    (audit : AuditRef) (reported : ReportAudit) : Prop :=
  ra_id reported = audit_id audit
  ∧ ra_weight reported = audit_weight audit
  ∧ getResult resultsByAuditId (audit_id audit) = Some (ra_result reported)
  ∧ ra_score reported = normalizedScore (result_score (ra_result reported)).

End Scoring.

(** ** The shape of a report, for the properties of [generateReportJson] *)

Module ReportShape.
Import ReportGeneratorV2 Scoring.
Local Open Scope float_scope.

(** A number that is not negative: zero, positive or [Infinity]. *)
Definition nonNegative (x : float) : Prop := (0 <=? x) = true.

(** A weight that is [undefined], [NaN] or not negative. *)
Definition weightInRange (raw : option float) : Prop :=
  match raw with
  | None => True
  | Some w => is_nan w = true ∨ nonNegative w
  end.

(** A raw score that is a boolean, [null], [undefined], [NaN] or a number
    that is not negative. *)
Definition scoreInRange (raw : JsValue) : Prop :=
  match raw with
  | VNumber s => is_nan s = true ∨ nonNegative s
  | _ => True
  end.

(** A configuration whose categories are objects with weights in range and
    whose audits have weights in range and results with scores in range. *)
Definition inRange (resultsByAuditId : ResultsObject)
    (entries : list (string * loc)) (store : Store) : Prop :=
  ∀ categoryId ref, (categoryId, ref) ∈ entries →
    ∃ category,
      store !! ref = Some category
      ∧ weightInRange (category_weight category)
      ∧ Forall (λ audit,
          weightInRange (audit_weight audit)
          ∧ ∃ result, getResult resultsByAuditId (audit_id audit) = Some result
                      ∧ scoreInRange (result_score result))
          (category_audits category).

(** The report category made for the key [entry.1] from the category
    object that [entry.2] referred to in [store]. *)
Definition mirrors (resultsByAuditId : ResultsObject) (store : Store)
    (entry : string * loc) (reported : ReportCategory) : Prop :=
  rc_id reported = Some entry.1
  ∧ ∃ category,
      store !! entry.2 = Some category
      ∧ rc_name reported = category_name category
      ∧ rc_description reported = category_description category
      ∧ rc_weight reported = category_weight category
      ∧ Forall2 (scored resultsByAuditId) (category_audits category) (rc_audits reported)
      ∧ rc_score reported = arithmeticMean (map auditItem (rc_audits reported)).

(** The legacy aggregation made from a report category. *)
Definition aggregates (reported : ReportCategory) (aggregation : Aggregation) : Prop :=
  agg_name aggregation = rc_name reported
  ∧ agg_description aggregation = rc_description reported
  ∧ agg_categorizable aggregation = false
  ∧ agg_total aggregation = rc_score reported / 100
  ∧ agg_score aggregation
    = [ {| as_name := rc_name reported; as_description := rc_description reported;
           as_overall := rc_score reported / 100;
           as_subItems := map ra_result (rc_audits reported) |} ].

(** Two stores with the same objects, equal up to the [id] of each. *)
Definition agreeButIds (store1 store2 : Store) : Prop :=
  ∀ ref,
    match store1 !! ref, store2 !! ref with
    | Some category1, Some category2 => sameButId category1 category2
    | None, None => True
    | _, _ => False
    end.

End ReportShape.

(** ** Strings of the report template

    A JavaScript string is embedded as a [string]; its characters stand for
    the code units.  [+:+] is concatenation. *)

Module TemplateStrings.
Local Open Scope nat_scope.

(** The loop of [String.prototype.split] for a non-empty separator, over the
    rest of the source: [current] is the part collected since the last
    match, [skip] the number of characters of a matched separator still to
    pass over. *)
Fixpoint splitFrom (separator : string) (skip : nat) (current source : string)
    : list string :=
  match source with
  | EmptyString => [current]
  | String c rest =>
      match skip with
      | S k => splitFrom separator k current rest
      | O =>
          if String.prefix separator source
          then current :: splitFrom separator (String.length separator - 1) "" rest
          else splitFrom separator 0 (current +:+ String c "") rest
      end
  end.

(** The code units of a string, each as a string of its own. *)
Fixpoint codeUnits (source : string) : list string :=
  match source with
  | EmptyString => []
  | String c rest => String c "" :: codeUnits rest
  end.

(** [source.split(separator)] for a string separator: an empty separator
    splits between all code units (and the empty string into no part). *)
Definition split (separator source : string) : list string :=
  match separator with
  | EmptyString => codeUnits source
  | _ => splitFrom separator 0 "" source
  end.

(** [parts.join(separator)] *)
Fixpoint join (separator : string) (parts : list string) : string :=
  match parts with
  | [] => ""
  | [part] => part
  | part :: rest => part +:+ separator +:+ join separator rest
  end.

(** [{search, replacement}] *)
Record Replacement : Type := mkReplacement {
  search : string;
  replacement : string;
}.

(** [replaceStrings(source, replacements)] *)
Fixpoint replaceStrings (source : string) (replacements : list Replacement)
    {struct replacements} : string :=
  match replacements with
  | [] => source
  | firstReplacement :: nextReplacements =>
      join (replacement firstReplacement)
        (map (λ part, replaceStrings part nextReplacements)
           (split (search firstReplacement) source))
  end.

(** [s.replace(/</g, '\\u003c')]: every [<] becomes the six characters
    backslash, u, 0, 0, 3, c. *)
Fixpoint escapeLessThan (s : string) : string :=
  match s with
  | EmptyString => ""
  | String c rest =>
      if decide (c = "<"%char)
      then "\u003c" +:+ escapeLessThan rest
      else String c (escapeLessThan rest)
  end.

(** [s.replace(/<\//g, '\\u003c/')]: every [</] becomes backslash, u, 0, 0,
    3, c, slash. *)
Fixpoint escapeClosingTag (s : string) : string :=
  match s with
  | EmptyString => ""
  | String c rest =>
      match rest with
      | String d rest' =>
          if decide (c = "<"%char ∧ d = "/"%char)
          then "\u003c/" +:+ escapeClosingTag rest'
          else String c (escapeClosingTag rest)
      | EmptyString => String c ""
      end
  end.

Section GenerateReportHtml.
(** The files read when the module is loaded ([report-template.html], the
    renderer scripts joined by [";\n"], [report-styles.css],
    [templates.html]) and [JSON.stringify] on report objects are parameters. *)
Context {ReportObject : Type}.
Variable REPORT_TEMPLATE REPORT_JAVASCRIPT REPORT_CSS REPORT_TEMPLATES : string.
Variable JSON_stringify : ReportObject → string.

(** The replacement list of [generateReportHtml], from the second entry on. *)
Definition assetReplacements : list Replacement :=
  [ {| search := "%%LIGHTHOUSE_JAVASCRIPT%%";
       replacement := escapeClosingTag REPORT_JAVASCRIPT |};
    {| search := "/*%%LIGHTHOUSE_CSS%%*/"; replacement := REPORT_CSS |};
    {| search := "%%LIGHTHOUSE_TEMPLATES%%"; replacement := REPORT_TEMPLATES |} ].

(** [generateReportHtml(reportAsJson)] *)
Definition generateReportHtml (reportAsJson : ReportObject) : string :=
  let sanitizedJson := escapeLessThan (JSON_stringify reportAsJson) in
  replaceStrings REPORT_TEMPLATE
    ({| search := "%%LIGHTHOUSE_JSON%%"; replacement := sanitizedJson |}
     :: assetReplacements).
End GenerateReportHtml.

(** [needle] occurs in [s]. *)
Definition occursIn (needle s : string) : Prop :=
  ∃ before after, s = before +:+ needle +:+ after.

(** [needle] matches at no position of [before] when [before] is followed
    by [rest]. *)
Definition noMatchBefore (needle before rest : string) : Prop :=
  ∀ skipped tail, before = skipped +:+ tail → tail ≠ "" →
    String.prefix needle (tail +:+ rest) = false.

End TemplateStrings.

(** ** An implementation of [Math.exp]

    The language asks of [Math.exp] an "implementation-approximated" value
    and fixes only the results at [NaN], the zeros and the infinities.  To
    run the search on examples, here is the algorithm of fdlibm's [e_exp.c]
    in the form V8 carries it ([ieee754::exp]): reduction of the argument by
    a multiple of [ln 2], a rational approximation on the reduced argument,
    and scaling by a power of two. *)

Module Ieee754.
Local Open Scope float_scope.

(** A cast of a double to [int]: the integer part. *)
Definition truncate (x : float) : Z :=
  match Prim2SF x with
  | S754_finite s m e => cond_Zopp s (Z.shiftl (Zpos m) e)
  | _ => 0%Z
  end.

(** An [int] of small magnitude as a double. *)
Definition of_int (k : Z) : float :=
  match k with
  | Z0 => 0
  | Zpos p => of_uint63 (Uint63.of_Z (Zpos p))
  | Zneg p => - of_uint63 (Uint63.of_Z (Zpos p))
  end.

Definition o_threshold : float := 7.09782712893383973096e+02.
Definition u_threshold : float := -7.45133219101941108420e+02.
Definition ln2HI : float := 6.93147180369123816490e-01.
Definition ln2LO : float := 1.90821492927058770002e-10.
Definition invln2 : float := 1.44269504088896338700e+00.
Definition P1 : float := 1.66666666666666019037e-01.
Definition P2 : float := -2.77777777770155933842e-03.
Definition P3 : float := 6.61375632143793436117e-05.
Definition P4 : float := -1.65339022054652515390e-06.
Definition P5 : float := 4.13813679705723846039e-08.
Definition E : float := 2.718281828459045.
Definition twom1000 : float := 9.33263618503218878990e-302.
Definition two1023 : float := 8.988465674311579539e307.

(** The reduced argument [r = hi - lo] with [x = k ln 2 + r], or [None]
    where [|x| < 2^-28] and the result is [1 + x]. *)
Definition reduce (x : float) : option (float * float * float * Z) :=
  let xsb := get_sign x in
  if 0x1.62e43p-2 <=? abs x then          (* |x| > 0.5 ln 2 *)
    if abs x <? 0x1.0a2b2p+0 then         (* |x| < 1.5 ln 2 *)
      let hi := x - (if xsb then - ln2HI else ln2HI) in
      let lo := if xsb then - ln2LO else ln2LO in
      Some (hi - lo, hi, lo, (if xsb then -1 else 1)%Z)
    else
      let k := truncate (invln2 * x + (if xsb then -0.5 else 0.5)) in
      let t := of_int k in
      let hi := x - t * ln2HI in
      let lo := t * ln2LO in
      Some (hi - lo, hi, lo, k)
  else if abs x <? 0x1p-28 then None
  else Some (x, 0, 0, 0%Z).

Definition ieee754_exp (x : float) : float :=
  if is_nan x then x + x
  else if is_infinity x then (if get_sign x then 0 else x)
  else if x >? o_threshold then infinity
  else if x <? u_threshold then 0
  else if x =? 1 then E
  else
    match reduce x with
    | None => 1 + x
    | Some (r, hi, lo, k) =>
        let t := r * r in
        let twopk :=
          if (-1021 <=? k)%Z then Z.ldexp 1 k else Z.ldexp 1 (k + 1000) in
        let c := r - t * (P1 + t * (P2 + t * (P3 + t * (P4 + t * P5)))) in
        if (k =? 0)%Z then 1 - ((r * c) / (c - 2) - r)
        else
          let y := 1 - ((lo - (r * c) / (2 - c)) - hi) in
          if (-1021 <=? k)%Z then
            if (k =? 1024)%Z then y * 2 * two1023 else y * twopk
          else y * twopk * twom1000
    end.

End Ieee754.

(** * Properties *)

(** ** Completions *)

Lemma bind_Return {A B} (m : Completion A) (k : A → Completion B) (b : B) :
  m ≫= k = Return b ↔ ∃ a, m = Return a ∧ k a = Return b.
Proof.
  destruct m as [a|e]; simpl; split.
  - intros H. exists a. split; [reflexivity | exact H].
  - intros (a' & Ha & Hk). injection Ha as ->. exact Hk.
  - discriminate.
  - intros (a' & Ha & _). discriminate.
Qed.

Lemma bind_Throw {A B} (m : Completion A) (k : A → Completion B) (e : Exn) :
  m ≫= k = Throw e ↔ m = Throw e ∨ ∃ a, m = Return a ∧ k a = Throw e.
Proof.
  destruct m as [a|e']; simpl; split.
  - intros H. right. exists a. split; [reflexivity | exact H].
  - intros [H | (a' & Ha & Hk)]; [discriminate | injection Ha as ->; exact Hk].
  - intros H. left. congruence.
  - intros [H | (a' & Ha & _)]; [congruence | discriminate].
Qed.

(** ** Doubles

    What the proofs below use of the arithmetic of doubles, from the
    specification of binary64 that comes with the primitive floats. *)

Module FloatFacts.
Local Open Scope float_scope.

(** *** Order *)

Lemma SFcompare_swap (x y : spec_float) :
  SFcompare y x = CompOpp <$> SFcompare x y.
Proof.
  destruct x as [[]|[]| |[] mx ex], y as [[]|[]| |[] my ey]; try reflexivity; simpl;
    change (Pos.compare_cont Eq) with Pos.compare;
    destruct (Z.compare_spec ex ey), (Z.compare_spec ey ex); try lia; try reflexivity;
    destruct (Pos.compare_spec mx my), (Pos.compare_spec my mx); simpl; try lia; reflexivity.
Qed.

Ltac sf_order x y z :=
  let mx := fresh "mx" in let my := fresh "my" in let mz := fresh "mz" in
  let e1 := fresh "e1" in let e2 := fresh "e2" in let e3 := fresh "e3" in
  destruct x as [[]|[]| |[] mx e1], y as [[]|[]| |[] my e2], z as [[]|[]| |[] mz e3];
    simpl; try congruence;
    change (Pos.compare_cont Eq) with Pos.compare;
    destruct (Z.compare_spec e1 e2), (Z.compare_spec e2 e3), (Z.compare_spec e1 e3);
    try lia; try congruence;
    destruct (Pos.compare_spec mx my), (Pos.compare_spec my mz), (Pos.compare_spec mx mz);
    simpl; try lia; congruence.

Lemma SFcompare_trans (x y z : spec_float) (c : comparison) :
  SFcompare x y = Some c → SFcompare y z = Some c → SFcompare x z = Some c.
Proof. sf_order x y z. Qed.

Lemma SFcompare_Eq_l (x y z : spec_float) (c : comparison) :
  SFcompare x y = Some Eq → SFcompare y z = Some c → SFcompare x z = Some c.
Proof. sf_order x y z. Qed.

Lemma SFcompare_Eq_r (x y z : spec_float) (c : comparison) :
  SFcompare x y = Some c → SFcompare y z = Some Eq → SFcompare x z = Some c.
Proof. sf_order x y z. Qed.

Lemma SFcompare_refl (x : spec_float) : x ≠ S754_nan → SFcompare x x = Some Eq.
Proof.
  destruct x as [[]|[]| |[] m e]; simpl; try congruence;
    intros _; rewrite Z.compare_refl, Pos.compare_cont_refl; reflexivity.
Qed.

Lemma SFcompare_None (x y : spec_float) :
  SFcompare x y = None ↔ x = S754_nan ∨ y = S754_nan.
Proof.
  destruct x as [[]|[]| |[] mx ex], y as [[]|[]| |[] my ey]; simpl;
    split; try congruence; try tauto; intros [|]; congruence.
Qed.

Lemma ltb_fcompare (x y : float) : (x <? y) = true ↔ fcompare x y = Some Lt.
Proof.
  rewrite FloatAxioms.ltb_spec. unfold SFltb, fcompare.
  destruct (SFcompare _ _) as [[]|]; split; congruence.
Qed.

Lemma leb_fcompare (x y : float) :
  (x <=? y) = true ↔ fcompare x y = Some Lt ∨ fcompare x y = Some Eq.
Proof.
  rewrite FloatAxioms.leb_spec. unfold SFleb, fcompare.
  destruct (SFcompare _ _) as [[]|]; split; try congruence; auto; intros [|]; congruence.
Qed.

Lemma eqb_fcompare (x y : float) : (x =? y) = true ↔ fcompare x y = Some Eq.
Proof.
  rewrite FloatAxioms.eqb_spec. unfold SFeqb, fcompare.
  destruct (SFcompare _ _) as [[]|]; split; congruence.
Qed.

Lemma is_nan_spec (x : float) : is_nan x = true ↔ Prim2SF x = S754_nan.
Proof.
  unfold is_nan. rewrite negb_true_iff, FloatAxioms.eqb_spec. unfold SFeqb. split.
  - intros H. destruct (Prim2SF x) as [s|s| |s m e]; [| |reflexivity|];
      rewrite SFcompare_refl in H by discriminate; discriminate.
  - intros ->. reflexivity.
Qed.

Lemma is_nan_eq (x : float) : is_nan x = true ↔ x = nan.
Proof.
  rewrite is_nan_spec. split; [|by intros ->].
  intros H. by apply Prim2SF_inj.
Qed.

Lemma is_nan_false (x : float) : is_nan x = false ↔ Prim2SF x ≠ S754_nan.
Proof. rewrite <- is_nan_spec. by destruct (is_nan x). Qed.

Lemma fcompare_None (x y : float) :
  fcompare x y = None ↔ is_nan x = true ∨ is_nan y = true.
Proof. unfold fcompare. by rewrite SFcompare_None, !is_nan_spec. Qed.

Lemma fcompare_Some (x y : float) :
  is_nan x = false → is_nan y = false → ∃ c, fcompare x y = Some c.
Proof.
  intros Hx Hy. destruct (fcompare x y) as [c|] eqn:E; [by exists c|].
  apply fcompare_None in E as [E|E]; congruence.
Qed.

Lemma fcompare_swap (x y : float) : fcompare y x = CompOpp <$> fcompare x y.
Proof. apply SFcompare_swap. Qed.

Lemma ltb_false (x y : float) : (x <? y) = false ↔ fcompare x y ≠ Some Lt.
Proof. rewrite <- ltb_fcompare. by destruct (x <? y). Qed.

(** A comparison that holds has two numbers to compare. *)
Lemma ltb_not_nan (x y : float) :
  (x <? y) = true → is_nan x = false ∧ is_nan y = false.
Proof.
  rewrite ltb_fcompare. intros H.
  destruct (is_nan x) eqn:Hx, (is_nan y) eqn:Hy; try done;
    assert (fcompare x y = None) by (apply fcompare_None; auto); congruence.
Qed.

Lemma leb_not_nan (x y : float) :
  (x <=? y) = true → is_nan x = false ∧ is_nan y = false.
Proof.
  rewrite leb_fcompare. intros H.
  destruct (is_nan x) eqn:Hx, (is_nan y) eqn:Hy; try done;
    assert (fcompare x y = None) by (apply fcompare_None; auto);
    destruct H; congruence.
Qed.

Lemma ltb_irrefl (x : float) : (x <? x) = false.
Proof.
  apply ltb_false. intros H. pose proof (fcompare_swap x x) as Hs.
  rewrite H in Hs. discriminate.
Qed.

Lemma ltb_asym (x y : float) : (x <? y) = true → (y <? x) = false.
Proof.
  rewrite ltb_fcompare, ltb_false, (fcompare_swap x y). intros ->. discriminate.
Qed.

Lemma ltb_leb (x y : float) : (x <? y) = true → (x <=? y) = true.
Proof. rewrite ltb_fcompare, leb_fcompare. auto. Qed.

Lemma leb_not_ltb (x y : float) : (x <=? y) = true → (y <? x) = false.
Proof.
  rewrite leb_fcompare, ltb_false, (fcompare_swap x y). intros [-> | ->]; discriminate.
Qed.

Lemma not_ltb_leb (x y : float) :
  is_nan x = false → is_nan y = false → (x <? y) = false → (y <=? x) = true.
Proof.
  intros Hx Hy. rewrite ltb_false, leb_fcompare, (fcompare_swap x y).
  destruct (fcompare_Some x y Hx Hy) as [[] ->]; simpl; auto. congruence.
Qed.

Lemma leb_refl (x : float) : is_nan x = false → (x <=? x) = true.
Proof.
  intros Hx. apply leb_fcompare. right. apply SFcompare_refl. by apply is_nan_false.
Qed.

Lemma ltb_trans (x y z : float) :
  (x <? y) = true → (y <? z) = true → (x <? z) = true.
Proof. rewrite !ltb_fcompare. apply SFcompare_trans. Qed.

Lemma leb_ltb_trans (x y z : float) :
  (x <=? y) = true → (y <? z) = true → (x <? z) = true.
Proof.
  rewrite leb_fcompare, !ltb_fcompare. intros [H|H] Hyz.
  - by eapply SFcompare_trans.
  - by eapply SFcompare_Eq_l.
Qed.

Lemma ltb_leb_trans (x y z : float) :
  (x <? y) = true → (y <=? z) = true → (x <? z) = true.
Proof.
  rewrite leb_fcompare, !ltb_fcompare. intros Hxy [H|H].
  - by eapply SFcompare_trans.
  - by eapply SFcompare_Eq_r.
Qed.

Lemma leb_trans (x y z : float) :
  (x <=? y) = true → (y <=? z) = true → (x <=? z) = true.
Proof.
  intros Hxy Hyz. pose proof (leb_not_nan _ _ Hxy) as [Hx _].
  pose proof (leb_not_nan _ _ Hyz) as [_ Hz].
  apply not_ltb_leb; [exact Hz | exact Hx|].
  destruct (z <? x) eqn:E; [|reflexivity].
  pose proof (ltb_leb_trans _ _ _ E Hxy) as H.
  pose proof (leb_not_ltb _ _ Hyz). congruence.
Qed.

(** *** [Math.max] *)

Lemma Math_max_nan (x y : float) :
  is_nan (Math_max x y) = (is_nan x || is_nan y)%bool.
Proof.
  unfold Math_max. destruct (is_nan x) eqn:Hx; [reflexivity|].
  destruct (is_nan y) eqn:Hy; [reflexivity|]. simpl.
  destruct (x <? y); [exact Hy|]. destruct (y <? x); [exact Hx|].
  destruct (get_sign x); assumption.
Qed.

(** The larger of two numbers is one of them and not below either. *)
Lemma Math_max_spec (x y : float) :
  is_nan x = false → is_nan y = false →
  (Math_max x y = x ∨ Math_max x y = y)
  ∧ (x <=? Math_max x y) = true ∧ (y <=? Math_max x y) = true.
Proof.
  intros Hx Hy. unfold Math_max. rewrite Hx, Hy. simpl.
  destruct (x <? y) eqn:Hxy.
  { split; [by right|]. split; [by apply ltb_leb | by apply leb_refl]. }
  destruct (y <? x) eqn:Hyx.
  { split; [by left|]. split; [by apply leb_refl | by apply ltb_leb]. }
  pose proof (not_ltb_leb x y Hx Hy Hxy) as H1.
  pose proof (not_ltb_leb y x Hy Hx Hyx) as H2.
  destruct (get_sign x).
  - split; [by right|]. split; [exact H2 | by apply leb_refl].
  - split; [by left|]. split; [by apply leb_refl | exact H1].
Qed.

(** *** The infinities *)

Lemma Prim2SF_neg_infinity (x : float) :
  Prim2SF x = S754_infinity true ↔ x = neg_infinity.
Proof.
  split; [|by intros ->]. intros H. by apply Prim2SF_inj.
Qed.

(** Nothing is below [-Infinity]. *)
Lemma ltb_neg_infinity (x : float) : (x <? neg_infinity) = false.
Proof.
  rewrite FloatAxioms.ltb_spec.
  change (Prim2SF neg_infinity) with (S754_infinity true).
  by destruct (Prim2SF x) as [[]|[]| |[] m e].
Qed.

(** A number other than [-Infinity] is more than 1000 above [-Infinity];
    [-Infinity] itself is not, and nor is [NaN]. *)
Lemma above_neg_infinity (x : float) :
  (x - neg_infinity >? 1000) = true ↔ is_nan x = false ∧ x ≠ neg_infinity.
Proof.
  rewrite FloatAxioms.ltb_spec, sub_spec, is_nan_false, <- Prim2SF_neg_infinity.
  change (Prim2SF neg_infinity) with (S754_infinity true).
  destruct (Prim2SF x) as [[]|[]| |[] m e]; vm_compute; intuition congruence.
Qed.

(** *** Zeros *)

Lemma Prim2SF_zero (x : float) : Prim2SF x = S754_zero false ↔ x = 0.
Proof. split; [|by intros ->]. intros H. by apply Prim2SF_inj. Qed.

Lemma Prim2SF_neg_zero (x : float) : Prim2SF x = S754_zero true ↔ x = neg_zero.
Proof. split; [|by intros ->]. intros H. by apply Prim2SF_inj. Qed.

Lemma is_zero_spec (x : float) : is_zero x = true ↔ ∃ s, Prim2SF x = S754_zero s.
Proof.
  unfold is_zero. rewrite FloatAxioms.eqb_spec.
  change (Prim2SF PrimFloat.zero) with (S754_zero false).
  destruct (Prim2SF x) as [[]|[]| |[] m e]; vm_compute; split;
    try congruence; try (intros [? ?]; congruence); eauto.
Qed.

Lemma is_zero_eq (x : float) : is_zero x = true ↔ x = 0 ∨ x = neg_zero.
Proof.
  rewrite is_zero_spec, <- Prim2SF_zero, <- Prim2SF_neg_zero. split.
  - intros [[] H]; auto.
  - intros [H|H]; eauto.
Qed.

(** [n || 0] is never [NaN] and never [-0]. *)
Lemma orZero_not_nan (n : float) : is_nan (orZero n) = false.
Proof.
  unfold orZero, truthy. destruct (is_nan n) eqn:Hn; simpl; [reflexivity|].
  destruct (is_zero n); simpl; [reflexivity | exact Hn].
Qed.

Lemma orZero_not_neg_zero (n : float) : orZero n ≠ neg_zero.
Proof.
  unfold orZero, truthy. destruct (is_nan n) eqn:Hn; simpl; [discriminate|].
  destruct (is_zero n) eqn:Hz; simpl; [discriminate|].
  intros ->. vm_compute in Hz. discriminate.
Qed.

Lemma orZero_truthy (n : float) : truthy n = true → orZero n = n.
Proof. unfold orZero. by intros ->. Qed.

Lemma orZero_falsy (n : float) : truthy n = false → orZero n = 0.
Proof. unfold orZero. by intros ->. Qed.

(** *** Addition does not underflow

    The sum of two doubles is computed exactly and then rounded; a sum that
    is not exactly zero does not round to a zero, and it keeps the sign its
    operands share. *)

Lemma iter_pos_nat {A} (f : A → A) (p : positive) (x : A) :
  SpecFloat.iter_pos f p x = Nat.iter (Pos.to_nat p) f x.
Proof.
  revert x. induction p as [p IH|p IH|]; intros x; cbn [SpecFloat.iter_pos].
  - rewrite !IH, Pos2Nat.inj_xI, <- Nat.iter_add, <- Nat.iter_succ_r.
    f_equal. lia.
  - rewrite !IH, Pos2Nat.inj_xO, <- Nat.iter_add. f_equal. lia.
  - reflexivity.
Qed.

(** One shift to the right of a mantissa of more than one digit. *)
Lemma shr_1_pos (mrs : shr_record) (m : positive) :
  shr_m mrs = Zpos m → (1 < digits2_pos m)%positive →
  ∃ m', shr_m (shr_1 mrs) = Zpos m' ∧ Pos.succ (digits2_pos m') = digits2_pos m.
Proof.
  destruct mrs as [mm r s]. simpl. intros -> Hd.
  destruct m as [p|p|]; simpl in *; [by exists p | by exists p | lia].
Qed.

(** Fewer shifts than the mantissa has digits leave a positive mantissa. *)
Lemma shr_iter_pos (k : nat) (mrs : shr_record) (m : positive) :
  shr_m mrs = Zpos m → (k < Pos.to_nat (digits2_pos m))%nat →
  ∃ m', shr_m (Nat.iter k shr_1 mrs) = Zpos m'
        ∧ (Pos.to_nat (digits2_pos m') + k = Pos.to_nat (digits2_pos m))%nat.
Proof.
  intros Hm. induction k as [|k IH]; intros Hk.
  - exists m. split; [exact Hm | lia].
  - destruct IH as (m1 & Hm1 & Hd1); [lia|].
    destruct (shr_1_pos _ m1 Hm1) as (m' & Hm' & Hd'); [lia|].
    exists m'. split; [exact Hm' | lia].
Qed.

(** From the least exponent of the format on, rounding to the precision
    keeps a positive mantissa positive. *)
Lemma shr_fexp_pos (m : positive) (e : Z) (l : location) :
  (-1074 <= e)%Z →
  ∃ m' r s e',
    shr_fexp prec emax (Zpos m) e l = (Build_shr_record (Zpos m') r s, e')
    ∧ (-1074 <= e')%Z.
Proof.
  intros He. unfold shr_fexp, shr, fexp, SpecFloat.emin, Zdigits2.
  change (3 - emax - prec)%Z with (-1074)%Z. change prec with 53%Z.
  destruct (Z.max (Z.pos (digits2_pos m) + e - 53) (-1074) - e)%Z as [|p|p] eqn:Hn.
  - destruct l as [|[]]; simpl; eauto 10.
  - rewrite iter_pos_nat.
    destruct (shr_iter_pos (Pos.to_nat p) (shr_record_of_loc (Zpos m) l) m)
      as (m' & Hm' & _).
    + by destruct l as [|[]].
    + lia.
    + destruct (Nat.iter _ _ _) as [mm r s]. simpl in Hm'. subst mm.
      exists m', r, s, (e + Z.pos p)%Z. split; [reflexivity | lia].
  - destruct l as [|[]]; simpl; eauto 10.
Qed.

Lemma binary_round_aux_pos (sx : bool) (m : positive) (e : Z) (l : location) :
  (-1074 <= e)%Z →
  (∃ m' e', binary_round_aux prec emax sx (Zpos m) e l = S754_finite sx m' e')
  ∨ binary_round_aux prec emax sx (Zpos m) e l = S754_infinity sx.
Proof.
  intros He. unfold binary_round_aux.
  destruct (shr_fexp_pos m e l He) as (m1 & r1 & s1 & e1 & -> & He1).
  assert (Hrne : ∃ m2,
            round_nearest_even (shr_m {| shr_m := Zpos m1; shr_r := r1; shr_s := s1 |})
              (loc_of_shr_record {| shr_m := Zpos m1; shr_r := r1; shr_s := s1 |})
            = Zpos m2).
  { destruct r1, s1; simpl; eauto. destruct m1; simpl; eauto. }
  destruct Hrne as [m2 ->].
  destruct (shr_fexp_pos m2 e1 loc_Exact He1) as (m3 & r3 & s3 & e3 & -> & He3).
  simpl. destruct (e3 <=? emax - prec)%Z; eauto.
Qed.

Lemma binary_round_pos (sx : bool) (m : positive) (e : Z) :
  (-1074 <= e)%Z →
  (∃ m' e', binary_round prec emax sx m e = S754_finite sx m' e')
  ∨ binary_round prec emax sx m e = S754_infinity sx.
Proof.
  intros He. unfold binary_round, shl_align.
  destruct (fexp prec emax (Z.pos (digits2_pos m) + e) - e)%Z eqn:Hn;
    try (by apply binary_round_aux_pos).
  apply binary_round_aux_pos.
  unfold fexp, SpecFloat.emin. change (3 - emax - prec)%Z with (-1074)%Z. lia.
Qed.

(** The exponent of a double is at least the least exponent of the format. *)
Lemma valid_finite_emin (x : float) (s : bool) (m : positive) (e : Z) :
  Prim2SF x = S754_finite s m e → (-1074 <= e)%Z.
Proof.
  intros Hx. pose proof (Prim2SF_valid x) as Hv. rewrite Hx in Hv.
  simpl in Hv. unfold bounded, canonical_mantissa, fexp, SpecFloat.emin in Hv.
  change (3 - emax - prec)%Z with (-1074)%Z in Hv.
  apply andb_prop in Hv as [Hc _]. apply Z.eqb_eq in Hc. lia.
Qed.

(** The sum of two finite non-zero doubles: [+0] when they cancel, and
    otherwise finite and not zero, or infinite, with the sign the two
    share if they share one. *)
Lemma SFadd_finite (sx sy : bool) (mx my : positive) (ex ey : Z) :
  (-1074 <= ex)%Z → (-1074 <= ey)%Z →
  let r := SF64add (S754_finite sx mx ex) (S754_finite sy my ey) in
  (r = S754_zero false ∧ sx ≠ sy)
  ∨ (∃ s m e, r = S754_finite s m e ∧ (sx = sy → s = sx))
  ∨ (∃ s, r = S754_infinity s ∧ (sx = sy → s = sx)).
Proof.
  intros Hx Hy. unfold SF64add, SFadd. cbv zeta.
  set (ez := Z.min ex ey).
  set (ax := fst (shl_align mx ex ez)). set (ay := fst (shl_align my ey ez)).
  assert (Hez : (-1074 <= ez)%Z) by (unfold ez; lia).
  unfold binary_normalize.
  destruct (cond_Zopp sx (Z.pos ax) + cond_Zopp sy (Z.pos ay))%Z as [|p|p] eqn:Hsum.
  - left. split; [reflexivity|]. intros <-. destruct sx; simpl in Hsum; lia.
  - right. destruct (binary_round_pos false p ez Hez) as [(m' & e' & ->) | ->].
    + left. exists false, m', e'. split; [reflexivity|].
      intros <-. destruct sx; simpl in Hsum; [lia | reflexivity].
    + right. exists false. split; [reflexivity|].
      intros <-. destruct sx; simpl in Hsum; [lia | reflexivity].
  - right. destruct (binary_round_pos true p ez Hez) as [(m' & e' & ->) | ->].
    + left. exists true, m', e'. split; [reflexivity|].
      intros <-. destruct sx; simpl in Hsum; [reflexivity | lia].
    + right. exists true. split; [reflexivity|].
      intros <-. destruct sx; simpl in Hsum; [reflexivity | lia].
Qed.

(** A sum is [-0] only when both summands are. *)
Lemma add_neg_zero_inv (x y : float) :
  x + y = neg_zero → x = neg_zero ∧ y = neg_zero.
Proof.
  intros H. apply Prim2SF_neg_zero in H. rewrite add_spec in H.
  rewrite <- !Prim2SF_neg_zero.
  destruct (Prim2SF x) as [sx|sx| |sx mx ex] eqn:Hx,
    (Prim2SF y) as [sy|sy| |sy my ey] eqn:Hy;
    try (by destruct sx, sy); try discriminate.
  destruct (SFadd_finite sx sy mx my ex ey) as [[Hr _] | [(s & m & e & Hr & _) | (s & Hr & _)]];
    [by eapply valid_finite_emin | by eapply valid_finite_emin | | |];
    cbv zeta in Hr; congruence.
Qed.

(** Adding a zero to a number other than [-0] gives the number. *)
Lemma add_zero_r (x z : float) : is_zero z = true → x ≠ neg_zero → x + z = x.
Proof.
  intros Hz Hx. apply is_zero_spec in Hz as [s Hz]. rewrite <- Prim2SF_neg_zero in Hx.
  apply Prim2SF_inj. rewrite add_spec, Hz.
  destruct (Prim2SF x) as [[]|sx| |sx mx ex]; try done; by destruct s.
Qed.

Lemma add_nan_l (y : float) : nan + y = nan.
Proof. apply Prim2SF_inj. rewrite add_spec. reflexivity. Qed.

Lemma add_nan_r (x : float) : x + nan = nan.
Proof.
  apply Prim2SF_inj. rewrite add_spec. change (Prim2SF nan) with S754_nan.
  by destruct (Prim2SF x) as [[]|[]| |[] m e].
Qed.

(** *** Products and quotients with zeros *)

(** A zero times a number is a zero, or [NaN] when the number is infinite or
    [NaN]; which of the two does not depend on the sign of the zero. *)
Lemma mul_zero_l (a a' b : float) :
  is_zero a = true → is_zero a' = true →
  (a * b = nan ∧ a' * b = nan) ∨ (is_zero (a * b) = true ∧ is_zero (a' * b) = true).
Proof.
  intros Ha Ha'. apply is_zero_spec in Ha as [s Ha], Ha' as [s' Ha'].
  rewrite <- !is_nan_eq, !is_nan_spec, !is_zero_spec, !mul_spec, Ha, Ha'.
  destruct (Prim2SF b) as [sb|sb| |sb mb eb]; simpl; eauto.
Qed.

Lemma mul_zero_r (a b b' : float) :
  is_zero b = true → is_zero b' = true →
  (a * b = nan ∧ a * b' = nan) ∨ (is_zero (a * b) = true ∧ is_zero (a * b') = true).
Proof.
  intros Hb Hb'. apply is_zero_spec in Hb as [s Hb], Hb' as [s' Hb'].
  rewrite <- !is_nan_eq, !is_nan_spec, !is_zero_spec, !mul_spec, Hb, Hb'.
  destruct (Prim2SF a) as [sa|sa| |sa ma ea]; simpl; eauto.
Qed.

(** A number that is not infinite, times a zero, is a zero. *)
Lemma mul_finite_zero (a z : float) :
  is_nan a = false → a ≠ infinity → a ≠ neg_infinity → is_zero z = true →
  is_zero (a * z) = true.
Proof.
  intros Hnan Hinf Hninf Hz. apply is_zero_spec in Hz as [s Hz].
  apply is_nan_false in Hnan. rewrite is_zero_spec, mul_spec, Hz.
  destruct (Prim2SF a) as [sa|sa| |sa ma ea] eqn:Ha; simpl; eauto; [|done].
  destruct sa; [destruct Hninf | destruct Hinf]; by apply Prim2SF_inj.
Qed.

(** A zero or [NaN] over a zero is [NaN]. *)
Lemma div_zero_zero (a b : float) :
  is_zero a = true ∨ a = nan → is_zero b = true → a / b = nan.
Proof.
  intros Ha Hb. apply is_zero_spec in Hb as [s Hb].
  apply Prim2SF_inj. rewrite div_spec, Hb.
  destruct Ha as [Ha | ->]; [|reflexivity].
  apply is_zero_spec in Ha as [sa ->]. reflexivity.
Qed.

(** *** Numbers that are not negative *)

Lemma nonneg_spec (x : float) :
  (0 <=? x) = true
  ↔ (∃ s, Prim2SF x = S754_zero s) ∨ (∃ m e, Prim2SF x = S754_finite false m e)
    ∨ Prim2SF x = S754_infinity false.
Proof.
  rewrite FloatAxioms.leb_spec. change (Prim2SF 0) with (S754_zero false).
  destruct (Prim2SF x) as [s|[]| |[] m e]; vm_compute; split;
    try congruence; eauto;
    intros [[? ?] | [(? & ? & ?) | ?]]; congruence.
Qed.

(** The sum of two numbers that are not negative is not negative, and is a
    zero only when both are zeros. *)
Lemma nonneg_add (x y : float) :
  (0 <=? x) = true → (0 <=? y) = true →
  (0 <=? x + y) = true
  ∧ (is_zero (x + y) = true → is_zero x = true ∧ is_zero y = true).
Proof.
  rewrite !nonneg_spec, !is_zero_spec, add_spec.
  intros [[sx Hx] | [(mx & ex & Hx) | Hx]] [[sy Hy] | [(my & ey & Hy) | Hy]];
    rewrite Hx, Hy; try (split; [simpl; eauto 6 | intros [? ?]; by eauto]).
  - left. destruct sx, sy; eauto.
  - destruct (SFadd_finite false false mx my ex ey)
      as [[Hr Hne] | [(s & m & e & Hr & Hs) | (s & Hr & Hs)]];
      [by eapply valid_finite_emin | by eapply valid_finite_emin | done | |];
      cbv zeta in Hr; rewrite Hr, (Hs eq_refl);
      (split; [eauto 6 | intros [? ?]; discriminate]).
Qed.

(** *** Numbers that agree up to the sign of a zero *)

Lemma sameUpToZero_trans (p q r : float) :
  sameUpToZero p q → sameUpToZero q r → sameUpToZero p r.
Proof.
  intros [-> | [Hp Hq]] [<- | [Hq' Hr]]; unfold sameUpToZero; auto.
Qed.

(** [n || 0] changes a number at most in the sign of a zero. *)
Lemma orZero_same (n : float) : is_nan n = false → sameUpToZero (orZero n) n.
Proof.
  intros Hn. unfold orZero, truthy. rewrite Hn. simpl.
  destruct (is_zero n) eqn:Hz; simpl; [right | left]; done.
Qed.

Lemma mul_sameUpToZero (a a' b b' : float) :
  sameUpToZero a a' → sameUpToZero b b' → sameUpToZero (a * b) (a' * b').
Proof.
  intros Ha Hb. apply sameUpToZero_trans with (a' * b).
  - destruct Ha as [-> | [Ha Ha']]; [by left|].
    destruct (mul_zero_l a a' b Ha Ha') as [[-> ->] | ?]; [by left | by right].
  - destruct Hb as [-> | [Hb Hb']]; [by left|].
    destruct (mul_zero_r a' b b' Hb Hb') as [[-> ->] | ?]; [by left | by right].
Qed.

(** Added to a number other than [-0], they give the same sum. *)
Lemma add_sameUpToZero (x p q : float) :
  x ≠ neg_zero → sameUpToZero p q → x + p = x + q.
Proof.
  intros Hx [-> | [Hp Hq]]; [reflexivity|]. by rewrite !add_zero_r.
Qed.

(** A number that is a zero or [NaN] stays one when zeros and [NaN] are
    added. *)
Lemma add_zero_or_nan (x p : float) :
  is_zero x = true ∨ x = nan → is_zero p = true ∨ p = nan →
  is_zero (x + p) = true ∨ x + p = nan.
Proof.
  intros [Hx | ->] [Hp | ->]; rewrite ?add_nan_l, ?add_nan_r; auto.
  left. apply is_zero_spec in Hx as [sx Hx], Hp as [sp Hp].
  rewrite is_zero_spec, add_spec, Hx, Hp. destruct sx, sp; simpl; eauto.
Qed.

(** *** Products and quotients keep the sign

    A product or quotient of two doubles is rounded from a mantissa that is
    not negative: it can round to a zero or overflow, and has the sign that
    [xorb] gives. *)

Lemma shr_1_nonneg (mrs : shr_record) :
  (0 <= shr_m mrs)%Z → (0 <= shr_m (shr_1 mrs))%Z.
Proof.
  destruct mrs as [m r s]. simpl. intros Hm.
  destruct m as [|[p|p|]|p]; simpl; lia.
Qed.

Lemma shr_iter_nonneg (k : nat) (mrs : shr_record) :
  (0 <= shr_m mrs)%Z → (0 <= shr_m (Nat.iter k shr_1 mrs))%Z.
Proof.
  intros Hm. induction k as [|k IH]; [exact Hm|]. simpl. by apply shr_1_nonneg.
Qed.

Lemma shr_fexp_nonneg (m e : Z) (l : location) :
  (0 <= m)%Z → (0 <= shr_m (shr_fexp prec emax m e l).1)%Z.
Proof.
  intros Hm. unfold shr_fexp, shr.
  assert (Hloc : (0 <= shr_m (shr_record_of_loc m l))%Z) by (by destruct l as [|[]]).
  destruct (fexp prec emax (Zdigits2 m + e) - e)%Z as [|p|p]; simpl; [exact Hloc| |exact Hloc].
  rewrite iter_pos_nat. by apply shr_iter_nonneg.
Qed.

Lemma round_nearest_even_nonneg (m : Z) (l : location) :
  (0 <= m)%Z → (0 <= round_nearest_even m l)%Z.
Proof.
  intros Hm. unfold round_nearest_even.
  destruct l as [|[]]; try lia. destruct (Z.even m); lia.
Qed.

Lemma binary_round_aux_sign (sx : bool) (m e : Z) (l : location) :
  (0 <= m)%Z →
  binary_round_aux prec emax sx m e l = S754_zero sx
  ∨ (∃ m' e', binary_round_aux prec emax sx m e l = S754_finite sx m' e')
  ∨ binary_round_aux prec emax sx m e l = S754_infinity sx.
Proof.
  intros Hm. unfold binary_round_aux.
  pose proof (shr_fexp_nonneg m e l Hm) as H1.
  destruct (shr_fexp prec emax m e l) as [mrs1 e1]. simpl in H1.
  pose proof (shr_fexp_nonneg _ e1 loc_Exact
                (round_nearest_even_nonneg _ (loc_of_shr_record mrs1) H1)) as H2.
  destruct (shr_fexp prec emax _ e1 loc_Exact) as [mrs2 e2]. simpl in H2.
  destruct (shr_m mrs2) as [|m2|m2]; [by left | | lia].
  destruct (e2 <=? emax - prec)%Z; eauto.
Qed.

Lemma SFdiv_core_nonneg (m1 : positive) (e1 : Z) (m2 : positive) (e2 : Z) :
  (0 <= (SFdiv_core_binary prec emax (Zpos m1) e1 (Zpos m2) e2).1.1)%Z.
Proof.
  unfold SFdiv_core_binary. cbv zeta.
  match goal with
  | |- context [Z.div_eucl ?a ?b] =>
      assert (Ha : (0 <= a)%Z);
      [| pose proof (Z.div_pos a b Ha ltac:(lia)) as Hq;
         unfold Z.div in Hq; destruct (Z.div_eucl a b) as [q r]; exact Hq]
  end.
  match goal with
  | |- (0 <= match ?s with Z0 => _ | Zpos _ => _ | Zneg _ => _ end)%Z =>
      destruct s; [lia | apply Z.shiftl_nonneg; lia | lia]
  end.
Qed.

Lemma positiveSign_spec (x : float) :
  positiveSign x
  ↔ Prim2SF x = S754_zero false ∨ (∃ m e, Prim2SF x = S754_finite false m e)
    ∨ Prim2SF x = S754_infinity false.
Proof.
  unfold positiveSign. rewrite nonneg_spec, <- Prim2SF_neg_zero. split.
  - intros [[[[] Hz] | [H | H]] Hneg]; eauto. done.
  - intros [H | [(m & e & H) | H]]; (split; [eauto 6 | congruence]).
Qed.

Lemma positiveSign_mul (x y : float) :
  positiveSign x → positiveSign y → x * y = nan ∨ positiveSign (x * y).
Proof.
  rewrite !positiveSign_spec, <- is_nan_eq, is_nan_spec, mul_spec.
  unfold SF64mul.
  intros [-> | [(mx & ex & ->) | ->]] [-> | [(my & ey & ->) | ->]]; simpl; eauto 10.
  right. apply (binary_round_aux_sign false). lia.
Qed.

Lemma positiveSign_div (x y : float) :
  positiveSign x → positiveSign y → x / y = nan ∨ positiveSign (x / y).
Proof.
  rewrite !positiveSign_spec, <- is_nan_eq, is_nan_spec, div_spec.
  unfold SF64div.
  intros [-> | [(mx & ex & ->) | ->]] [-> | [(my & ey & ->) | ->]]; simpl; eauto 10.
  right. pose proof (SFdiv_core_nonneg mx ex my ey) as Hq.
  destruct (SFdiv_core_binary prec emax (Zpos mx) ex (Zpos my) ey) as [[mz ez] lz].
  simpl in Hq. by apply (binary_round_aux_sign false).
Qed.

Lemma positiveSign_add (x y : float) :
  positiveSign x → positiveSign y → positiveSign (x + y).
Proof.
  intros [Hx Hx0] [Hy Hy0]. split; [by apply nonneg_add|].
  intros H. by apply add_neg_zero_inv in H as [H _].
Qed.

Lemma positiveSign_orZero (n : float) :
  is_nan n = true ∨ (0 <=? n) = true → positiveSign (orZero n).
Proof.
  intros Hn. split; [|apply orZero_not_neg_zero].
  unfold orZero, truthy. destruct Hn as [-> | Hn]; [reflexivity|].
  by destruct (is_nan n || is_zero n)%bool.
Qed.

Lemma div_nan_l (y : float) : nan / y = nan.
Proof.
  apply is_nan_eq, is_nan_spec. rewrite div_spec. reflexivity.
Qed.

(** A number divided by a finite number other than zero is a number. *)
Lemma div_finite_not_nan (x y : float) (s : bool) (m : positive) (e : Z) :
  is_nan x = false → Prim2SF y = S754_finite s m e → is_nan (x / y) = false.
Proof.
  rewrite !is_nan_false, div_spec. intros Hx ->. unfold SF64div.
  destruct (Prim2SF x) as [sx|sx| |sx mx ex]; simpl; try done.
  pose proof (SFdiv_core_nonneg mx ex m e) as Hq.
  destruct (SFdiv_core_binary prec emax (Zpos mx) ex (Zpos m) e) as [[mz ez] lz].
  simpl in Hq.
  destruct (binary_round_aux_sign (xorb sx s) mz ez lz Hq) as [-> | [(m' & e' & ->) | ->]];
    done.
Qed.

End FloatFacts.

(** ** The required window size *)

Module WindowSize.
Import FirstInteractive FloatFacts Ieee754.
Local Open Scope float_scope.

Lemma windowSize_formula (Math_exp : float → float) (t : float) :
  getRequiredWindowSizeInMs Math_exp t
  = (4 * Math_exp (- 0.045 * (t / 1000)) + 1) * 1000.
Proof. reflexivity. Qed.

(** [Math.exp(-0)] is 1 in every implementation ("if x is +0 or -0, the
    result is 1"), and [-.045 * (0 / 1000)] is [-0]. *)
Lemma windowSize_at_FMP (Math_exp : float → float) :
  Math_exp (-0) = 1 → getRequiredWindowSizeInMs Math_exp 0 = 5000.
Proof.
  intros Hexp. unfold getRequiredWindowSizeInMs. cbv zeta.
  change (- 0.045 * (0 / 1000)) with (-0). by rewrite Hexp.
Qed.

(** Where the exponential has underflowed to 0 the window is the floor of
    one second, exactly. *)
Lemma windowSize_floor (Math_exp : float → float) (t : float) :
  Math_exp (- 0.045 * (t / 1000)) = 0 → getRequiredWindowSizeInMs Math_exp t = 1000.
Proof. intros Hexp. unfold getRequiredWindowSizeInMs. cbv zeta. by rewrite Hexp. Qed.

(** [ieee754_exp] underflows to 0 below its threshold. *)
Lemma ieee754_exp_underflow (x : float) :
  (x <? u_threshold) = true → ieee754_exp x = 0.
Proof.
  intros Hx. unfold ieee754_exp.
  pose proof (ltb_not_nan _ _ Hx) as [Hnan _]. rewrite Hnan.
  assert (get_sign x = true ∧ (x >? o_threshold) = false) as [Hsign Hover].
  { split.
    - unfold get_sign.
      assert (Hneg : (x <? 0) = true) by (by apply (ltb_trans _ _ _ Hx)).
      destruct (is_zero x) eqn:Hz; [|exact Hneg].
      apply is_zero_eq in Hz as [-> | ->]; discriminate.
    - apply ltb_asym. by apply (ltb_trans _ _ _ Hx). }
  rewrite Hsign, Hover, Hx. by destruct (is_infinity x).
Qed.

Lemma windowSize_after_a_minute :
  (1268 <? getRequiredWindowSizeInMs ieee754_exp 60000) = true
  ∧ (getRequiredWindowSizeInMs ieee754_exp 60000 <? 1269) = true.
Proof. split; vm_compute; reflexivity. Qed.

(** C6, as stated, fails in its last clause: a minute after the paint the
    required window is still above 1001 ms. *)
Lemma windowSize_60000_not_below_1001 :
  (getRequiredWindowSizeInMs ieee754_exp 60000 <? 1001) = false.
Proof. vm_compute. reflexivity. Qed.

(** C6 (amended): [getRequiredWindowSizeInMs t] is
    [(4 * Math.exp(-0.045 * (t / 1000)) + 1) * 1000] in the arithmetic of
    doubles, for any [Math.exp]; it is exactly 5000 at [t = 0], since
    [Math.exp(-0)] is 1.  It is not strictly decreasing and does not stay
    above 1000: where the exponential is 0 the window is 1000 exactly, and
    with [ieee754_exp] that is so for every [t] that puts the exponent below
    the underflow threshold; at [t = 1e6] and [t = 2e6] the window is 1000
    as well.  A minute after the paint it lies between 1268 and 1269 (so not
    below 1001). *)
Theorem windowSize_spec :
  (∀ (Math_exp : float → float) (t : float),
     getRequiredWindowSizeInMs Math_exp t
     = (4 * Math_exp (- 0.045 * (t / 1000)) + 1) * 1000)
  ∧ (∀ Math_exp : float → float,
       Math_exp (-0) = 1 → getRequiredWindowSizeInMs Math_exp 0 = 5000)
  ∧ (∀ (Math_exp : float → float) (t : float),
       Math_exp (- 0.045 * (t / 1000)) = 0 →
       getRequiredWindowSizeInMs Math_exp t = 1000)
  ∧ (∀ t : float,
       (- 0.045 * (t / 1000) <? u_threshold) = true →
       getRequiredWindowSizeInMs ieee754_exp t = 1000)
  ∧ getRequiredWindowSizeInMs ieee754_exp 0 = 5000
  ∧ getRequiredWindowSizeInMs ieee754_exp 1e6 = 1000
  ∧ getRequiredWindowSizeInMs ieee754_exp 2e6 = 1000
  ∧ (1268 <? getRequiredWindowSizeInMs ieee754_exp 60000) = true
  ∧ (getRequiredWindowSizeInMs ieee754_exp 60000 <? 1269) = true.
Proof.
  split; [exact windowSize_formula|].
  split; [exact windowSize_at_FMP|].
  split; [exact windowSize_floor|].
  split.
  { intros t Ht. apply windowSize_floor. by apply ieee754_exp_underflow. }
  split; [vm_compute; reflexivity|].
  split; [vm_compute; reflexivity|].
  split; [vm_compute; reflexivity|].
  exact windowSize_after_a_minute.
Qed.

Lemma windowSize_spec_witness :
  getRequiredWindowSizeInMs ieee754_exp 0 = 5000
  ∧ getRequiredWindowSizeInMs ieee754_exp 2e7 = 1000.
Proof.
  destruct windowSize_spec as (_ & Hstart & _ & Hfloor & _).
  split; [apply Hstart | apply Hfloor]; vm_compute; reflexivity.
Defined.

End WindowSize.

(** ** Clustering: the loop against the runs of the specification *)

Module ClusteringFacts.
Import FirstInteractive Clustering FloatFacts.
Local Open Scope float_scope.

Lemma clustersByGap_step (task next : Task) (later : list Task) :
  clustersByGap (task :: next :: later) =
    match clustersByGap (next :: later) with
    | run :: runs =>
        if gapExceeds task next
        then [task] :: run :: runs else (task :: run) :: runs
    | [] => [[task]]
    end.
Proof. reflexivity. Qed.

Lemma clustersByGap_head (task : Task) (later : list Task) :
  ∃ run runs, clustersByGap (task :: later) = (task :: run) :: runs.
Proof.
  simpl. destruct (head later) as [next|]; [|eauto].
  destruct (clustersByGap later) as [|run runs]; [eauto|].
  destruct (gapExceeds task next); eauto.
Qed.

Lemma clustersByGap_concat (tasks : list Task) :
  concat (clustersByGap tasks) = tasks.
Proof.
  induction tasks as [|task later IH]; [reflexivity|].
  destruct later as [|next later']; [reflexivity|].
  destruct (clustersByGap_head next later') as (run & runs & E).
  rewrite clustersByGap_step, E in *.
  destruct (gapExceeds task next); simpl in *; by rewrite IH.
Qed.

Lemma clustersByGap_runs_not_nil (tasks : list Task) :
  Forall (λ run, run ≠ []) (clustersByGap tasks).
Proof.
  induction tasks as [|task later IH]; [constructor|].
  simpl. destruct (head later) as [next|]; [|by repeat constructor].
  destruct (clustersByGap later) as [|run runs]; [by repeat constructor|].
  apply Forall_cons in IH as [Hrun Hruns].
  destruct (gapExceeds task next); repeat constructor; done.
Qed.

Lemma clustersByGap_closeKnit (tasks : list Task) :
  Forall closeKnit (clustersByGap tasks).
Proof.
  induction tasks as [|task later IH]; [constructor|].
  destruct later as [|next later'].
  - simpl. by repeat constructor.
  - destruct (clustersByGap_head next later') as (run & runs & E).
    rewrite clustersByGap_step, E in *. apply Forall_cons in IH as [Hrun Hruns].
    destruct (gapExceeds task next) eqn:Hgap.
    + by repeat constructor.
    + constructor; [|done]. split; done.
Qed.

Lemma clustersByGap_farApart (tasks : list Task) :
  farApart (clustersByGap tasks).
Proof.
  induction tasks as [|task later IH]; [exact I|].
  destruct later as [|next later'].
  - exact I.
  - destruct (clustersByGap_head next later') as (run & runs & E).
    rewrite clustersByGap_step, E in *.
    destruct (gapExceeds task next) eqn:Hgap.
    + split; [|exact IH]. intros a b Ha Hb. simpl in Ha, Hb. by simplify_eq.
    + destruct runs as [|next_run runs']; [exact I|].
      destruct IH as [Hfar IH]. split; [|exact IH].
      intros a b Ha Hb. apply Hfar; [|exact Hb]. exact Ha.
Qed.

#[local] Arguments clustersByGap : simpl never.

(** One pass of the loop body with a cluster open. *)
Lemma clusterStep_open (task previous : Task) (closed : list (list Task))
    (current : list Task) :
  clusterStep task
    {| clusters := closed; currentCluster := Some current;
       previousTaskEndTime := task_end previous |}
  = Return
      (if gapExceeds previous task
       then {| clusters := closed ++ [current]; currentCluster := Some [task];
               previousTaskEndTime := task_end task |}
       else {| clusters := closed; currentCluster := Some (current ++ [task]);
               previousTaskEndTime := task_end task |}).
Proof.
  unfold clusterStep, gapExceeds, MIN_TASK_CLUSTER_PADDING. cbn [previousTaskEndTime].
  by destruct (1000 <? task_start task - task_end previous).
Qed.

(** The first pass: it opens a cluster, unless the task starts at
    [-Infinity], when [currentCluster] is still [null] at the push. *)
Lemma clusterStep_first (task : Task) :
  clusterStep task initialLoopState
  = if task_start task - neg_infinity >? 1000
    then Return {| clusters := []; currentCluster := Some [task];
                   previousTaskEndTime := task_end task |}
    else Throw TypeError.
Proof.
  unfold clusterStep, initialLoopState, MIN_TASK_CLUSTER_PADDING. cbn [previousTaskEndTime].
  by destruct (1000 <? task_start task - neg_infinity).
Qed.

(** What the loop leaves when it resumes with [current] open, [previous]
    being the last task pushed. *)
Lemma clusterLoop_resume (cwe : float) (remaining : list Task) :
  ∀ (closed : list (list Task)) (current : list Task) (previous : Task),
  ∃ st,
    clusterLoop cwe remaining
      {| clusters := closed; currentCluster := Some current;
         previousTaskEndTime := task_end previous |} = Return st
    ∧ pushCurrent st =
        closed ++
        match consideredTasks cwe remaining with
        | [] => [current]
        | next :: _ =>
            if gapExceeds previous next
            then current :: clustersByGap (consideredTasks cwe remaining)
            else match clustersByGap (consideredTasks cwe remaining) with
                 | run :: runs => (current ++ run) :: runs
                 | [] => [current]
                 end
        end.
Proof.
  induction remaining as [|task later IH]; intros closed current previous.
  - eexists. split; reflexivity.
  - cbn [clusterLoop consideredTasks].
    destruct (task_start task <? cwe) eqn:Hin; [|eexists; split; reflexivity].
    rewrite clusterStep_open. cbn [mbind Completion_bind].
    destruct (clustersByGap_head task (consideredTasks cwe later)) as (run & runs & E).
    destruct (gapExceeds previous task) eqn:Hgap.
    + destruct (IH (closed ++ [current]) [task] task) as (st & Hst & Hpush).
      exists st. split; [exact Hst|]. rewrite Hpush, <- app_assoc. f_equal. simpl.
      f_equal.
      destruct (consideredTasks cwe later) as [|next rest] eqn:Hc; [reflexivity|].
      rewrite clustersByGap_step.
      destruct (clustersByGap_head next rest) as (run' & runs' & E').
      rewrite E'. destruct (gapExceeds task next); reflexivity.
    + destruct (IH closed (current ++ [task]) task) as (st & Hst & Hpush).
      exists st. split; [exact Hst|]. rewrite Hpush. f_equal.
      destruct (consideredTasks cwe later) as [|next rest] eqn:Hc.
      * reflexivity.
      * rewrite clustersByGap_step.
        destruct (clustersByGap_head next rest) as (run' & runs' & E').
        rewrite E'. destruct (gapExceeds task next); simpl; rewrite <- ?app_assoc; reflexivity.
Qed.

(** The loop from its initial state: when the first task it goes through
    starts at [-Infinity] it pushes onto [null]; otherwise it leaves the runs
    of the tasks it went through. *)
Lemma clusterLoop_runs (cwe : float) (remaining : list Task) :
  match head (consideredTasks cwe remaining) with
  | Some task =>
      if decide (task_start task = neg_infinity)
      then clusterLoop cwe remaining initialLoopState = Throw TypeError
      else ∃ st,
             clusterLoop cwe remaining initialLoopState = Return st
             ∧ pushCurrent st = clustersByGap (consideredTasks cwe remaining)
  | None => clusterLoop cwe remaining initialLoopState = Return initialLoopState
  end.
Proof.
  destruct remaining as [|task later]; [reflexivity|].
  cbn [clusterLoop consideredTasks].
  destruct (task_start task <? cwe) eqn:Hin; [|reflexivity].
  cbn [head]. rewrite clusterStep_first.
  apply ltb_not_nan in Hin as [Hnan _].
  destruct (decide (task_start task = neg_infinity)) as [Hinf|Hinf].
  - assert ((task_start task - neg_infinity >? 1000) = false) as ->; [|reflexivity].
    destruct (task_start task - neg_infinity >? 1000) eqn:E; [|reflexivity].
    apply above_neg_infinity in E as [_ E]. done.
  - assert ((task_start task - neg_infinity >? 1000) = true) as ->
      by (by apply above_neg_infinity).
    cbn [mbind Completion_bind].
    destruct (clusterLoop_resume cwe later [] [task] task) as (st & Hst & Hpush).
    exists st. split; [exact Hst|]. rewrite Hpush. simpl.
    destruct (consideredTasks cwe later) as [|next rest] eqn:Hc; [reflexivity|].
    rewrite clustersByGap_step.
    destruct (clustersByGap_head next rest) as (run' & runs' & E').
    rewrite E'. destruct (gapExceeds task next); reflexivity.
Qed.

(** [.map] over non-empty clusters never reads [undefined]. *)
Lemma describeCluster_not_nil (run : list Task) :
  run ≠ [] → ∃ cluster, describeCluster run = Return cluster ∧ describes run cluster.
Proof.
  intros Hrun. destruct run as [|first run']; [done|].
  unfold describeCluster, describes.
  destruct (last (first :: run')) as [final|] eqn:Hlast.
  - eexists. split; [reflexivity|]. exists first, final. by repeat split.
  - apply last_None in Hlast. discriminate.
Qed.

Lemma describeCluster_all (runs : list (list Task)) :
  Forall (λ run, run ≠ []) runs →
  ∃ described,
    mapM describeCluster runs = Return described ∧ Forall2 describes runs described.
Proof.
  induction 1 as [|run runs Hrun _ (described & Hmap & Hall)].
  - exists []. split; [reflexivity | constructor].
  - destruct (describeCluster_not_nil run Hrun) as (cluster & Hc & Hd).
    exists (cluster :: described). simpl mapM. rewrite Hc, Hmap.
    split; [reflexivity | by constructor].
Qed.

(** [getTaskClustersInWindow] throws when the first task it goes through
    starts at [-Infinity]. *)
Lemma getTaskClustersInWindow_throws (tasks : list Task) (startIndex : nat)
    (windowEnd : float) (task : Task) :
  firstConsidered tasks startIndex windowEnd = Some task →
  task_start task = neg_infinity →
  getTaskClustersInWindow tasks startIndex windowEnd = Throw TypeError.
Proof.
  unfold firstConsidered. intros Hfirst Hinf.
  unfold getTaskClustersInWindow, MIN_TASK_CLUSTER_PADDING.
  pose proof (clusterLoop_runs (windowEnd + 1000) (drop startIndex tasks)) as Hloop.
  rewrite Hfirst in Hloop. destruct (decide _); [|done]. by rewrite Hloop.
Qed.

(** Otherwise it returns: the runs of the tasks considered, each described,
    those for which [cluster.start < windowEnd] is false dropped. *)
Lemma getTaskClustersInWindow_runs (tasks : list Task) (startIndex : nat)
    (windowEnd : float) :
  (∀ task, firstConsidered tasks startIndex windowEnd = Some task →
           task_start task ≠ neg_infinity) →
  ∃ described,
    Forall2 describes
      (clustersByGap (consideredTasks (windowEnd + 1000) (drop startIndex tasks)))
      described
    ∧ getTaskClustersInWindow tasks startIndex windowEnd
      = Return (List.filter (λ cluster, cluster_start cluster <? windowEnd) described).
Proof.
  unfold firstConsidered. intros Hfirst.
  unfold getTaskClustersInWindow, MIN_TASK_CLUSTER_PADDING.
  pose proof (clusterLoop_runs (windowEnd + 1000) (drop startIndex tasks)) as Hloop.
  destruct (head (consideredTasks (windowEnd + 1000) (drop startIndex tasks)))
    as [task|] eqn:Hhead.
  - destruct (decide _) as [Hinf|_]; [by destruct (Hfirst task)|].
    destruct Hloop as (st & -> & Hpush).
    destruct (describeCluster_all (pushCurrent st)) as (described & Hmap & Hall).
    { rewrite Hpush. apply clustersByGap_runs_not_nil. }
    exists described. split; [by rewrite <- Hpush|].
    cbn [mbind Completion_bind]. rewrite Hmap. reflexivity.
  - rewrite Hloop. apply head_None in Hhead. rewrite Hhead.
    exists []. split; [constructor | reflexivity].
Qed.

Lemma startsBounded_first (tasks : list Task) (startIndex : nat) (windowEnd : float)
    (task : Task) :
  startsBounded tasks →
  firstConsidered tasks startIndex windowEnd = Some task →
  task_start task ≠ neg_infinity.
Proof.
  unfold startsBounded, firstConsidered. intros Hall Hfirst.
  rewrite Forall_forall in Hall. apply Hall.
  apply (subseteq_drop startIndex tasks).
  generalize dependent (drop startIndex tasks). intros remaining Hfirst.
  destruct remaining as [|first later]; [discriminate|].
  cbn [consideredTasks] in Hfirst.
  destruct (task_start first <? windowEnd + 1000); [|discriminate].
  injection Hfirst as ->. by left.
Qed.

(** In a sorted list every later task starts no earlier than the first. *)
Lemma sorted_starts_after (task : Task) (later : list Task) :
  sortedNonOverlapping (task :: later) →
  Forall (λ u, (task_start task <=? task_start u) = true) later.
Proof.
  revert task. induction later as [|next later IH]; intros task [Hwf Hsorted]; [constructor|].
  apply Forall_cons in Hwf as [Htask Hwf].
  apply Sorted_inv in Hsorted as [Hsorted Hhd].
  apply HdRel_inv in Hhd. unfold precedes in Hhd.
  assert (Hle : (task_start task <=? task_start next) = true)
    by (eapply leb_trans; eassumption).
  constructor; [exact Hle|].
  eapply Forall_impl; [apply (IH next); split; assumption|].
  simpl. intros u Hu. eapply leb_trans; eassumption.
Qed.

Lemma sorted_tail (task : Task) (later : list Task) :
  sortedNonOverlapping (task :: later) → sortedNonOverlapping later.
Proof.
  intros [Hwf Hsorted]. apply Forall_cons in Hwf as [_ Hwf].
  apply Sorted_inv in Hsorted as [Hsorted _]. by split.
Qed.

Lemma sorted_drop (n : nat) (tasks : list Task) :
  sortedNonOverlapping tasks → sortedNonOverlapping (drop n tasks).
Proof.
  revert tasks. induction n as [|n IH]; intros [|task later] H; try done.
  simpl. apply IH. by eapply sorted_tail.
Qed.

(** On a sorted list the loop's stopping rule selects exactly the tasks that
    start before the bound. *)
Lemma consideredTasks_sorted (cwe : float) (tasks : list Task) :
  sortedNonOverlapping tasks →
  consideredTasks cwe tasks = List.filter (λ t, task_start t <? cwe) tasks.
Proof.
  induction tasks as [|task later IH]; intros Hs; [reflexivity|].
  cbn [consideredTasks List.filter]. destruct (task_start task <? cwe) eqn:Hin.
  - f_equal. apply IH. by eapply sorted_tail.
  - pose proof (sorted_starts_after task later Hs) as Hafter.
    clear IH Hs. induction Hafter as [|u rest Hu _ IHrest]; [reflexivity|].
    cbn [List.filter]. destruct (task_start u <? cwe) eqn:Hu'; [|exact IHrest].
    pose proof (leb_ltb_trans _ _ _ Hu Hu'). congruence.
Qed.

End ClusteringFacts.

(** ** [getTaskClustersInWindow] *)

Module TaskClusters.
Import FirstInteractive Clustering ClusteringFacts FloatFacts.
Local Open Scope float_scope.

(** Two tasks that the loop goes through: one cluster when the gap is not
    above 1000 ms, two when it is. *)
Lemma getTaskClustersInWindow_pair (first second : Task) (windowEnd : float) :
  task_start first ≠ neg_infinity →
  (task_start first <? windowEnd + 1000) = true →
  (task_start second <? windowEnd + 1000) = true →
  getTaskClustersInWindow [first; second] 0 windowEnd =
    Return (List.filter (λ cluster, cluster_start cluster <? windowEnd)
              (if gapExceeds first second
               then [clusterOfOne first; clusterOfOne second]
               else [clusterOfTwo first second])).
Proof.
  intros Hinf H1 H2.
  unfold getTaskClustersInWindow, MIN_TASK_CLUSTER_PADDING.
  cbn [drop clusterLoop]. rewrite H1, clusterStep_first.
  assert ((task_start first - neg_infinity >? 1000) = true) as ->.
  { apply above_neg_infinity. split; [|exact Hinf]. by apply ltb_not_nan in H1 as [? _]. }
  cbn [mbind Completion_bind]. rewrite H2, clusterStep_open.
  cbn [mbind Completion_bind].
  destruct (gapExceeds first second); reflexivity.
Qed.

(** C4: on a sorted, non-overlapping task list without a start at
    [-Infinity], [getTaskClustersInWindow] returns (it does not throw); the
    tasks it groups are exactly those from [startIndex] on that start before
    [windowEnd + 1000]; they are cut into consecutive non-empty clusters, a
    new one exactly where a task's start minus the previous task's end is
    above 1000; each cluster is described by the start of its first task, the
    end of its last and their difference; and the clusters for which
    [start < windowEnd] is false are dropped.  Two tasks that start inside the
    window form one cluster when their gap is not above 1000 ms and two
    clusters when it is.  All sums, differences and comparisons are those of
    doubles, as the code computes them. *)
Theorem getTaskClustersInWindow_spec :
  (∀ (tasks : list Task) (startIndex : nat) (windowEnd : float),
     sortedNonOverlapping tasks → startsBounded tasks →
     ∃ runs described,
       concat runs
       = List.filter (λ t, task_start t <? windowEnd + 1000) (drop startIndex tasks)
       ∧ Forall (λ run, run ≠ []) runs
       ∧ Forall closeKnit runs
       ∧ farApart runs
       ∧ Forall2 describes runs described
       ∧ getTaskClustersInWindow tasks startIndex windowEnd
         = Return (List.filter (λ cluster, cluster_start cluster <? windowEnd) described))
  ∧ (∀ (first second : Task) (windowEnd : float),
       task_start first ≠ neg_infinity →
       startsInWindow windowEnd first → startsInWindow windowEnd second →
       (gapExceeds first second = false →
        getTaskClustersInWindow [first; second] 0 windowEnd
        = Return [clusterOfTwo first second])
       ∧ (gapExceeds first second = true →
          getTaskClustersInWindow [first; second] 0 windowEnd
          = Return [clusterOfOne first; clusterOfOne second])).
Proof.
  split.
  - intros tasks startIndex windowEnd Hsorted Hbounded.
    destruct (getTaskClustersInWindow_runs tasks startIndex windowEnd)
      as (described & Hdescribed & Hresult).
    { intros task. by apply startsBounded_first. }
    exists (clustersByGap (consideredTasks (windowEnd + 1000) (drop startIndex tasks))),
      described.
    split.
    { rewrite clustersByGap_concat. apply consideredTasks_sorted.
      by apply sorted_drop. }
    split; [apply clustersByGap_runs_not_nil|].
    split; [apply clustersByGap_closeKnit|].
    split; [apply clustersByGap_farApart|].
    split; [exact Hdescribed | exact Hresult].
  - intros first second windowEnd Hinf [H1 H1'] [H2 H2'].
    rewrite (getTaskClustersInWindow_pair first second windowEnd Hinf H1' H2').
    split; intros ->; cbn [List.filter clusterOfOne clusterOfTwo cluster_start];
      by rewrite ?H1, ?H2.
Qed.

Lemma getTaskClustersInWindow_spec_witness :
  ∃ runs described,
    concat runs
    = List.filter (λ t, task_start t <? 5000 + 1000)
        (drop 1 [mkTask 0 100; mkTask 600 700; mkTask 900 950; mkTask 3000 3100])
    ∧ Forall (λ run, run ≠ []) runs
    ∧ Forall closeKnit runs
    ∧ farApart runs
    ∧ Forall2 describes runs described
    ∧ getTaskClustersInWindow
        [mkTask 0 100; mkTask 600 700; mkTask 900 950; mkTask 3000 3100] 1 5000
      = Return (List.filter (λ cluster, cluster_start cluster <? 5000) described).
Proof.
  apply (proj1 getTaskClustersInWindow_spec
           [mkTask 0 100; mkTask 600 700; mkTask 900 950; mkTask 3000 3100] 1%nat 5000).
  - split; repeat constructor.
  - repeat constructor; discriminate.
Defined.

End TaskClusters.

(** ** [findQuietWindow] *)

Module QuietWindow.
Import FirstInteractive Clustering ClusteringFacts Candidates FloatFacts.
Local Open Scope float_scope.

Section MathExp.
Variable Math_exp : float → float.

(** C2: when there is no long task, or the first long task's start is above
    the double [FMP + 5000], [findQuietWindow] returns FMP, whatever the
    trace end and the later tasks are. *)
Theorem findQuietWindow_quiet_from_FMP (FMP traceEnd : float) (longTasks : list Task) :
  (longTasks = []
   ∨ ∃ first later, longTasks = first :: later
                    ∧ (task_start first >? FMP + 5000) = true) →
  findQuietWindow Math_exp FMP traceEnd longTasks = Return FMP.
Proof.
  intros [-> | (first & later & -> & Hfirst)]; unfold findQuietWindow; simpl.
  - reflexivity.
  - unfold MAX_QUIET_WINDOW_SIZE. by rewrite Hfirst.
Qed.

Lemma isBadCluster_true (FMP : float) (cluster : Cluster) :
  isBadCluster FMP cluster = true
  ↔ (cluster_start cluster <? FMP + 5000) = true
    ∨ (cluster_duration cluster >? 250) = true.
Proof.
  unfold isBadCluster, isTooCloseToFMP, isTooLong,
    MIN_TASK_CLUSTER_FMP_DISTANCE, MAX_TASK_CLUSTER_DURATION.
  by rewrite orb_true_iff.
Qed.

Lemma isBadCluster_false (FMP : float) (cluster : Cluster) :
  isBadCluster FMP cluster = false
  ↔ (cluster_start cluster <? FMP + 5000) = false
    ∧ (cluster_duration cluster >? 250) = false.
Proof.
  unfold isBadCluster, isTooCloseToFMP, isTooLong,
    MIN_TASK_CLUSTER_FMP_DISTANCE, MAX_TASK_CLUSTER_DURATION.
  by rewrite orb_false_iff.
Qed.

(** [taskClusters.find(isBadCluster)] finds nothing exactly when no cluster
    is bad. *)
Lemma find_bad_None (FMP : float) (taskClusters : list Cluster) :
  List.find (isBadCluster FMP) taskClusters = None
  ↔ Forall (λ cluster, isBadCluster FMP cluster = false) taskClusters.
Proof.
  induction taskClusters as [|cluster rest IH]; simpl.
  - split; [constructor | reflexivity].
  - destruct (isBadCluster FMP cluster) eqn:E.
    + split; [discriminate|]. intros H. apply Forall_cons in H as [H _]. congruence.
    + rewrite IH, Forall_cons. tauto.
Qed.

Lemma find_bad_Some (FMP : float) (taskClusters : list Cluster) :
  (∃ cluster, List.find (isBadCluster FMP) taskClusters = Some cluster)
  ↔ Exists (λ cluster, isBadCluster FMP cluster = true) taskClusters.
Proof.
  induction taskClusters as [|cluster rest IH]; simpl.
  - split; [intros [? ?]; discriminate | intros H; inversion H].
  - destruct (isBadCluster FMP cluster) eqn:E.
    + split; [intros _; by left | intros _; eauto].
    + rewrite IH, Exists_cons. split; [tauto|]. intros [H|H]; [congruence | exact H].
Qed.

(** One pass of the [for] loop of [findQuietWindow] whose window fits into
    the trace. *)
Lemma quietWindowLoop_candidate (FMP traceEnd : float) (longTasks : list Task)
    (event : Task) (later : list Task) (i : nat) (taskClusters : list Cluster) :
  (windowEndAfter Math_exp FMP event >? traceEnd) = false →
  getTaskClustersInWindow longTasks (i + 1) (windowEndAfter Math_exp FMP event)
    = Return taskClusters →
  (Forall (λ cluster, isBadCluster FMP cluster = false) taskClusters →
   quietWindowLoop Math_exp FMP traceEnd longTasks (event :: later) i
   = Return (task_end event))
  ∧ (Exists (λ cluster, isBadCluster FMP cluster = true) taskClusters →
     quietWindowLoop Math_exp FMP traceEnd longTasks (event :: later) i
     = quietWindowLoop Math_exp FMP traceEnd longTasks later (S i)).
Proof.
  intros Hfits Hclusters. cbn [quietWindowLoop].
  fold (windowEndAfter Math_exp FMP event).
  rewrite Hfits, Hclusters. cbn [mbind Completion_bind].
  split.
  - intros Hnone. apply find_bad_None in Hnone. by rewrite Hnone.
  - intros Hsome. apply find_bad_Some in Hsome as [cluster Hfind]. by rewrite Hfind.
Qed.

(** A pass whose window runs past the end of the trace throws at once. *)
Lemma quietWindowLoop_too_short (FMP traceEnd : float) (longTasks : list Task)
    (event : Task) (later : list Task) (i : nat) :
  (windowEndAfter Math_exp FMP event >? traceEnd) = true →
  quietWindowLoop Math_exp FMP traceEnd longTasks (event :: later) i
  = Throw (Error TRACE_BUSY_MSG).
Proof.
  intros Hshort. cbn [quietWindowLoop]. fold (windowEndAfter Math_exp FMP event).
  by rewrite Hshort.
Qed.

(** The clusters of a window that has a single task after the candidate. *)
Lemma getTaskClustersInWindow_single (tasks : list Task) (startIndex : nat)
    (task : Task) (windowEnd : float) :
  drop startIndex tasks = [task] → task_start task ≠ neg_infinity →
  startsInWindow windowEnd task →
  getTaskClustersInWindow tasks startIndex windowEnd = Return [clusterOfOne task].
Proof.
  intros Hdrop Hinf [Hin Hlook]. unfold getTaskClustersInWindow, MIN_TASK_CLUSTER_PADDING.
  rewrite Hdrop. cbn [clusterLoop]. rewrite Hlook, clusterStep_first.
  assert ((task_start task - neg_infinity >? 1000) = true) as ->.
  { apply above_neg_infinity. split; [|exact Hinf]. by apply ltb_not_nan in Hin as [? _]. }
  cbn. by rewrite Hin.
Qed.

(** C3: a cluster is bad exactly when its start is below the double
    [FMP + 5000] or its duration is above 250; a candidate whose window fits
    into the trace is returned exactly when none of the clusters of its
    window is bad, and is passed over for the next candidate when one is.  So
    a cluster that starts before [FMP + 5000] is bad even with duration 0,
    and when a single task follows the candidate, starting after
    [FMP + 5000] and inside the window, a duration [end - start] of 251 makes
    the window fail while 250 does not. *)
Theorem bad_cluster_spec :
  (∀ (FMP : float) (cluster : Cluster),
     isBadCluster FMP cluster = true
     ↔ (cluster_start cluster <? FMP + 5000) = true
       ∨ (cluster_duration cluster >? 250) = true)
  ∧ (∀ (FMP traceEnd : float) (longTasks : list Task) (event : Task)
       (later : list Task) (i : nat) (taskClusters : list Cluster),
       (windowEndAfter Math_exp FMP event >? traceEnd) = false →
       getTaskClustersInWindow longTasks (i + 1) (windowEndAfter Math_exp FMP event)
         = Return taskClusters →
       (Forall (λ cluster, isBadCluster FMP cluster = false) taskClusters →
        quietWindowLoop Math_exp FMP traceEnd longTasks (event :: later) i
        = Return (task_end event))
       ∧ (Exists (λ cluster, isBadCluster FMP cluster = true) taskClusters →
          quietWindowLoop Math_exp FMP traceEnd longTasks (event :: later) i
          = quietWindowLoop Math_exp FMP traceEnd longTasks later (S i)))
  ∧ (∀ (FMP : float) (cluster : Cluster),
       (cluster_start cluster <? FMP + 5000) = true → cluster_duration cluster = 0 →
       isBadCluster FMP cluster = true)
  ∧ (∀ (FMP traceEnd : float) (longTasks : list Task) (event : Task)
       (later : list Task) (i : nat) (task : Task),
       (windowEndAfter Math_exp FMP event >? traceEnd) = false →
       drop (i + 1) longTasks = [task] →
       (task_start task >? FMP + 5000) = true →
       startsInWindow (windowEndAfter Math_exp FMP event) task →
       (task_end task - task_start task = 251 →
        quietWindowLoop Math_exp FMP traceEnd longTasks (event :: later) i
        = quietWindowLoop Math_exp FMP traceEnd longTasks later (S i))
       ∧ (task_end task - task_start task = 250 →
          quietWindowLoop Math_exp FMP traceEnd longTasks (event :: later) i
          = Return (task_end event))).
Proof.
  split; [exact isBadCluster_true|].
  split; [exact quietWindowLoop_candidate|].
  split.
  { intros FMP cluster Hstart _. apply isBadCluster_true. by left. }
  intros FMP traceEnd longTasks event later i task Hfits Hdrop Hfar Hin.
  assert (Hinf : task_start task ≠ neg_infinity).
  { intros Heq. rewrite Heq in Hfar. by rewrite ltb_neg_infinity in Hfar. }
  pose proof (getTaskClustersInWindow_single longTasks (i + 1) task
                (windowEndAfter Math_exp FMP event) Hdrop Hinf Hin) as Hclusters.
  destruct (quietWindowLoop_candidate FMP traceEnd longTasks event later i
              [clusterOfOne task] Hfits Hclusters) as [Hgood Hbad].
  split; intros Hduration.
  - apply Hbad. left. apply isBadCluster_true. right. simpl. by rewrite Hduration.
  - apply Hgood. repeat constructor. apply isBadCluster_false. simpl.
    rewrite Hduration. split; [by apply ltb_asym | reflexivity].
Qed.

Lemma lookup_of_drop (longTasks : list Task) (i : nat) (event : Task) (later : list Task) :
  drop i longTasks = event :: later →
  longTasks !! i = Some event ∧ drop (S i) longTasks = later.
Proof.
  intros Hdrop. split.
  - pose proof (lookup_drop longTasks i 0) as H. rewrite Hdrop in H.
    simpl in H. by rewrite Nat.add_0_r in H.
  - replace (S i) with (i + 1)%nat by lia. rewrite <- drop_drop, Hdrop. reflexivity.
Qed.

(** How the search ends when it has got as far as candidate [i]. *)
Lemma quietWindowLoop_outcome (FMP traceEnd : float) (longTasks : list Task) :
  startsBounded longTasks →
  ∀ (remaining : list Task) (i : nat),
    drop i longTasks = remaining →
    examined Math_exp FMP traceEnd longTasks i →
    (quietWindowLoop Math_exp FMP traceEnd longTasks remaining i
     = Throw (Error TRACE_BUSY_MSG)
     ∧ ((∃ k, examined Math_exp FMP traceEnd longTasks k
              ∧ tooShortAt Math_exp FMP traceEnd longTasks k)
        ∨ (∀ k, (k < length longTasks)%nat → badAt Math_exp FMP longTasks k)))
    ∨ (∃ k event,
         longTasks !! k = Some event
         ∧ examined Math_exp FMP traceEnd longTasks k
         ∧ ¬ tooShortAt Math_exp FMP traceEnd longTasks k
         ∧ ¬ badAt Math_exp FMP longTasks k
         ∧ quietWindowLoop Math_exp FMP traceEnd longTasks remaining i
           = Return (task_end event)).
Proof.
  intros Hbounded.
  induction remaining as [|event later IH]; intros i Hdrop Hexamined.
  - left. split; [reflexivity|]. right. intros k Hk. apply Hexamined.
    apply drop_nil_inv in Hdrop. lia.
  - apply lookup_of_drop in Hdrop as [Hlookup Hdrop].
    destruct (windowEndAfter Math_exp FMP event >? traceEnd) eqn:Hfits.
    { left. split; [by apply quietWindowLoop_too_short|].
      left. exists i. split; [exact Hexamined|]. by exists event. }
    assert (Hnot_short : ¬ tooShortAt Math_exp FMP traceEnd longTasks i).
    { intros (event' & Hlookup' & Hshort). congruence. }
    destruct (getTaskClustersInWindow_runs longTasks (i + 1)
                (windowEndAfter Math_exp FMP event))
      as (described & _ & Hclusters).
    { intros task. by apply startsBounded_first. }
    destruct (quietWindowLoop_candidate FMP traceEnd longTasks event later i _
                Hfits Hclusters) as [Hgood Hbad].
    destruct (List.find (isBadCluster FMP)
                (List.filter
                   (λ cluster, cluster_start cluster <? windowEndAfter Math_exp FMP event)
                   described)) as [cluster|] eqn:Hfind.
    + assert (Hexists : Exists (λ cluster, isBadCluster FMP cluster = true)
                (List.filter
                   (λ cluster, cluster_start cluster <? windowEndAfter Math_exp FMP event)
                   described)) by (apply find_bad_Some; eauto).
      rewrite (Hbad Hexists).
      assert (Hbad_i : badAt Math_exp FMP longTasks i).
      { apply Exists_exists in Hexists as (bad & Hbad_in & Hbad_true).
        eexists event, _, bad. repeat split; [exact Hlookup | exact Hclusters | | ]; done. }
      apply IH; [exact Hdrop|].
      intros j Hj. destruct (decide (j = i)) as [->|Hne]; [by split|].
      apply Hexamined. lia.
    + apply find_bad_None in Hfind. right. exists i, event.
      split; [exact Hlookup|]. split; [exact Hexamined|].
      split; [exact Hnot_short|]. split; [|by apply Hgood].
      intros (event' & clusters' & bad & Hlookup' & Hclusters' & Hbad_in & Hbad_true).
      assert (event' = event) as -> by congruence.
      rewrite Hclusters in Hclusters'. injection Hclusters' as <-.
      rewrite Forall_forall in Hfind. specialize (Hfind bad Hbad_in). congruence.
Qed.

(** C5: when the first long task's start is not above the double
    [FMP + 5000] (and no long task starts at [-Infinity]), the search goes
    through the candidates in long-task order, each window starting at its
    long task's end.  It throws "trace was busy the entire time" exactly
    when either a candidate it gets to has a window end
    [windowStart + windowSize(windowStart - FMP)] above [traceEnd], or every
    candidate's window contains a bad cluster; otherwise it returns the end
    of the earliest long task whose window contains no bad cluster.  A window
    that ends after the trace fails the search on the spot, whatever
    candidates remain. *)
Theorem findQuietWindow_search (FMP traceEnd : float) (longTasks : list Task) :
  (∃ first later, longTasks = first :: later
                  ∧ (task_start first >? FMP + 5000) = false) →
  startsBounded longTasks →
  (findQuietWindow Math_exp FMP traceEnd longTasks = Throw (Error TRACE_BUSY_MSG)
   ↔ (∃ i, examined Math_exp FMP traceEnd longTasks i
           ∧ tooShortAt Math_exp FMP traceEnd longTasks i)
     ∨ (∀ i, (i < length longTasks)%nat → badAt Math_exp FMP longTasks i))
  ∧ (¬ ((∃ i, examined Math_exp FMP traceEnd longTasks i
              ∧ tooShortAt Math_exp FMP traceEnd longTasks i)
        ∨ (∀ i, (i < length longTasks)%nat → badAt Math_exp FMP longTasks i)) →
     ∃ i event,
       longTasks !! i = Some event
       ∧ ¬ badAt Math_exp FMP longTasks i
       ∧ (∀ j, (j < i)%nat → badAt Math_exp FMP longTasks j)
       ∧ findQuietWindow Math_exp FMP traceEnd longTasks = Return (task_end event))
  ∧ (∀ (event : Task) (later : list Task) (i : nat),
       (windowEndAfter Math_exp FMP event >? traceEnd) = true →
       quietWindowLoop Math_exp FMP traceEnd longTasks (event :: later) i
       = Throw (Error TRACE_BUSY_MSG)).
Proof.
  intros (first & later & -> & Hclose) Hbounded.
  set (longTasks := first :: later) in *.
  assert (Hloop : findQuietWindow Math_exp FMP traceEnd longTasks
                  = quietWindowLoop Math_exp FMP traceEnd longTasks longTasks 0).
  { unfold findQuietWindow, longTasks, quietFromFMP, MAX_QUIET_WINDOW_SIZE.
    by rewrite Hclose. }
  rewrite Hloop.
  assert (Hstart : examined Math_exp FMP traceEnd longTasks 0) by (intros j Hj; lia).
  destruct (quietWindowLoop_outcome FMP traceEnd longTasks Hbounded longTasks 0
              eq_refl Hstart)
    as [[Hthrow Hbusy] | (k & event & Hlookup & Hexamined & Hfits & Hgood & Hreturn)].
  - split; [by rewrite Hthrow|]. split; [intros Hnot; by destruct Hnot|].
    intros event later' i. apply quietWindowLoop_too_short.
  - assert (Hnot_busy :
      ¬ ((∃ i, examined Math_exp FMP traceEnd longTasks i
               ∧ tooShortAt Math_exp FMP traceEnd longTasks i)
         ∨ (∀ i, (i < length longTasks)%nat → badAt Math_exp FMP longTasks i))).
    { intros [(k' & Hexamined' & Hshort') | Hall].
      - destruct (lt_eq_lt_dec k' k) as [[Hlt | ->] | Hgt].
        + by apply (Hexamined k' Hlt).
        + by apply Hfits.
        + by apply Hgood, (Hexamined' k Hgt).
      - apply Hgood, Hall. by eapply lookup_lt_Some. }
    split; [rewrite Hreturn; split; [discriminate | intros H; by destruct Hnot_busy]|].
    split; [|intros event' later' i; apply quietWindowLoop_too_short].
    intros _. exists k, event. split; [exact Hlookup|]. split; [exact Hgood|].
    split; [|exact Hreturn]. intros j Hj. by apply (Hexamined j Hj).
Qed.

End MathExp.

Lemma findQuietWindow_quiet_from_FMP_witness :
  findQuietWindow Ieee754.ieee754_exp 1000 10000 [mkTask 7000 7100; mkTask 7200 9000]
  = Return 1000.
Proof.
  apply findQuietWindow_quiet_from_FMP. right.
  exists (mkTask 7000 7100), [mkTask 7200 9000]. split; reflexivity.
Defined.

Lemma bad_cluster_spec_witness :
  quietWindowLoop Ieee754.ieee754_exp 0 20000 [mkTask 0 5900; mkTask 6000 6251]
    [mkTask 0 5900; mkTask 6000 6251] 0
  = quietWindowLoop Ieee754.ieee754_exp 0 20000 [mkTask 0 5900; mkTask 6000 6251]
      [mkTask 6000 6251] 1
  ∧ quietWindowLoop Ieee754.ieee754_exp 0 20000 [mkTask 0 5900; mkTask 6000 6250]
      [mkTask 0 5900; mkTask 6000 6250] 0
    = Return 5900.
Proof.
  destruct (bad_cluster_spec Ieee754.ieee754_exp) as (_ & _ & _ & Hsingle).
  split.
  - apply (Hsingle 0 20000 [mkTask 0 5900; mkTask 6000 6251] (mkTask 0 5900)
             [mkTask 6000 6251] 0%nat (mkTask 6000 6251));
      [vm_compute; reflexivity | reflexivity | reflexivity
      | split; vm_compute; reflexivity | reflexivity].
  - apply (Hsingle 0 20000 [mkTask 0 5900; mkTask 6000 6250] (mkTask 0 5900)
             [mkTask 6000 6250] 0%nat (mkTask 6000 6250));
      [vm_compute; reflexivity | reflexivity | reflexivity
      | split; vm_compute; reflexivity | reflexivity].
Defined.

Lemma findQuietWindow_search_witness :
  (findQuietWindow Ieee754.ieee754_exp 0 20000 [mkTask 0 5900; mkTask 6000 6251]
   = Throw (Error TRACE_BUSY_MSG)
   ↔ (∃ i, examined Ieee754.ieee754_exp 0 20000 [mkTask 0 5900; mkTask 6000 6251] i
           ∧ tooShortAt Ieee754.ieee754_exp 0 20000 [mkTask 0 5900; mkTask 6000 6251] i)
     ∨ (∀ i, (i < 2)%nat → badAt Ieee754.ieee754_exp 0 [mkTask 0 5900; mkTask 6000 6251] i)).
Proof.
  apply (findQuietWindow_search Ieee754.ieee754_exp 0 20000
           [mkTask 0 5900; mkTask 6000 6251]).
  - exists (mkTask 0 5900), [mkTask 6000 6251]. split; reflexivity.
  - repeat constructor; discriminate.
Defined.

End QuietWindow.

(** ** [computeWithArtifacts] *)

Module TopLevel.
Import FirstInteractive FloatFacts.
Local Open Scope float_scope.

Section ComputeWithArtifacts.
Variable Math_exp : float → float.
Context {Trace TraceModel : Type}.
Variable getMainThreadTopLevelEvents :
  TraceModel → Trace → float → Completion (list Task).




End ComputeWithArtifacts.


End TopLevel.

(** ** [arithmeticMean] *)

Module Mean.
Import ReportGeneratorV2 Scoring FloatFacts.
Local Open Scope float_scope.


(** The sums of the [reduce] never become [-0]: they start at [+0], and a
    sum is [-0] only when both summands are. *)
Lemma accumulate_tidy (result : Totals) (item : Item) :
  tidy result → tidy (accumulate result item).
Proof.
  intros [Hw Hs]. split; cbn [accumulate total_weight total_sum]; intros H;
    apply add_neg_zero_inv in H as [H _]; done.
Qed.

Lemma reduce_tidy (items : list Item) :
  ∀ result, tidy result → tidy (fold_left accumulate items result).
Proof.
  induction items as [|item items IH]; intros result Hresult; [exact Hresult|].
  apply IH. by apply accumulate_tidy.
Qed.

Lemma tidy_start : tidy {| total_weight := 0; total_sum := 0 |}.
Proof. split; intros H; apply (f_equal get_sign) in H; discriminate. Qed.

(** One step of the [reduce] on an item with a numeric score and weight:
    the defaulting [|| 0] changes neither sum. *)
Lemma accumulate_numeric (result : Totals) (sw : float * float) :
  is_nan sw.1 = false → is_nan sw.2 = false → tidy result →
  accumulate result (numericItem sw)
  = {| total_weight := total_weight result + sw.2;
       total_sum := total_sum result + sw.1 * sw.2 |}.
Proof.
  intros Hs Hw [HW HS]. unfold accumulate, numericItem. cbn [score weight optional Number].
  f_equal.
  - apply add_sameUpToZero; [exact HW|]. by apply orZero_same.
  - apply add_sameUpToZero; [exact HS|].
    apply mul_sameUpToZero; by apply orZero_same.
Qed.

(** The [reduce] over items with numeric scores and weights. *)
Lemma reduce_numeric (items : list (float * float)) :
  Forall (λ sw, is_nan sw.1 = false ∧ is_nan sw.2 = false) items →
  ∀ result, tidy result →
    fold_left accumulate (map numericItem items) result
    = {| total_weight := fold_left (λ acc sw, acc + sw.2) items (total_weight result);
         total_sum := fold_left (λ acc sw, acc + sw.1 * sw.2) items (total_sum result) |}.
Proof.
  induction 1 as [|sw items [Hs Hw] _ IH]; intros result Hresult.
  - by destruct result.
  - cbn [map fold_left]. rewrite IH by (by apply accumulate_tidy).
    by rewrite (accumulate_numeric result sw Hs Hw Hresult).
Qed.

Lemma arithmeticMean_numeric (items : list (float * float)) :
  Forall (λ sw, is_nan sw.1 = false ∧ is_nan sw.2 = false) items →
  arithmeticMean (map numericItem items)
  = orZero (weightedSum items / totalWeight items).
Proof.
  intros Hall. unfold arithmeticMean.
  by rewrite (reduce_numeric items Hall _ tidy_start).
Qed.

(** Weights that are not negative keep their running total not negative,
    and add up to a zero only when each of them is a zero. *)
Lemma totalWeight_zero (items : list (float * float)) :
  Forall (λ sw, (0 <=? sw.2) = true) items →
  ∀ acc, (0 <=? acc) = true →
    is_zero (fold_left (λ acc sw, acc + sw.2) items acc) = true →
    is_zero acc = true ∧ Forall (λ sw, is_zero sw.2 = true) items.
Proof.
  induction 1 as [|sw items Hw _ IH]; intros acc Hacc Hzero; [by split|].
  cbn [fold_left] in Hzero.
  destruct (nonneg_add acc sw.2 Hacc Hw) as [Hsum Hboth].
  destruct (IH _ Hsum Hzero) as [Hz Hrest].
  destruct (Hboth Hz) as [Ha Hb]. split; [exact Ha | by constructor].
Qed.

(** With zero weights only, the weighted sum is a zero or [NaN]. *)
Lemma weightedSum_zero (items : list (float * float)) :
  Forall (λ sw, is_zero sw.2 = true) items →
  ∀ acc, is_zero acc = true ∨ acc = nan →
    is_zero (fold_left (λ acc sw, acc + sw.1 * sw.2) items acc) = true
    ∨ fold_left (λ acc sw, acc + sw.1 * sw.2) items acc = nan.
Proof.
  induction 1 as [|sw items Hw _ IH]; intros acc Hacc; [exact Hacc|].
  cbn [fold_left]. apply IH. apply add_zero_or_nan; [exact Hacc|].
  destruct (mul_zero_r sw.1 sw.2 sw.2 Hw Hw) as [[-> _] | [-> _]]; auto.
Qed.

(** [0 / 0] is [NaN], which [|| 0] turns into [0]. *)
Lemma arithmeticMean_zero_weights (items : list (float * float)) :
  Forall (λ sw, is_nan sw.1 = false ∧ (0 <=? sw.2) = true) items →
  is_zero (totalWeight items) = true →
  arithmeticMean (map numericItem items) = 0.
Proof.
  intros Hall Hzero.
  assert (Hnum : Forall (λ sw : float * float, is_nan sw.1 = false ∧ is_nan sw.2 = false)
                   items).
  { eapply Forall_impl; [exact Hall|]. simpl. intros sw [Hs Hw].
    split; [exact Hs|]. by apply leb_not_nan in Hw as [_ ?]. }
  assert (Hw : Forall (λ sw : float * float, (0 <=? sw.2) = true) items).
  { eapply Forall_impl; [exact Hall|]. simpl. tauto. }
  rewrite (arithmeticMean_numeric items Hnum).
  destruct (totalWeight_zero items Hw 0 eq_refl Hzero) as [_ Hzeros].
  rewrite div_zero_zero; [reflexivity | | exact Hzero].
  apply weightedSum_zero; [exact Hzeros | by left].
Qed.

(** C7, as stated, fails: these two items have numeric scores and weights
    and total weight 0 (the weights 1 and -1 cancel), and their mean is
    [100 / 0 = Infinity], not 0. *)
Lemma arithmeticMean_zero_weight_not_zero :
  totalWeight [(100, 1); (0, -1)] = 0
  ∧ arithmeticMean [numericItem (100, 1); numericItem (0, -1)] = infinity
  ∧ arithmeticMean [numericItem (100, 1); numericItem (0, -1)] ≠ 0.
Proof.
  split; [reflexivity|]. split; [reflexivity|].
  intros H. apply (f_equal is_zero) in H. discriminate.
Qed.

(** C7 (amended): for items with numeric scores and weights,
    [arithmeticMean] is the quotient of the weighted sum of the scores by the
    total weight, sums and quotient being those of doubles, taken in the
    order of the list; where that quotient is [NaN] or a zero, it is [0].
    When no weight is negative and the total weight is 0, it is 0.  The mean
    of [{score:100, weight:1}, {score:0, weight:1}] is 50, the mean of no
    items is 0 and the mean of [{score:100, weight:0}] is 0. *)
Theorem arithmeticMean_spec :
  (∀ items : list (float * float),
     Forall (λ sw, is_nan sw.1 = false ∧ is_nan sw.2 = false) items →
     arithmeticMean (map numericItem items)
     = orZero (weightedSum items / totalWeight items))
  ∧ (∀ q : float,
       orZero q = if (is_nan q || is_zero q)%bool then 0 else q)
  ∧ (∀ items : list (float * float),
       Forall (λ sw, is_nan sw.1 = false ∧ (0 <=? sw.2) = true) items →
       is_zero (totalWeight items) = true →
       arithmeticMean (map numericItem items) = 0)
  ∧ arithmeticMean [numericItem (100, 1); numericItem (0, 1)] = 50
  ∧ arithmeticMean [] = 0
  ∧ arithmeticMean [numericItem (100, 0)] = 0.
Proof.
  split; [exact arithmeticMean_numeric|].
  split; [intros q; unfold orZero, truthy; by destruct (is_nan q || is_zero q)%bool|].
  split; [exact arithmeticMean_zero_weights|].
  repeat split.
Qed.

Lemma arithmeticMean_spec_witness :
  arithmeticMean (map numericItem [(90, 2); (30, 1)])
  = orZero (weightedSum [(90, 2); (30, 1)] / totalWeight [(90, 2); (30, 1)])
  ∧ arithmeticMean (map numericItem [(100, 0); (40, 0)]) = 0.
Proof.
  destruct arithmeticMean_spec as (Hquotient & _ & Hzero & _).
  split.
  - apply (Hquotient [(90, 2); (30, 1)]). repeat constructor.
  - apply (Hzero [(100, 0); (40, 0)]); [repeat constructor | reflexivity].
Defined.

End Mean.

(** ** [generateReportJson] *)

Module ReportJson.
Import ReportGeneratorV2 Scoring Mean FloatFacts.
Local Open Scope float_scope.

Lemma orZero_defaulted (n : float) :
  orZero n = if is_nan n then 0 else if is_zero n then 0 else n.
Proof. unfold orZero, truthy. by destruct (is_nan n), (is_zero n). Qed.

(** The score the callback of [category.audits.map] computes is the
    normalised one. *)
Lemma auditScore_normalized (raw : JsValue) :
  match raw with
  | VBoolean b => if b then 100 else 0
  | _ => orZero (Number raw)
  end = normalizedScore raw.
Proof.
  destruct raw as [| |[|]|n]; try reflexivity.
  cbn [Number normalizedScore]. apply orZero_defaulted.
Qed.

Lemma scoreAudit_found (resultsByAuditId : ResultsObject)
    (audit : AuditRef) (result : AuditResult) :
  getResult resultsByAuditId (audit_id audit) = Some result →
  scoreAudit resultsByAuditId audit
  = Return {| ra_id := audit_id audit; ra_weight := audit_weight audit;
              ra_result := result;
              ra_score := normalizedScore (result_score result) |}.
Proof.
  intros Hfound. unfold scoreAudit. rewrite Hfound.
  by rewrite auditScore_normalized.
Qed.

(** An audit for which [resultsByAuditId[audit.id]] is [undefined] (or
    [null]): [result.score] throws. *)
Lemma scoreAudit_missing (resultsByAuditId : ResultsObject) (audit : AuditRef) :
  getResult resultsByAuditId (audit_id audit) = None →
  scoreAudit resultsByAuditId audit = Throw TypeError.
Proof. intros Hmissing. unfold scoreAudit. by rewrite Hmissing. Qed.


Lemma mapM_scoreAudit (resultsByAuditId : ResultsObject) (audits : list AuditRef) :
  Forall (λ audit, is_Some (getResult resultsByAuditId (audit_id audit))) audits →
  ∃ reported,
    mapM (scoreAudit resultsByAuditId) audits = Return reported
    ∧ Forall2 (scored resultsByAuditId) audits reported.
Proof.
  induction 1 as [|audit audits [result Hfound] _ (reported & Hmap & Hall)].
  - exists []. split; [reflexivity | constructor].
  - eexists (_ :: reported). simpl mapM.
    rewrite (scoreAudit_found _ _ _ Hfound), Hmap. split; [reflexivity|].
    constructor; [|exact Hall]. by repeat split.
Qed.

(** The callback on a category whose audits all have a result. *)
Lemma scoreCategory_returns (resultsByAuditId : ResultsObject)
    (categoryId : string) (ref : loc) (store : Store) (category : Category) :
  store !! ref = Some category →
  Forall (λ audit, is_Some (getResult resultsByAuditId (audit_id audit)))
    (category_audits category) →
  ∃ reported,
    scoreCategory resultsByAuditId categoryId ref store
    = (<[ref := setId categoryId category]> store, Return reported)
    ∧ rc_id reported = Some categoryId
    ∧ rc_weight reported = category_weight category
    ∧ rc_score reported = arithmeticMean (map auditItem (rc_audits reported))
    ∧ Forall2 (scored resultsByAuditId) (category_audits category) (rc_audits reported).
Proof.
  intros Hstore Hresults.
  destruct (mapM_scoreAudit resultsByAuditId _ Hresults) as (audits & Hmap & Hall).
  unfold scoreCategory. rewrite Hstore. simpl. rewrite Hmap. simpl.
  eexists. split; [reflexivity|]. by repeat split.
Qed.

(** Writing an [id] keeps the configuration complete. *)
Lemma resultsComplete_write (resultsByAuditId : ResultsObject)
    (entries : list (string * loc)) (store : Store)
    (categoryId : string) (ref : loc) (category : Category) :
  store !! ref = Some category →
  resultsComplete resultsByAuditId entries store →
  resultsComplete resultsByAuditId entries (<[ref := setId categoryId category]> store).
Proof.
  intros Hstore Hcomplete id' ref' Hin.
  destruct (Hcomplete id' ref' Hin) as (category' & Hstore' & Hresults').
  destruct (decide (ref' = ref)) as [->|Hne].
  - exists (setId categoryId category). rewrite lookup_insert_eq.
    split; [reflexivity|]. simpl. congruence.
  - exists category'. by rewrite lookup_insert_ne.
Qed.

Lemma scoreCategories_returns (resultsByAuditId : ResultsObject)
    (entries : list (string * loc)) :
  ∀ store,
    resultsComplete resultsByAuditId entries store →
    ∃ store' reported,
      scoreCategories resultsByAuditId entries store = (store', Return reported)
      ∧ length reported = length entries
      ∧ Forall (λ category,
          rc_score category = arithmeticMean (map auditItem (rc_audits category))
          ∧ Forall (λ audit,
              getResult resultsByAuditId (ra_id audit) = Some (ra_result audit)
              ∧ ra_score audit = normalizedScore (result_score (ra_result audit)))
            (rc_audits category))
        reported.
Proof.
  induction entries as [|[categoryId ref] later IH]; intros store Hcomplete.
  - exists store, []. by repeat split.
  - destruct (Hcomplete categoryId ref) as (category & Hstore & Hresults); [by left|].
    destruct (scoreCategory_returns resultsByAuditId categoryId ref store category
                Hstore Hresults) as (first & Hfirst & _ & _ & Hscore & Haudits).
    destruct (IH (<[ref := setId categoryId category]> store))
      as (store' & rest & Hrest & Hlength & Hall).
    { apply resultsComplete_write; [exact Hstore|].
      intros id' ref' Hin. apply (Hcomplete id' ref'). by right. }
    exists store', (first :: rest). simpl scoreCategories. rewrite Hfirst, Hrest.
    split; [reflexivity|]. split; [simpl; by rewrite Hlength|].
    constructor; [|exact Hall]. split; [exact Hscore|].
    clear -Haudits. induction Haudits as [|audit reported ? ? (Hid & _ & Hfound & Hnorm) _ IH'];
      constructor; [|exact IH']. split; [by rewrite Hid | exact Hnorm].
Qed.



End ReportJson.

(** ** What [generateReportJson] does to its [config] argument *)

Module ConfigMutation.
Import ReportGeneratorV2 Scoring.
Local Open Scope float_scope.

Lemma alter_resolved (store : Store) (ref : loc) (categoryId : string) (category : Category) :
  store !! ref = Some category →
  <[ref := setId categoryId category]> store = alter (setId categoryId) ref store.
Proof.
  intros Hstore. apply map_eq. intros ref'.
  destruct (decide (ref' = ref)) as [->|Hne].
  - by rewrite lookup_insert_eq, lookup_alter_eq, Hstore.
  - by rewrite lookup_insert_ne, lookup_alter_ne.
Qed.

Lemma writeIds_cons (categoryId : string) (ref : loc) (later : list (string * loc))
    (store : Store) :
  writeIds ((categoryId, ref) :: later) store
  = writeIds later (alter (setId categoryId) ref store).
Proof. reflexivity. Qed.

(** The store after the call: the [id] writes of the callbacks that ran. *)
Lemma scoreCategories_store (resultsByAuditId : ResultsObject)
    (entries : list (string * loc)) :
  ∀ store,
    ∃ n, (n <= length entries)%nat
      ∧ (scoreCategories resultsByAuditId entries store).1
        = writeIds (take n entries) store
      ∧ (returns (scoreCategories resultsByAuditId entries store).2 →
         n = length entries).
Proof.
  induction entries as [|[categoryId ref] later IH]; intros store.
  - exists 0%nat. by repeat split.
  - simpl scoreCategories. unfold scoreCategory.
    destruct (store !! ref) as [category|] eqn:Hstore.
    2:{ exists 0%nat. split; [simpl; lia|]. split; [reflexivity|].
        intros [? ?]. discriminate. }
    rewrite (alter_resolved store ref categoryId category Hstore).
    destruct (mapM (scoreAudit resultsByAuditId) (category_audits (setId categoryId category)))
      as [audits|e]; simpl.
    2:{ exists 1%nat. split; [simpl; lia|]. split; [reflexivity|].
        intros [? ?]. discriminate. }
    destruct (IH (alter (setId categoryId) ref store)) as (n & Hn & Hstore' & Hreturns).
    exists (S n). split; [simpl; lia|].
    destruct (scoreCategories resultsByAuditId later (alter (setId categoryId) ref store))
      as [store' [rest|e]]; simpl in *.
    + split; [by rewrite Hstore'|]. intros _. f_equal. apply Hreturns. by eexists.
    + split; [by rewrite Hstore'|]. intros [? ?]. discriminate.
Qed.

(** A call that returns found an object behind every key. *)
Lemma scoreCategories_resolved (resultsByAuditId : ResultsObject)
    (entries : list (string * loc)) :
  ∀ store,
    returns (scoreCategories resultsByAuditId entries store).2 →
    ∀ categoryId ref, (categoryId, ref) ∈ entries → is_Some (store !! ref).
Proof.
  induction entries as [|[categoryId0 ref0] later IH]; intros store Hreturns categoryId ref Hin.
  - by apply elem_of_nil in Hin.
  - simpl scoreCategories in Hreturns. unfold scoreCategory in Hreturns.
    destruct (store !! ref0) as [category|] eqn:Hstore.
    2:{ destruct Hreturns as [? ?]. discriminate. }
    apply elem_of_cons in Hin as [Heq | Hin]; [by simplify_eq|].
    destruct (mapM (scoreAudit resultsByAuditId) (category_audits (setId categoryId0 category)))
      as [audits|e]; simpl in Hreturns.
    2:{ destruct Hreturns as [? ?]. discriminate. }
    specialize (IH (<[ref0 := setId categoryId0 category]> store)).
    destruct (scoreCategories resultsByAuditId later (<[ref0 := setId categoryId0 category]> store))
      as [store' [rest|e]]; simpl in *.
    2:{ destruct Hreturns as [? ?]. discriminate. }
    specialize (IH (ex_intro _ rest eq_refl) categoryId ref Hin).
    destruct (decide (ref = ref0)) as [->|Hne]; [by rewrite Hstore|].
    by rewrite lookup_insert_ne in IH.
Qed.

(** The writes touch the [id] of objects the configuration refers to, and
    nothing else. *)
Lemma writeIds_frame (entries : list (string * loc)) :
  ∀ (store : Store) (ref : loc),
    (writeIds entries store !! ref = None ↔ store !! ref = None)
    ∧ (∀ before after,
         store !! ref = Some before → writeIds entries store !! ref = Some after →
         sameButId before after).
Proof.
  induction entries as [|[categoryId ref0] later IH]; intros store ref.
  - simpl. split; [reflexivity|]. intros before after H1 H2.
    assert (before = after) as -> by congruence. by repeat split.
  - rewrite writeIds_cons.
    destruct (IH (alter (setId categoryId) ref0 store) ref) as [Hnone Hsome].
    destruct (decide (ref = ref0)) as [->|Hne].
    + rewrite lookup_alter_eq in Hnone, Hsome. split.
      * rewrite Hnone. by rewrite fmap_None.
      * intros before after Hbefore Hafter. rewrite Hbefore in Hsome.
        destruct (Hsome (setId categoryId before) after eq_refl Hafter)
          as (H1 & H2 & H3 & H4).
        by repeat split.
    + rewrite lookup_alter_ne in Hnone, Hsome by done. by split.
Qed.

Lemma writeIds_elsewhere (entries : list (string * loc)) :
  ∀ (store : Store) (ref : loc),
    ref ∉ map snd entries → writeIds entries store !! ref = store !! ref.
Proof.
  induction entries as [|[categoryId ref0] later IH]; intros store ref Hnot; [reflexivity|].
  rewrite writeIds_cons, IH.
  - apply lookup_alter_ne. intros ->. apply Hnot. by left.
  - intros Hin. apply Hnot. by right.
Qed.

(** Without two keys on one object, each object ends with its key as [id]. *)
Lemma writeIds_written (entries : list (string * loc)) :
  ∀ (store : Store) (categoryId : string) (ref : loc),
    NoDup (map snd entries) → (categoryId, ref) ∈ entries →
    writeIds entries store !! ref = setId categoryId <$> store !! ref.
Proof.
  induction entries as [|[categoryId0 ref0] later IH];
    intros store categoryId ref Hnodup Hin.
  - by apply elem_of_nil in Hin.
  - simpl in Hnodup. apply NoDup_cons in Hnodup as [Hfresh Hnodup].
    rewrite writeIds_cons. apply elem_of_cons in Hin as [Heq | Hin].
    + simplify_eq. rewrite writeIds_elsewhere by exact Hfresh.
      apply lookup_alter_eq.
    + rewrite (IH _ categoryId ref Hnodup Hin).
      rewrite lookup_alter_ne; [reflexivity|].
      intros ->. apply Hfresh. apply (list_elem_of_fmap_2 snd _ _ Hin).
Qed.

Lemma generateReportJson_store (config : Config)
    (resultsByAuditId : ResultsObject) (store : Store) :
  (generateReportJson config resultsByAuditId store).1
  = (scoreCategories resultsByAuditId (categories config) store).1
  ∧ (returns (generateReportJson config resultsByAuditId store).2 →
     returns (scoreCategories resultsByAuditId (categories config) store).2).
Proof.
  unfold generateReportJson.
  destruct (scoreCategories resultsByAuditId (categories config) store)
    as [store' [reported|e]]; simpl; split; try reflexivity.
  - intros _. by eexists.
  - intros [? ?]. discriminate.
Qed.

(** C10: [generateReportJson] changes the category objects of the caller's
    configuration.  A call that returns has written, for every key of
    [config.categories] in turn, that key into the [id] of the object the key
    holds (a call that throws has done so for the keys up to the one whose
    callback threw); no object appears or disappears, no property other than
    [id] changes, and objects the configuration does not refer to are left
    alone.  When no two keys hold the same object, each category object ends
    with its own key as [id], so a configuration in which some category did
    not already carry its key as [id] is not what it was before the call. *)
Theorem generateReportJson_writes_ids (config : Config)
    (resultsByAuditId : ResultsObject) (store : Store) :
  let store' := (generateReportJson config resultsByAuditId store).1 in
  let outcome := (generateReportJson config resultsByAuditId store).2 in
  (returns outcome → store' = writeIds (categories config) store)
  ∧ (∃ n, store' = writeIds (take n (categories config)) store)
  ∧ (returns outcome → NoDup (map snd (categories config)) →
     ∀ categoryId ref, (categoryId, ref) ∈ categories config →
       ∃ before,
         store !! ref = Some before
         ∧ store' !! ref = Some (setId categoryId before))
  ∧ (∀ ref,
       (store' !! ref = None ↔ store !! ref = None)
       ∧ (∀ before after,
            store !! ref = Some before → store' !! ref = Some after →
            sameButId before after))
  ∧ (∀ ref, ref ∉ map snd (categories config) → store' !! ref = store !! ref)
  ∧ (returns outcome → NoDup (map snd (categories config)) →
     (∃ categoryId ref before,
        (categoryId, ref) ∈ categories config
        ∧ store !! ref = Some before
        ∧ category_id before ≠ Some categoryId) →
     store' ≠ store).
Proof.
  intros store' outcome.
  destruct (generateReportJson_store config resultsByAuditId store) as [Hstore Hreturns].
  destruct (scoreCategories_store resultsByAuditId (categories config) store)
    as (n & Hn & Hwrites & Hall).
  fold store' in Hstore. fold outcome in Hreturns. rewrite <- Hstore in Hwrites.
  assert (Hfull : returns outcome → store' = writeIds (categories config) store).
  { intros Hret. rewrite Hwrites, (Hall (Hreturns Hret)). by rewrite firstn_all. }
  assert (Hwritten : returns outcome → NoDup (map snd (categories config)) →
            ∀ categoryId ref, (categoryId, ref) ∈ categories config →
              ∃ before, store !! ref = Some before
                        ∧ store' !! ref = Some (setId categoryId before)).
  { intros Hret Hnodup categoryId ref Hin.
    destruct (scoreCategories_resolved resultsByAuditId (categories config) store
                (Hreturns Hret) categoryId ref Hin) as [before Hbefore].
    exists before. split; [exact Hbefore|].
    rewrite (Hfull Hret), (writeIds_written _ _ categoryId ref Hnodup Hin), Hbefore.
    reflexivity. }
  split; [exact Hfull|].
  split; [by exists n|].
  split; [exact Hwritten|].
  split; [intros ref; rewrite Hwrites; apply writeIds_frame|].
  split.
  { intros ref Hnot. rewrite Hwrites. apply writeIds_elsewhere.
    intros Hin. apply Hnot. apply list_elem_of_fmap in Hin as ([id' ref'] & -> & Hin).
    apply list_elem_of_fmap. exists (id', ref'). split; [reflexivity|].
    by apply (subseteq_take n (categories config)). }
  intros Hret Hnodup (categoryId & ref & before & Hin & Hbefore & Hid) Hsame.
  destruct (Hwritten Hret Hnodup categoryId ref Hin) as (before' & Hbefore' & Hafter).
  rewrite Hsame, Hbefore in Hafter. rewrite Hbefore in Hbefore'.
  injection Hbefore' as <-. injection Hafter as Hafter.
  apply Hid. rewrite Hafter. reflexivity.
Qed.

Lemma generateReportJson_writes_ids_witness :
  (generateReportJson
     {| categories := [("performance"%string, 1%positive)] |}
     (objectLiteral
        {[ "first-interactive"%string :=
             {| result_score := VBoolean true; result_displayValue := "3.2 s" |} ]})
     {[ 1%positive :=
          {| category_id := None; category_name := "Performance";
             category_description := "How fast the page is";
             category_weight := Some 1;
             category_audits :=
               [ {| audit_id := "first-interactive"; audit_weight := Some 5 |} ] |} ]}).1
  ≠ {[ 1%positive :=
         {| category_id := None; category_name := "Performance";
            category_description := "How fast the page is";
            category_weight := Some 1;
            category_audits :=
              [ {| audit_id := "first-interactive"; audit_weight := Some 5 |} ] |} ]}.
Proof.
  apply generateReportJson_writes_ids.
  - eexists. reflexivity.
  - repeat constructor. apply not_elem_of_nil.
  - eexists _, _, _. split; [by left|]. split; [reflexivity | discriminate].
Defined.

End ConfigMutation.

(** ** The artifact cache: one computation per key *)

Module CacheFacts.
Import ArtifactCache.

Section CacheFacts.
Context {Value : Type}.
Implicit Types (st : @CacheState Value) (ev : @Event Value) (evs : list (@Event Value)).
Implicit Types (key : ArtifactKey) (who : Requester) (outcome : Completion Value).

Lemma run_snoc evs ev : run (evs ++ [ev]) = step (run evs) ev.
Proof. unfold run. by rewrite fold_left_app. Qed.

Lemma started_computations key st st' :
  computations st' = computations st → started key st' = started key st.
Proof. unfold started. by intros ->. Qed.

Lemma started_new key k st st' :
  computations st' = computations st ++ [k] →
  started key st' = (started key st + (if decide (k = key) then 1 else 0))%nat.
Proof.
  unfold started. intros ->. rewrite filter_app, length_app. f_equal.
  destruct (decide (k = key)) as [->|Hne].
  - by rewrite filter_cons_True.
  - by rewrite filter_cons_False.
Qed.

Lemma coherent_empty key : coherent key [] (@emptyCache Value).
Proof.
  unfold coherent. simpl. rewrite lookup_empty.
  split; [reflexivity|]. split; intros; apply not_elem_of_nil.
Qed.

Lemma coherent_step key evs st ev :
  coherent key evs st → coherent key (evs ++ [ev]) (step st ev).
Proof.
  intros Hco. destruct ev as [who k | k outcome]; simpl.
  - (* Request *)
    unfold request. destruct (decide (k = key)) as [->|Hne].
    + unfold coherent in *.
      destruct (entries st !! key) as [[attached|settled]|] eqn:Hentry; simpl.
      * rewrite lookup_insert_eq. destruct Hco as (Hstarted & Hreq & Hdel).
        split; [exact Hstarted|]. split; [|exact Hdel].
        intros who'. rewrite !elem_of_app, !list_elem_of_singleton, Hreq.
        split; intros [H|H]; [by left | right; congruence | by left | right; congruence].
      * rewrite Hentry. destruct Hco as (Hstarted & Hreq & Hsame & Hsettled).
        split; [exact Hstarted|]. split; [|split].
        -- intros who'. rewrite !elem_of_app, !list_elem_of_singleton.
           intros [H|H]; [left; by apply Hreq | right; congruence].
        -- intros who' outcome'. rewrite elem_of_app, list_elem_of_singleton.
           intros [H|H]; [by eapply Hsame | congruence].
        -- apply elem_of_app. by left.
      * rewrite lookup_insert_eq. destruct Hco as (Hstarted & Hreq & Hdel).
        split.
        { rewrite (started_new key key st) by reflexivity.
          rewrite Hstarted. by destruct (decide (key = key)). }
        split; [|exact Hdel].
        intros who'. rewrite elem_of_app, !list_elem_of_singleton.
        split; [intros [H|H]; [by apply Hreq in H | congruence] | intros ->; by right].
    + assert (Hreq : ∀ who', Request who' key ∈ evs ++ [Request who k]
                             ↔ Request who' key ∈ evs).
      { intros who'. rewrite elem_of_app, list_elem_of_singleton.
        split; [intros [H|H]; [exact H | congruence] | by left]. }
      assert (Hset : ∀ o, Settle key o ∈ evs ++ [Request who k] ↔ Settle key o ∈ evs).
      { intros o. rewrite elem_of_app, list_elem_of_singleton.
        split; [intros [H|H]; [exact H | congruence] | by left]. }
      unfold coherent in *.
      destruct (entries st !! k) as [[attached|settled]|] eqn:Hk; simpl.
      * rewrite lookup_insert_ne by done.
        destruct (entries st !! key) as [[a|o]|]; setoid_rewrite Hreq; try setoid_rewrite Hset; exact Hco.
      * assert (Hdel : ∀ who' o, (who', key, o) ∈ delivered st ++ [(who, k, settled)]
                                 ↔ (who', key, o) ∈ delivered st).
        { intros who' o. rewrite elem_of_app, list_elem_of_singleton.
          split; [intros [H|H]; [exact H | congruence] | by left]. }
        destruct (entries st !! key) as [[a|o]|]; setoid_rewrite Hreq;
          setoid_rewrite Hdel; try setoid_rewrite Hset; exact Hco.
      * rewrite lookup_insert_ne by done.
        destruct (entries st !! key) as [[a|o]|]; setoid_rewrite Hreq;
          try setoid_rewrite Hset;
          rewrite (started_new key k st) by reflexivity;
          destruct (decide (k = key)); try done; rewrite Nat.add_0_r; exact Hco.
  - (* Settle *)
    assert (Hreq : ∀ who', Request who' key ∈ evs ++ [Settle k outcome]
                           ↔ Request who' key ∈ evs).
    { intros who'. rewrite elem_of_app, list_elem_of_singleton.
      split; [intros [H|H]; [exact H | discriminate] | by left]. }
    unfold settle. destruct (decide (k = key)) as [->|Hne].
    + unfold coherent in *.
      destruct (entries st !! key) as [[attached|settled]|] eqn:Hentry; simpl.
      * rewrite lookup_insert_eq. destruct Hco as (Hstarted & Hasked & Hdel).
        split; [exact Hstarted|]. split; [|split].
        -- intros who' Hin. apply Hreq, Hasked in Hin.
           apply elem_of_app. right.
           apply list_elem_of_fmap. by exists who'.
        -- intros who' outcome'. rewrite elem_of_app.
           intros [H|H]; [by apply Hdel in H|].
           apply list_elem_of_fmap in H as (w & Heq & _). congruence.
        -- apply elem_of_app. right. by apply list_elem_of_singleton.
      * rewrite Hentry. destruct Hco as (Hstarted & Hasked & Hsame & Hsettled).
        split; [exact Hstarted|]. split; [|split; [exact Hsame|]].
        -- intros who' Hin. by apply Hasked, Hreq.
        -- apply elem_of_app. by left.
      * rewrite Hentry. destruct Hco as (Hstarted & Hasked & Hdel).
        split; [exact Hstarted|]. split; [|exact Hdel].
        intros who' Hin. by apply (Hasked who'), Hreq.
    + assert (Hset : ∀ o, Settle key o ∈ evs ++ [Settle k outcome] ↔ Settle key o ∈ evs).
      { intros o. rewrite elem_of_app, list_elem_of_singleton.
        split; [intros [H|H]; [exact H | congruence] | by left]. }
      unfold coherent in *.
      destruct (entries st !! k) as [[attached|settled]|] eqn:Hk; simpl.
      * rewrite lookup_insert_ne by done.
        assert (Hdel : ∀ who' o,
                  (who', key, o) ∈ delivered st ++ map (λ w, (w, k, outcome)) attached
                  ↔ (who', key, o) ∈ delivered st).
        { intros who' o. rewrite elem_of_app.
          split; [intros [H|H]; [exact H|] | by left].
          apply list_elem_of_fmap in H as (w & Heq & _). congruence. }
        destruct (entries st !! key) as [[a|o]|]; setoid_rewrite Hreq;
          setoid_rewrite Hdel; try setoid_rewrite Hset; exact Hco.
      * destruct (entries st !! key) as [[a|o]|]; setoid_rewrite Hreq;
          try setoid_rewrite Hset; exact Hco.
      * destruct (entries st !! key) as [[a|o]|]; setoid_rewrite Hreq;
          try setoid_rewrite Hset; exact Hco.
Qed.

Lemma run_coherent key evs : coherent key evs (run evs).
Proof.
  induction evs as [|ev evs IH] using rev_ind; [apply coherent_empty|].
  rewrite run_snoc. by apply coherent_step.
Qed.

(** A settled entry stays as it is. *)
Lemma step_settled key outcome st ev :
  entries st !! key = Some (Completed outcome) →
  entries (step st ev) !! key = Some (Completed outcome).
Proof.
  intros Hentry. destruct ev as [who k | k outcome']; simpl.
  - unfold request. destruct (decide (k = key)) as [->|Hne].
    + by rewrite Hentry.
    + destruct (entries st !! k) as [[?|?]|]; simpl; try done;
        by rewrite lookup_insert_ne.
  - unfold settle. destruct (decide (k = key)) as [->|Hne].
    + by rewrite Hentry.
    + destruct (entries st !! k) as [[?|?]|]; simpl; try done;
        by rewrite lookup_insert_ne.
Qed.

Lemma run_app evs later : run (evs ++ later) = fold_left step later (run evs).
Proof. unfold run. by rewrite fold_left_app. Qed.

Lemma fold_settled key outcome later :
  ∀ st, entries st !! key = Some (Completed outcome) →
        entries (fold_left step later st) !! key = Some (Completed outcome).
Proof.
  induction later as [|ev later IH]; intros st Hentry; [exact Hentry|].
  simpl. apply IH. by apply step_settled.
Qed.

(** The first settlement after a request fixes the outcome for good. *)
Lemma first_settlement key outcome pre later :
  (∃ who, Request who key ∈ pre) → (∀ o, Settle key o ∉ pre) →
  entries (run (pre ++ Settle key outcome :: later)) !! key = Some (Completed outcome).
Proof.
  intros [who Hasked] Hunsettled.
  rewrite run_app. simpl. apply fold_settled.
  pose proof (run_coherent key pre) as Hco. unfold coherent in Hco.
  unfold settle.
  destruct (entries (run pre) !! key) as [[attached|settled]|] eqn:Hentry.
  - simpl. apply lookup_insert_eq.
  - destruct Hco as (_ & _ & _ & Hsettled). by apply Hunsettled in Hsettled.
  - destruct Hco as (_ & Hnone & _). by apply Hnone in Hasked.
Qed.

(** C9: for every artifact key and every schedule of requests and
    completions, at most one computation is ever started for the key, and
    exactly one once the key has been requested; whatever is handed out for
    the key is one and the same outcome; once the entry has settled, every
    requester of the key has been handed that outcome.  In particular, when
    callers request the key before its computation completes, the first
    completion, value or failure, is the outcome every requester of the key
    receives, those who ask later included, and no second computation is
    started: a failure is cached, not retried. *)
Theorem single_flight key evs :
  (started key (run evs) <= 1)%nat
  ∧ ((∃ who, Request who key ∈ evs) → started key (run evs) = 1%nat)
  ∧ (∀ who1 who2 outcome1 outcome2,
       (who1, key, outcome1) ∈ delivered (run evs) →
       (who2, key, outcome2) ∈ delivered (run evs) →
       outcome1 = outcome2)
  ∧ (∀ outcome,
       entries (run evs) !! key = Some (Completed outcome) →
       ∀ who, Request who key ∈ evs → (who, key, outcome) ∈ delivered (run evs))
  ∧ (∀ pre outcome later,
       evs = pre ++ Settle key outcome :: later →
       (∃ who, Request who key ∈ pre) →
       (∀ o, Settle key o ∉ pre) →
       started key (run evs) = 1%nat
       ∧ ∀ who, Request who key ∈ evs →
           (who, key, outcome) ∈ delivered (run evs)
           ∧ ∀ outcome', (who, key, outcome') ∈ delivered (run evs) →
                         outcome' = outcome).
Proof.
  pose proof (run_coherent key evs) as Hco. unfold coherent in Hco.
  assert (Hsettled : ∀ outcome,
            entries (run evs) !! key = Some (Completed outcome) →
            started key (run evs) = 1%nat
            ∧ (∀ who, Request who key ∈ evs → (who, key, outcome) ∈ delivered (run evs))
            ∧ (∀ who outcome', (who, key, outcome') ∈ delivered (run evs) →
                               outcome' = outcome)).
  { intros outcome Hentry. rewrite Hentry in Hco.
    destruct Hco as (H1 & H2 & H3 & _). by repeat split. }
  split; [|split; [|split; [|split; [|]]]].
  - destruct (entries (run evs) !! key) as [[attached|settled]|];
      destruct Hco as (-> & _); lia.
  - intros [who Hasked].
    destruct (entries (run evs) !! key) as [[attached|settled]|];
      destruct Hco as (Hstarted & Hreq & _); [exact Hstarted | exact Hstarted |].
    by apply Hreq in Hasked.
  - intros who1 who2 outcome1 outcome2 H1 H2.
    destruct (entries (run evs) !! key) as [[attached|settled]|].
    + destruct Hco as (_ & _ & Hdel). by apply Hdel in H1.
    + destruct Hco as (_ & _ & Hsame & _).
      rewrite (Hsame _ _ H1), (Hsame _ _ H2). reflexivity.
    + destruct Hco as (_ & _ & Hdel). by apply Hdel in H1.
  - intros outcome Hentry. apply (Hsettled outcome Hentry).
  - intros pre outcome later -> Hasked Hunsettled.
    destruct (Hsettled outcome (first_settlement key outcome pre later Hasked Hunsettled))
      as (Hstarted & Hall & Hsame).
    split; [exact Hstarted|]. intros who Hin. split; [by apply Hall|].
    intros outcome'. apply Hsame.
Qed.
End CacheFacts.

Lemma single_flight_witness :
  started ("FirstInteractive"%string, 7%nat)
    (run [Request 1%nat ("FirstInteractive"%string, 7%nat);
          Request 2%nat ("FirstInteractive"%string, 7%nat);
          Request 3%nat ("FirstInteractive"%string, 7%nat);
          Settle ("FirstInteractive"%string, 7%nat)
            (Throw (Error "trace was busy the entire time") : Completion nat);
          Request 4%nat ("FirstInteractive"%string, 7%nat)]) = 1%nat.
Proof.
  eapply (proj2 (proj2 (proj2 (proj2 (single_flight _ _))))
            [Request 1%nat ("FirstInteractive"%string, 7%nat);
             Request 2%nat ("FirstInteractive"%string, 7%nat);
             Request 3%nat ("FirstInteractive"%string, 7%nat)]).
  - reflexivity.
  - exists 1%nat. by left.
  - intros o Hin. repeat (apply elem_of_cons in Hin as [Hin | Hin]; [discriminate|]).
    by apply elem_of_nil in Hin.
Defined.

End CacheFacts.

(** * Further properties *)

(** ** The quiet-window search *)

Module QuietWindowFacts.
Import FirstInteractive Clustering ClusteringFacts Candidates QuietWindow FloatFacts.
Local Open Scope float_scope.

Lemma elem_of_concat (t : Task) (runs : list (list Task)) :
  t ∈ concat runs ↔ ∃ run, run ∈ runs ∧ t ∈ run.
Proof.
  induction runs as [|run runs IH]; simpl.
  - split; [intros H; by apply elem_of_nil in H | intros (run & H & _); by apply elem_of_nil in H].
  - rewrite elem_of_app, IH. split.
    + intros [H | (run' & Hin & Ht)]; [exists run; split; [by left | done]
                                      | exists run'; split; [by right | done]].
    + intros (run' & Hin & Ht). apply elem_of_cons in Hin as [-> | Hin]; [by left|].
      right. by exists run'.
Qed.

(** The tasks the loop goes through are a prefix of the tasks it is given. *)
Lemma consideredTasks_prefix (cwe : float) (tasks : list Task) :
  ∃ rest, tasks = consideredTasks cwe tasks ++ rest.
Proof.
  induction tasks as [|task later [rest IH]]; [by exists []|].
  simpl. destruct (task_start task <? cwe).
  - exists rest. simpl. by rewrite <- IH.
  - by eexists.
Qed.

Lemma consideredTasks_start (cwe : float) (tasks : list Task) :
  Forall (λ t, (task_start t <? cwe) = true) (consideredTasks cwe tasks).
Proof.
  induction tasks as [|task later IH]; [constructor|].
  simpl. destruct (task_start task <? cwe) eqn:Hstart; by constructor.
Qed.

Lemma consideredTasks_elem (cwe : float) (tasks : list Task) (n : nat) (t : Task) :
  t ∈ consideredTasks cwe (drop n tasks) → t ∈ drop n tasks ∧ t ∈ tasks.
Proof.
  intros Ht.
  assert (Hdrop : t ∈ drop n tasks).
  { destruct (consideredTasks_prefix cwe (drop n tasks)) as [rest Hrest].
    rewrite Hrest. apply elem_of_app. by left. }
  split; [exact Hdrop|].
  rewrite <- (take_drop n tasks). apply elem_of_app. by right.
Qed.

Lemma describes_forall2_elem (runs : list (list Task)) (described : list Cluster)
    (cluster : Cluster) :
  Forall2 describes runs described → cluster ∈ described →
  ∃ run, run ∈ runs ∧ describes run cluster.
Proof.
  induction 1 as [|run c runs described Hd _ IH]; intros Hin.
  - by apply elem_of_nil in Hin.
  - apply elem_of_cons in Hin as [-> | Hin].
    + exists run. split; [by left | done].
    + destruct (IH Hin) as (run' & Hrun & Hd'). exists run'. split; [by right | done].
Qed.


(** X1: [getTaskClustersInWindow] is decided by the first task it goes
    through, for any task list (sorted or not), start index and window end.
    When that task starts at [-Infinity] the call throws a [TypeError]
    ([null.push]); in every other case, also when it goes through no task,
    it returns.  A start index at or past the end of the list gives no
    cluster.  Every cluster returned starts before [windowEnd], has
    [duration = end - start], has at least one task, and all its tasks come
    from [startIndex] on and start before [windowEnd + 1000]. *)
Theorem getTaskClustersInWindow_total (tasks : list Task) (startIndex : nat)
    (windowEnd : float) :
  (∀ task, firstConsidered tasks startIndex windowEnd = Some task →
           task_start task = neg_infinity →
           getTaskClustersInWindow tasks startIndex windowEnd = Throw TypeError)
  ∧ ((∀ task, firstConsidered tasks startIndex windowEnd = Some task →
              task_start task ≠ neg_infinity) →
     ∃ taskClusters,
       getTaskClustersInWindow tasks startIndex windowEnd = Return taskClusters
       ∧ ((length tasks <= startIndex)%nat → taskClusters = [])
       ∧ Forall (λ cluster,
           (cluster_start cluster <? windowEnd) = true
           ∧ cluster_duration cluster = cluster_end cluster - cluster_start cluster
           ∧ cluster_tasks cluster ≠ []
           ∧ ∀ t, t ∈ cluster_tasks cluster →
                  t ∈ drop startIndex tasks
                  ∧ (task_start t <? windowEnd + 1000) = true)
         taskClusters).
Proof.
  split; [apply getTaskClustersInWindow_throws|].
  intros Hfirst.
  destruct (getTaskClustersInWindow_runs tasks startIndex windowEnd Hfirst)
    as (described & Hdescribed & Hresult).
  eexists. split; [exact Hresult|]. split.
  - intros Hlen. rewrite drop_ge in Hdescribed by exact Hlen. simpl in Hdescribed.
    by inversion Hdescribed.
  - apply Forall_forall. intros cluster Hin.
    apply list_elem_of_In, filter_In in Hin as [Hin Hstart].
    apply list_elem_of_In in Hin.
    destruct (describes_forall2_elem _ _ _ Hdescribed Hin) as (run & Hrun & Hd).
    destruct Hd as (first & final & Hhead & Hlast & Hs & He & Hdur & Htasks).
    split; [exact Hstart|]. split; [exact Hdur|]. split.
    + rewrite Htasks. intros ->. discriminate.
    + intros t Ht. rewrite Htasks in Ht.
      assert (Hcons : t ∈ consideredTasks (windowEnd + 1000) (drop startIndex tasks)).
      { rewrite <- (clustersByGap_concat (consideredTasks _ _)).
        apply elem_of_concat. by exists run. }
      split.
      * by apply consideredTasks_elem in Hcons as [Hdrop _].
      * pose proof (consideredTasks_start (windowEnd + 1000) (drop startIndex tasks)) as Hall.
        rewrite Forall_forall in Hall. by apply Hall.
Qed.

Lemma getTaskClustersInWindow_total_witness :
  getTaskClustersInWindow [mkTask 0 100; mkTask neg_infinity 200] 1 5000 = Throw TypeError.
Proof.
  apply (proj1 (getTaskClustersInWindow_total [mkTask 0 100; mkTask neg_infinity 200] 1 5000)
           (mkTask neg_infinity 200)); reflexivity.
Defined.

(** The only [TypeError] of the clustering comes from a task that starts at
    [-Infinity]. *)
Lemma getTaskClustersInWindow_throws_inv (tasks : list Task) (startIndex : nat)
    (windowEnd : float) (e : Exn) :
  getTaskClustersInWindow tasks startIndex windowEnd = Throw e →
  e = TypeError ∧ ∃ t, t ∈ tasks ∧ task_start t = neg_infinity.
Proof.
  intros Hthrow.
  destruct (firstConsidered tasks startIndex windowEnd) as [task|] eqn:Hfirst.
  - destruct (decide (task_start task = neg_infinity)) as [Heq|Hne].
    + rewrite (getTaskClustersInWindow_throws _ _ _ _ Hfirst Heq) in Hthrow.
      injection Hthrow as <-. split; [reflexivity|]. exists task. split; [|exact Heq].
      unfold firstConsidered in Hfirst.
      apply (consideredTasks_elem (windowEnd + 1000) tasks startIndex).
      destruct (consideredTasks _ _); [discriminate|].
      simpl in Hfirst. injection Hfirst as ->. by left.
    + destruct (getTaskClustersInWindow_runs tasks startIndex windowEnd)
        as (described & _ & Hreturn); [|congruence].
      intros task' Htask'. rewrite Hfirst in Htask'. by injection Htask' as <-.
  - destruct (getTaskClustersInWindow_runs tasks startIndex windowEnd)
      as (described & _ & Hreturn); [|congruence].
    intros task' Htask'. rewrite Hfirst in Htask'. discriminate.
Qed.




Section MathExp.
Variable Math_exp : float → float.


Lemma quietWindowLoop_longer_trace (FMP traceEnd traceEnd' : float)
    (longTasks : list Task) :
  (traceEnd <=? traceEnd') = true →
  ∀ (remaining : list Task) (i : nat) (c : float),
    quietWindowLoop Math_exp FMP traceEnd longTasks remaining i = Return c →
    quietWindowLoop Math_exp FMP traceEnd' longTasks remaining i = Return c.
Proof.
  intros Hle. induction remaining as [|event later IH]; intros i c; [discriminate|].
  simpl. fold (windowEndAfter Math_exp FMP event).
  destruct (windowEndAfter Math_exp FMP event >? traceEnd) eqn:Hshort; [discriminate|].
  destruct (windowEndAfter Math_exp FMP event >? traceEnd') eqn:Hshort'.
  { rewrite (leb_ltb_trans _ _ _ Hle Hshort') in Hshort. discriminate. }
  destruct (getTaskClustersInWindow longTasks (i + 1) (windowEndAfter Math_exp FMP event))
    as [taskClusters|e]; simpl; [|discriminate].
  destruct (List.find (isBadCluster FMP) taskClusters); [apply IH | done].
Qed.

(** X3: a longer trace with the same long tasks does not change a result:
    what [findQuietWindow] returns for [traceEnd] it returns for every later
    trace end. *)
Theorem findQuietWindow_longer_trace (FMP traceEnd traceEnd' c : float)
    (longTasks : list Task) :
  findQuietWindow Math_exp FMP traceEnd longTasks = Return c →
  (traceEnd <=? traceEnd') = true →
  findQuietWindow Math_exp FMP traceEnd' longTasks = Return c.
Proof.
  unfold findQuietWindow. destruct (quietFromFMP FMP longTasks); [done|].
  intros Hreturn Hle. by eapply quietWindowLoop_longer_trace.
Qed.


(** What the loop returns: the end of a long task whose window does not run
    past the end of the trace. *)
Lemma quietWindowLoop_result (FMP traceEnd : float) (longTasks : list Task) :
  ∀ (remaining : list Task) (i : nat) (c : float),
    quietWindowLoop Math_exp FMP traceEnd longTasks remaining i = Return c →
    ∃ event, event ∈ remaining ∧ c = task_end event
             ∧ (windowEndAfter Math_exp FMP event >? traceEnd) = false.
Proof.
  induction remaining as [|event later IH]; intros i c; [discriminate|].
  simpl. fold (windowEndAfter Math_exp FMP event).
  destruct (windowEndAfter Math_exp FMP event >? traceEnd) eqn:Hshort; [discriminate|].
  destruct (getTaskClustersInWindow longTasks (i + 1) (windowEndAfter Math_exp FMP event))
    as [taskClusters|e]; simpl; [|discriminate].
  destruct (List.find (isBadCluster FMP) taskClusters).
  - intros Hreturn. destruct (IH _ _ Hreturn) as (event' & Hin & Hc & Hfits).
    exists event'. split; [by right | done].
  - intros [= <-]. exists event. split; [by left | done].
Qed.

Lemma findQuietWindow_result (FMP traceEnd c : float) (longTasks : list Task) :
  findQuietWindow Math_exp FMP traceEnd longTasks = Return c →
  c = FMP
  ∨ ∃ event, event ∈ longTasks ∧ c = task_end event
             ∧ (windowEndAfter Math_exp FMP event >? traceEnd) = false.
Proof.
  unfold findQuietWindow. destruct (quietFromFMP FMP longTasks).
  - intros [= <-]. by left.
  - intros Hreturn. right. by apply quietWindowLoop_result in Hreturn.
Qed.

(** What the loop throws: the busy trace, or the [TypeError] of a clustering
    that met a task starting at [-Infinity]. *)
Lemma quietWindowLoop_throws (FMP traceEnd : float) (longTasks : list Task) :
  ∀ (remaining : list Task) (i : nat) (e : Exn),
    quietWindowLoop Math_exp FMP traceEnd longTasks remaining i = Throw e →
    e = Error TRACE_BUSY_MSG
    ∨ (e = TypeError ∧ ∃ t, t ∈ longTasks ∧ task_start t = neg_infinity).
Proof.
  induction remaining as [|event later IH]; intros i e.
  - intros [= <-]. by left.
  - simpl. fold (windowEndAfter Math_exp FMP event).
    destruct (windowEndAfter Math_exp FMP event >? traceEnd); [intros [= <-]; by left|].
    destruct (getTaskClustersInWindow longTasks (i + 1) (windowEndAfter Math_exp FMP event))
      as [taskClusters|e'] eqn:Hclusters; simpl.
    + destruct (List.find (isBadCluster FMP) taskClusters); [apply IH | discriminate].
    + intros [= <-]. right. by apply getTaskClustersInWindow_throws_inv in Hclusters.
Qed.

Lemma findQuietWindow_throws (FMP traceEnd : float) (longTasks : list Task) (e : Exn) :
  findQuietWindow Math_exp FMP traceEnd longTasks = Throw e →
  e = Error TRACE_BUSY_MSG
  ∨ (e = TypeError ∧ ∃ t, t ∈ longTasks ∧ task_start t = neg_infinity).
Proof.
  unfold findQuietWindow. destruct (quietFromFMP FMP longTasks); [discriminate|].
  apply quietWindowLoop_throws.
Qed.

Section ComputeWithArtifacts.
Context {Trace TraceModel : Type}.
Variable getMainThreadTopLevelEvents :
  TraceModel → Trace → float → Completion (list Task).

(** X5: whenever [computeWithArtifacts] returns, the trace is not shorter
    than 5000 ms after FMP, [timestamp] is
    [(timeInMs + navigationStart) * 1000], and [timeInMs] is
    [Math.max(c, DCL)] for a [c] that is FMP or the end of a long task after
    FMP.  So [timeInMs] is at least FMP and at least DCL when both are
    numbers, and [NaN] when one of them is [NaN]. *)
Theorem computeWithArtifacts_bounds (trace : Trace) (traceModel : TraceModel)
    (traceOfTab : TraceOfTab) (result : FirstInteractiveResult) :
  let FMP := firstMeaningfulPaint (timings traceOfTab) in
  let DCL := domContentLoaded (timings traceOfTab) in
  computeWithArtifacts Math_exp getMainThreadTopLevelEvents trace traceModel traceOfTab
  = Return result →
  (traceEnd (timings traceOfTab) - FMP <? 5000) = false
  ∧ timestamp result
    = (timeInMs result + navigationStart (timestamps traceOfTab)) * 1000
  ∧ (∃ c, timeInMs result = Math_max c DCL
          ∧ (c = FMP
             ∨ ∃ events event,
                 getMainThreadTopLevelEvents traceModel trace FMP = Return events
                 ∧ event ∈ events ∧ isLongTaskAfter FMP event = true
                 ∧ c = task_end event))
  ∧ (is_nan FMP = false → is_nan DCL = false →
     (FMP <=? timeInMs result) = true ∧ (DCL <=? timeInMs result) = true)
  ∧ (is_nan FMP = true ∨ is_nan DCL = true → is_nan (timeInMs result) = true).
Proof.
  intros FMP DCL. unfold computeWithArtifacts, MAX_QUIET_WINDOW_SIZE.
  fold FMP DCL.
  destruct (traceEnd (timings traceOfTab) - FMP <? 5000) eqn:Hshort; [discriminate|].
  destruct (getMainThreadTopLevelEvents traceModel trace FMP) as [events|e] eqn:Hevents;
    [|discriminate].
  simpl.
  destruct (findQuietWindow _ _ _ _) as [c|e] eqn:Hfound; [|discriminate].
  simpl. intros [= <-]. simpl.
  split; [reflexivity|]. split; [reflexivity|].
  assert (Hc : c = FMP
               ∨ ∃ event, event ∈ events ∧ isLongTaskAfter FMP event = true
                          ∧ c = task_end event).
  { apply findQuietWindow_result in Hfound as [-> | (event & Hin & -> & _)]; [by left|].
    apply list_elem_of_In, filter_In in Hin as [Hin Hlong].
    right. exists event. split; [by apply list_elem_of_In | done]. }
  assert (Hafter : is_nan FMP = false → (FMP <=? c) = true).
  { intros Hnan. destruct Hc as [-> | (event & _ & Hlong & ->)]; [by apply leb_refl|].
    apply andb_true_iff in Hlong as [_ Hlong]. by apply ltb_leb. }
  split.
  { exists c. split; [reflexivity|].
    destruct Hc as [-> | (event & Hin & Hlong & ->)]; [by left|].
    right. by exists events, event. }
  split.
  - intros HFMP HDCL. specialize (Hafter HFMP).
    pose proof (leb_not_nan _ _ Hafter) as [_ Hcnan].
    destruct (Math_max_spec c DCL Hcnan HDCL) as (_ & Hc1 & Hc2).
    split; [exact (leb_trans _ _ _ Hafter Hc1) | exact Hc2].
  - intros Hnan. rewrite Math_max_nan. apply orb_true_iff.
    destruct Hnan as [Hnan | Hnan]; [left | by right].
    destruct Hc as [-> | (event & _ & Hlong & ->)]; [exact Hnan|].
    apply andb_true_iff in Hlong as [_ Hlong].
    apply ltb_not_nan in Hlong as [Hlong _]. congruence.
Qed.

(** X6: [computeWithArtifacts] throws in four ways only: the short-trace
    error, when [traceEnd - FMP < 5000]; otherwise what
    [getMainThreadTopLevelEvents] throws, or "trace was busy the entire
    time", or a [TypeError] from the clustering, and that only when a long
    task after FMP starts at [-Infinity]. *)
Theorem computeWithArtifacts_errors (trace : Trace) (traceModel : TraceModel)
    (traceOfTab : TraceOfTab) (e : Exn) :
  let FMP := firstMeaningfulPaint (timings traceOfTab) in
  computeWithArtifacts Math_exp getMainThreadTopLevelEvents trace traceModel traceOfTab
  = Throw e →
  ((traceEnd (timings traceOfTab) - FMP <? 5000) = true
   ∧ e = Error "trace not at least 5 seconds longer than FMP")
  ∨ ((traceEnd (timings traceOfTab) - FMP <? 5000) = false
     ∧ (getMainThreadTopLevelEvents traceModel trace FMP = Throw e
        ∨ e = Error "trace was busy the entire time"
        ∨ (e = TypeError
           ∧ ∃ events event,
               getMainThreadTopLevelEvents traceModel trace FMP = Return events
               ∧ event ∈ events ∧ isLongTaskAfter FMP event = true
               ∧ task_start event = neg_infinity))).
Proof.
  intros FMP. unfold computeWithArtifacts, MAX_QUIET_WINDOW_SIZE. fold FMP.
  destruct (traceEnd (timings traceOfTab) - FMP <? 5000) eqn:Hshort.
  - intros [= <-]. left. by split.
  - intros Hthrow. right. split; [reflexivity|].
    destruct (getMainThreadTopLevelEvents traceModel trace FMP) as [events|e'] eqn:Hevents;
      [|left; simpl in Hthrow; congruence].
    simpl in Hthrow.
    destruct (findQuietWindow _ _ _ _) as [c|e'] eqn:Hfound; [discriminate|].
    simpl in Hthrow. injection Hthrow as <-. right.
    apply findQuietWindow_throws in Hfound as [-> | (-> & t & Hin & Hstart)]; [by left|].
    right. split; [reflexivity|].
    apply list_elem_of_In, filter_In in Hin as [Hin Hlong].
    exists events, t. split; [reflexivity|]. split; [by apply list_elem_of_In | done].
Qed.
End ComputeWithArtifacts.
End MathExp.

(** A trace with one long task right after FMP. *)
Lemma findQuietWindow_lone_task :
  findQuietWindow Ieee754.ieee754_exp 1000 10000 [mkTask 1200 1300] = Return 1300.
Proof. vm_compute. reflexivity. Qed.

Lemma findQuietWindow_longer_trace_witness :
  findQuietWindow Ieee754.ieee754_exp 1000 12000 [mkTask 1200 1300] = Return 1300.
Proof.
  apply (findQuietWindow_longer_trace Ieee754.ieee754_exp 1000 10000 12000 1300);
    [exact findQuietWindow_lone_task | reflexivity].
Defined.


Lemma computeWithArtifacts_bounds_witness :
  (10000 - 1000 <? 5000) = false
  ∧ 1550000 = (1300 + 250) * 1000
  ∧ (∃ c, 1300 = Math_max c 500
          ∧ (c = 1000
             ∨ ∃ events event,
                 (Return [mkTask 900 990; mkTask 1200 1300] : Completion (list Task))
                 = Return events
                 ∧ event ∈ events ∧ isLongTaskAfter 1000 event = true
                 ∧ c = task_end event))
  ∧ (is_nan 1000 = false → is_nan 500 = false →
     (1000 <=? 1300) = true ∧ (500 <=? 1300) = true)
  ∧ (is_nan 1000 = true ∨ is_nan 500 = true → is_nan 1300 = true).
Proof.
  apply (computeWithArtifacts_bounds Ieee754.ieee754_exp
           (λ (_ _ : unit) (_ : float), Return [mkTask 900 990; mkTask 1200 1300]) () ()
           {| timestamps := {| navigationStart := 250 |};
              timings := {| firstMeaningfulPaint := 1000; domContentLoaded := 500;
                            traceEnd := 10000 |} |}
           {| timeInMs := 1300; timestamp := 1550000 |}).
  vm_compute. reflexivity.
Defined.

Lemma computeWithArtifacts_errors_witness :
  ((10000 - 1000 <? 5000) = true
   ∧ TypeError = Error "trace not at least 5 seconds longer than FMP")
  ∨ ((10000 - 1000 <? 5000) = false
     ∧ ((Return [mkTask 1200 1300; mkTask neg_infinity 1400] : Completion (list Task))
        = Throw TypeError
        ∨ TypeError = Error "trace was busy the entire time"
        ∨ (TypeError = TypeError
           ∧ ∃ events event,
               (Return [mkTask 1200 1300; mkTask neg_infinity 1400] : Completion (list Task))
               = Return events
               ∧ event ∈ events ∧ isLongTaskAfter 1000 event = true
               ∧ task_start event = neg_infinity))).
Proof.
  apply (computeWithArtifacts_errors Ieee754.ieee754_exp
           (λ (_ _ : unit) (_ : float),
              Return [mkTask 1200 1300; mkTask neg_infinity 1400]) () ()
           {| timestamps := {| navigationStart := 250 |};
              timings := {| firstMeaningfulPaint := 1000; domContentLoaded := 500;
                            traceEnd := 10000 |} |}
           TypeError).
  vm_compute. reflexivity.
Defined.

End QuietWindowFacts.

(** ** Score arithmetic and the report *)

Module MeanFacts.
Import ReportGeneratorV2 Scoring Mean ReportShape FloatFacts.
Local Open Scope float_scope.

(** The two sums of the [reduce] over items in range: the weights add up to
    a number that is not negative, the weighted scores to such a number or to
    [NaN] (from [Infinity * 0]). *)
Lemma accumulate_in_range (result : Totals) (item : Item) :
  scoreInRange (optional (score item)) → weightInRange (weight item) →
  positiveSign (total_weight result) →
  total_sum result = nan ∨ positiveSign (total_sum result) →
  positiveSign (total_weight (accumulate result item))
  ∧ (total_sum (accumulate result item) = nan
     ∨ positiveSign (total_sum (accumulate result item))).
Proof.
  intros Hscore Hweight HW HS. unfold accumulate. simpl.
  assert (Hs : positiveSign (orZero (Number (optional (score item))))).
  { destruct (score item) as [s|]; simpl in *; [by apply positiveSign_orZero|].
    by apply positiveSign_orZero; left. }
  assert (Hw : positiveSign (orZero (Number (optional (weight item))))).
  { destruct (weight item) as [w|]; simpl in *; [by apply positiveSign_orZero|].
    by apply positiveSign_orZero; left. }
  split; [by apply positiveSign_add|].
  destruct HS as [-> | HS]; [left; apply add_nan_l|].
  destruct (positiveSign_mul _ _ Hs Hw) as [-> | Hp]; [left; apply add_nan_r|].
  right. by apply positiveSign_add.
Qed.

Lemma reduce_in_range (items : list Item) :
  Forall (λ item, scoreInRange (optional (score item)) ∧ weightInRange (weight item))
    items →
  ∀ result,
    positiveSign (total_weight result) →
    total_sum result = nan ∨ positiveSign (total_sum result) →
    positiveSign (total_weight (fold_left accumulate items result))
    ∧ (total_sum (fold_left accumulate items result) = nan
       ∨ positiveSign (total_sum (fold_left accumulate items result))).
Proof.
  induction 1 as [|item items [Hscore Hweight] _ IH]; intros result HW HS; [by split|].
  simpl. destruct (accumulate_in_range result item Hscore Hweight HW HS) as [HW' HS'].
  by apply IH.
Qed.

Lemma arithmeticMean_in_range (items : list Item) :
  Forall (λ item, scoreInRange (optional (score item)) ∧ weightInRange (weight item))
    items →
  nonNegative (arithmeticMean items).
Proof.
  intros Hall. unfold arithmeticMean. cbv zeta.
  destruct (reduce_in_range items Hall {| total_weight := 0; total_sum := 0 |})
    as [HW HS]; [by split | right; by split |].
  apply positiveSign_orZero.
  destruct HS as [-> | HS]; [left; by rewrite div_nan_l|].
  destruct (positiveSign_div _ _ HS HW) as [-> | [Hq _]]; [by left | by right].
Qed.

(** X7: for items whose scores and weights are each [undefined], [NaN] or
    a number that is not negative, [arithmeticMean] is not negative: it is
    zero, a positive number or [Infinity], and never [NaN].  It is not
    bounded by the largest score: two scores of 100 with weights 0.1 and 0.7
    give 100.00000000000001, and a score of 100 with weight 1e307 gives
    [Infinity]. *)
Theorem arithmeticMean_not_negative :
  (∀ items : list Item,
     Forall (λ item, scoreInRange (optional (score item)) ∧ weightInRange (weight item))
       items →
     nonNegative (arithmeticMean items))
  ∧ arithmeticMean [numericItem (100, 0.1); numericItem (100, 0.7)] = 100.00000000000001
  ∧ arithmeticMean [numericItem (100, 1e307)] = infinity.
Proof.
  split; [exact arithmeticMean_in_range|]. split; reflexivity.
Qed.

Lemma arithmeticMean_not_negative_witness :
  nonNegative (arithmeticMean [ {| score := Some 90; weight := Some 2 |};
                                {| score := Some 30; weight := None |};
                                {| score := Some nan; weight := Some infinity |} ]).
Proof.
  apply arithmeticMean_not_negative.
  repeat constructor; simpl; by right.
Defined.

(** An item without weight leaves the accumulator as it is. *)
Lemma accumulate_unweighted (result : Totals) (item : Item) :
  weight item = None ∨ weight item = Some nan
  ∨ weight item = Some 0 ∨ weight item = Some (-0) →
  score item ≠ Some infinity → score item ≠ Some neg_infinity →
  tidy result →
  accumulate result item = result.
Proof.
  intros Hweight Hinf Hminf [HW HS]. unfold accumulate.
  assert (Hw : orZero (Number (optional (weight item))) = 0).
  { by destruct Hweight as [-> | [-> | [-> | ->]]]. }
  rewrite Hw.
  assert (Hs : is_zero (orZero (Number (optional (score item))) * 0) = true).
  { apply mul_finite_zero; [apply orZero_not_nan | | | reflexivity].
    - destruct (score item) as [s|]; simpl; [|discriminate].
      unfold orZero. destruct (truthy s); [congruence | discriminate].
    - destruct (score item) as [s|]; simpl; [|discriminate].
      unfold orZero. destruct (truthy s); [congruence | discriminate]. }
  destruct result as [W S]. simpl in *.
  by rewrite (add_zero_r W 0 eq_refl HW), (add_zero_r S _ Hs HS).
Qed.

(** X8: an item whose weight is [undefined], [NaN] or a zero and whose
    score is not infinite does not count: leaving it out does not change
    [arithmeticMean]. *)
Theorem arithmeticMean_ignores_unweighted (before after : list Item) (item : Item) :
  weight item = None ∨ weight item = Some nan
  ∨ weight item = Some 0 ∨ weight item = Some (-0) →
  score item ≠ Some infinity → score item ≠ Some neg_infinity →
  arithmeticMean (before ++ item :: after) = arithmeticMean (before ++ after).
Proof.
  intros Hweight Hinf Hminf. unfold arithmeticMean.
  rewrite !fold_left_app. simpl. rewrite accumulate_unweighted; try done.
  apply reduce_tidy, tidy_start.
Qed.

Lemma arithmeticMean_ignores_unweighted_witness :
  arithmeticMean ([ {| score := Some 90; weight := Some 2 |} ]
                  ++ {| score := None; weight := None |}
                  :: [ {| score := Some 30; weight := Some 1 |} ])
  = arithmeticMean ([ {| score := Some 90; weight := Some 2 |} ]
                    ++ [ {| score := Some 30; weight := Some 1 |} ]).
Proof.
  apply arithmeticMean_ignores_unweighted; [by left | discriminate | discriminate].
Defined.

End MeanFacts.

Module ReportFacts.
Import ReportGeneratorV2 Scoring Mean ReportJson ConfigMutation ReportShape FloatFacts.
Local Open Scope float_scope.

Lemma mapM_scoreAudit_inv (resultsByAuditId : ResultsObject) (audits : list AuditRef) :
  ∀ reported,
    mapM (scoreAudit resultsByAuditId) audits = Return reported →
    Forall2 (scored resultsByAuditId) audits reported.
Proof.
  induction audits as [|audit audits IH]; intros reported; simpl.
  - intros [= <-]. constructor.
  - destruct (getResult resultsByAuditId (audit_id audit)) as [result|] eqn:Hfound.
    2:{ by rewrite (scoreAudit_missing _ _ Hfound). }
    rewrite (scoreAudit_found _ _ _ Hfound). simpl.
    destruct (mapM (scoreAudit resultsByAuditId) audits) as [rest|e]; simpl; [|discriminate].
    intros [= <-]. constructor; [by repeat split | by apply IH].
Qed.

(** The callbacks throw nothing but a [TypeError]. *)
Lemma mapM_scoreAudit_throws (resultsByAuditId : ResultsObject)
    (audits : list AuditRef) (e : Exn) :
  mapM (scoreAudit resultsByAuditId) audits = Throw e → e = TypeError.
Proof.
  induction audits as [|audit audits IH]; simpl; [discriminate|].
  destruct (getResult resultsByAuditId (audit_id audit)) as [result|] eqn:Hfound.
  2:{ rewrite (scoreAudit_missing _ _ Hfound). simpl. by intros [= ->]. }
  rewrite (scoreAudit_found _ _ _ Hfound). simpl.
  destruct (mapM (scoreAudit resultsByAuditId) audits) as [rest|e']; simpl; [discriminate|].
  intros [= <-]. by apply IH.
Qed.

(** One callback, read backwards from its outcome. *)
Lemma scoreCategory_inv (resultsByAuditId : ResultsObject)
    (categoryId : string) (ref : loc) (store store' : Store) (reported : ReportCategory) :
  scoreCategory resultsByAuditId categoryId ref store = (store', Return reported) →
  ∃ category,
    store !! ref = Some category
    ∧ store' = <[ref := setId categoryId category]> store
    ∧ mirrors resultsByAuditId store (categoryId, ref) reported.
Proof.
  unfold scoreCategory. destruct (store !! ref) as [category|] eqn:Hstore; [|discriminate].
  simpl.
  destruct (mapM (scoreAudit resultsByAuditId) (category_audits category))
    as [audits|e] eqn:Hmap; simpl; [|discriminate].
  intros [= <- <-]. exists category. split; [reflexivity|]. split; [reflexivity|].
  split; [reflexivity|]. exists category. simpl.
  repeat split; try done. by apply mapM_scoreAudit_inv.
Qed.

Lemma mirrors_before_write (resultsByAuditId : ResultsObject) (store : Store)
    (categoryId : string) (ref : loc) (category : Category)
    (entry : string * loc) (reported : ReportCategory) :
  store !! ref = Some category →
  mirrors resultsByAuditId (<[ref := setId categoryId category]> store) entry reported →
  mirrors resultsByAuditId store entry reported.
Proof.
  intros Hstore (Hid & category' & Hstore' & Hname & Hdescription & Hweight & Haudits & Hscore).
  split; [exact Hid|].
  destruct (decide (entry.2 = ref)) as [Heq|Hne].
  - rewrite Heq, lookup_insert_eq in Hstore'. injection Hstore' as <-.
    exists category. rewrite Heq. by repeat split.
  - rewrite lookup_insert_ne in Hstore' by done. exists category'. by repeat split.
Qed.

(** The report categories of a call that returns, key by key. *)
Lemma scoreCategories_mirror (resultsByAuditId : ResultsObject)
    (entries : list (string * loc)) :
  ∀ store store' reported,
    scoreCategories resultsByAuditId entries store = (store', Return reported) →
    Forall2 (mirrors resultsByAuditId store) entries reported.
Proof.
  induction entries as [|[categoryId ref] later IH]; intros store store' reported; simpl.
  - intros [= <- <-]. constructor.
  - destruct (scoreCategory resultsByAuditId categoryId ref store)
      as [store1 [first|e]] eqn:Hfirst; [|discriminate].
    apply scoreCategory_inv in Hfirst as (category & Hstore & -> & Hmirror).
    destruct (scoreCategories resultsByAuditId later (<[ref := setId categoryId category]> store))
      as [store2 [rest|e]] eqn:Hrest; [|discriminate].
    intros [= <- <-]. constructor; [exact Hmirror|].
    eapply Forall2_impl; [by eapply IH|].
    intros entry rc. by apply mirrors_before_write.
Qed.

Lemma scoreCategories_throws (resultsByAuditId : ResultsObject)
    (entries : list (string * loc)) :
  ∀ store e, (scoreCategories resultsByAuditId entries store).2 = Throw e → e = TypeError.
Proof.
  induction entries as [|[categoryId ref] later IH]; intros store e; simpl; [discriminate|].
  unfold scoreCategory. destruct (store !! ref) as [category|]; simpl; [|by intros [= ->]].
  destruct (mapM (scoreAudit resultsByAuditId) (category_audits category))
    as [audits|e'] eqn:Hmap; simpl.
  - specialize (IH (<[ref := setId categoryId category]> store) e).
    destruct (scoreCategories resultsByAuditId later (<[ref := setId categoryId category]> store))
      as [store2 [rest|e'']]; simpl in *; [discriminate | exact IH].
  - intros [= <-]. by apply mapM_scoreAudit_throws in Hmap.
Qed.

Lemma mirrors_complete (resultsByAuditId : ResultsObject) (store : Store)
    (entries : list (string * loc)) (reported : list ReportCategory) :
  Forall2 (mirrors resultsByAuditId store) entries reported →
  resultsComplete resultsByAuditId entries store.
Proof.
  intros Hall categoryId ref Hin.
  apply list_elem_of_lookup in Hin as [i Hi].
  destruct (Forall2_lookup_l _ _ _ _ _ Hall Hi) as (rc & _ & _ & category & Hstore & _ & _ & _ & Haudits & _).
  exists category. split; [exact Hstore|].
  clear -Haudits. induction Haudits as [|audit ra ? ? (_ & _ & Hfound & _) _ IH]; constructor;
    [by eexists | exact IH].
Qed.

(** X9: [generateReportJson] returns exactly when every key of
    [config.categories] holds an object and, for every audit these objects
    list, the read [resultsByAuditId[audit.id]] gives an object, be it an own
    property or one the object inherits (as ["toString"] in an object
    literal); when it throws, it throws a [TypeError]. *)
Theorem generateReportJson_returns_iff (config : Config)
    (resultsByAuditId : ResultsObject) (store : Store) :
  (returns (generateReportJson config resultsByAuditId store).2
   ↔ resultsComplete resultsByAuditId (categories config) store)
  ∧ (∀ e, (generateReportJson config resultsByAuditId store).2 = Throw e → e = TypeError).
Proof.
  split; [split|].
  - intros Hreturns. apply generateReportJson_store in Hreturns as [reported Hreported].
    destruct (scoreCategories resultsByAuditId (categories config) store)
      as [store' outcome] eqn:Hrun. simpl in Hreported. subst outcome.
    eapply mirrors_complete, scoreCategories_mirror, Hrun.
  - intros Hcomplete.
    destruct (scoreCategories_returns resultsByAuditId (categories config) store Hcomplete)
      as (store' & reported & Hrun & _).
    unfold generateReportJson. rewrite Hrun. simpl. by eexists.
  - intros e. unfold generateReportJson.
    pose proof (scoreCategories_throws resultsByAuditId (categories config) store e) as Hthrows.
    destruct (scoreCategories resultsByAuditId (categories config) store)
      as [store' [reported|e']]; simpl in *; [discriminate|].
    intros [= ->]. by apply Hthrows.
Qed.

Lemma generateReportJson_returns_iff_witness :
  returns
    (generateReportJson
       {| categories := [("pwa"%string, 1%positive)] |}
       (objectLiteral
          {[ "is-on-https"%string :=
               {| result_score := VBoolean true; result_displayValue := "" |} ]})
       {[ 1%positive :=
            {| category_id := None; category_name := "Progressive Web App";
               category_description := "";
               category_weight := Some 1;
               category_audits :=
                 [ {| audit_id := "is-on-https"; audit_weight := Some 1 |};
                   {| audit_id := "toString"; audit_weight := Some 1 |} ] |} ]}).2.
Proof.
  apply generateReportJson_returns_iff.
  intros categoryId ref Hin. apply list_elem_of_singleton in Hin. injection Hin as -> ->.
  eexists. split; [reflexivity|]. repeat constructor; simpl; by eexists.
Defined.

(** A call that returns, read backwards. *)
Lemma generateReportJson_inv (config : Config)
    (resultsByAuditId : ResultsObject) (store store' : Store) (report : Report) :
  generateReportJson config resultsByAuditId store = (store', Return report) →
  scoreCategories resultsByAuditId (categories config) store
  = (store', Return (report_categories report))
  ∧ report_score report = arithmeticMean (map categoryItem (report_categories report))
  ∧ report_aggregations report = _getAggregations (report_categories report).
Proof.
  unfold generateReportJson.
  destruct (scoreCategories resultsByAuditId (categories config) store)
    as [store1 [reported|e]]; simpl; [|discriminate].
  intros [= <- <-]. by repeat split.
Qed.

Lemma _getAggregations_aggregates (reported : list ReportCategory) :
  Forall2 aggregates reported (_getAggregations reported).
Proof.
  unfold _getAggregations. induction reported as [|category rest IH]; constructor;
    [by repeat split | exact IH].
Qed.

(** X10: the report of a call that returns follows the configuration key
    by key, in [Object.keys] order: the k-th category has the k-th key as
    [id] and the name, description and weight of the object the key held, and
    its audits are the configured audits in order, each with its raw result
    and normalised score; the k-th aggregation repeats the k-th category's
    name and description, carries its score divided by 100 and its raw
    results, and is scored exactly when the k-th key is ["pwa"], whatever
    [id] the object had before. *)
Theorem generateReportJson_mirrors (config : Config)
    (resultsByAuditId : ResultsObject) (store store' : Store) (report : Report) :
  generateReportJson config resultsByAuditId store = (store', Return report) →
  Forall2 (mirrors resultsByAuditId store) (categories config) (report_categories report)
  ∧ Forall2 aggregates (report_categories report) (report_aggregations report)
  ∧ Forall2 (λ entry aggregation,
       agg_scored aggregation = bool_decide (entry.1 = "pwa"%string))
      (categories config) (report_aggregations report).
Proof.
  intros Hrun. apply generateReportJson_inv in Hrun as (Hrun & _ & Haggregations).
  pose proof (scoreCategories_mirror _ _ _ _ _ Hrun) as Hmirror.
  split; [exact Hmirror|]. rewrite Haggregations.
  split; [apply _getAggregations_aggregates|].
  unfold _getAggregations. clear Hrun Haggregations.
  induction Hmirror as [|entry rc entries reported [Hid _] _ IH]; simpl;
    [constructor | constructor; [|exact IH]].
  simpl. rewrite Hid. apply bool_decide_ext. split; congruence.
Qed.

Lemma generateReportJson_mirrors_witness :
  ∃ store' report,
    generateReportJson
      {| categories := [("pwa"%string, 1%positive)] |}
      (objectLiteral
         {[ "is-on-https"%string :=
              {| result_score := VBoolean true; result_displayValue := "" |} ]})
      {[ 1%positive :=
           {| category_id := Some "best-practices"%string;
              category_name := "Progressive Web App";
              category_description := "";
              category_weight := Some 1;
              category_audits :=
                [ {| audit_id := "is-on-https"; audit_weight := Some 1 |} ] |} ]}
    = (store', Return report)
    ∧ Forall2 (λ entry aggregation,
         agg_scored aggregation = bool_decide (entry.1 = "pwa"%string))
        [("pwa"%string, 1%positive)] (report_aggregations report).
Proof.
  match goal with
  | |- ∃ store' report, generateReportJson ?c ?r ?s = _ ∧ _ =>
      destruct (scoreCategories_returns r [("pwa"%string, 1%positive)] s)
        as (store' & reported & Hrun & _)
  end.
  { intros categoryId ref Hin. apply list_elem_of_singleton in Hin. injection Hin as -> ->.
    eexists. split; [reflexivity|]. repeat constructor. simpl. by eexists. }
  eexists store', _. split.
  - unfold generateReportJson. cbn [categories]. rewrite Hrun. reflexivity.
  - eapply (generateReportJson_mirrors {| categories := [("pwa"%string, 1%positive)] |}).
    unfold generateReportJson. cbn [categories]. rewrite Hrun. reflexivity.
Defined.

Lemma normalizedScore_in_range (raw : JsValue) :
  scoreInRange raw → nonNegative (normalizedScore raw).
Proof.
  destruct raw as [| |[|]|s]; simpl; try done.
  unfold nonNegative. intros [-> | Hs]; [reflexivity|].
  destruct (is_nan s); [reflexivity|]. by destruct (is_zero s).
Qed.

(** A score that is not negative, divided by 100. *)
Lemma percent_not_negative (x : float) : nonNegative x → nonNegative (x / 100).
Proof.
  unfold nonNegative. intros Hx.
  destruct (decide (x = neg_zero)) as [-> | Hneg]; [reflexivity|].
  destruct (positiveSign_div x 100) as [Hnan | [Hq _]]; [by split | by split | | exact Hq].
  apply leb_not_nan in Hx as [_ Hx].
  assert (H100 : Prim2SF 100 = S754_finite false 7036874417766400 (-46)) by reflexivity.
  pose proof (div_finite_not_nan x 100 _ _ _ Hx H100) as Hnum.
  rewrite Hnan in Hnum. discriminate.
Qed.

(** X11: when every weight of the configuration is [undefined], [NaN] or
    not negative, and every audit has a result whose score is a boolean,
    [null], [undefined], [NaN] or a number that is not negative,
    [generateReportJson] returns a report whose overall score, category
    scores and aggregation totals are not negative (zero, positive or
    [Infinity], never [NaN]). *)
Theorem generateReportJson_not_negative (config : Config)
    (resultsByAuditId : ResultsObject) (store : Store) :
  inRange resultsByAuditId (categories config) store →
  ∃ store' report,
    generateReportJson config resultsByAuditId store = (store', Return report)
    ∧ nonNegative (report_score report)
    ∧ Forall (λ category,
        nonNegative (rc_score category)
        ∧ Forall (λ audit, nonNegative (ra_score audit)) (rc_audits category))
        (report_categories report)
    ∧ Forall (λ aggregation, nonNegative (agg_total aggregation))
        (report_aggregations report).
Proof.
  intros Hrange.
  assert (Hcomplete : resultsComplete resultsByAuditId (categories config) store).
  { intros categoryId ref Hin.
    destruct (Hrange categoryId ref Hin) as (category & Hstore & _ & Haudits).
    exists category. split; [exact Hstore|].
    eapply Forall_impl; [exact Haudits|]. simpl. intros audit (_ & result & -> & _). by eexists. }
  destruct (scoreCategories_returns resultsByAuditId (categories config) store Hcomplete)
    as (store' & reported & Hrun & _).
  pose proof (scoreCategories_mirror _ _ _ _ _ Hrun) as Hmirror.
  assert (Hcategories : Forall (λ category,
            (nonNegative (rc_score category)
             ∧ Forall (λ audit, nonNegative (ra_score audit)) (rc_audits category))
            ∧ weightInRange (rc_weight category)) reported).
  { apply Forall_forall. intros rc Hin.
    apply list_elem_of_lookup in Hin as [i Hi].
    destruct (Forall2_lookup_r _ _ _ _ _ Hmirror Hi)
      as ([categoryId ref] & Hentry & _ & category & Hstore & _ & _ & Hweight & Haudits & Hscore).
    simpl in Hstore.
    destruct (Hrange categoryId ref) as (category' & Hstore' & Hw & Ha);
      [apply list_elem_of_lookup; by exists i|].
    rewrite Hstore in Hstore'. injection Hstore' as <-.
    split; [|by rewrite Hweight].
    assert (Hitems : Forall (λ audit,
              nonNegative (ra_score audit) ∧ weightInRange (ra_weight audit))
              (rc_audits rc)).
    { clear -Haudits Ha.
      induction Haudits as [|audit ra audits ras (_ & Hwt & Hfound & Hnorm) _ IH];
        [constructor|].
      apply Forall_cons in Ha as [[Haw (result & Hresult & Hok)] Ha].
      constructor; [|by apply IH]. split; [|by rewrite Hwt].
      rewrite Hfound in Hresult. injection Hresult as <-.
      rewrite Hnorm. by apply normalizedScore_in_range. }
    split.
    - rewrite Hscore. apply MeanFacts.arithmeticMean_in_range.
      apply Forall_fmap. eapply Forall_impl; [exact Hitems|].
      simpl. intros ra [Hs Hwt]. split; [by right | exact Hwt].
    - eapply Forall_impl; [exact Hitems|]. simpl. tauto. }
  exists store'. eexists. unfold generateReportJson. rewrite Hrun. simpl.
  split; [reflexivity|]. simpl. split; [|split].
  - apply MeanFacts.arithmeticMean_in_range.
    apply Forall_fmap. eapply Forall_impl; [exact Hcategories|].
    simpl. intros rc [[Hs _] Hw]. split; [by right | exact Hw].
  - eapply Forall_impl; [exact Hcategories|]. simpl. tauto.
  - unfold _getAggregations. apply Forall_fmap.
    eapply Forall_impl; [exact Hcategories|]. simpl. intros rc [[Hs _] _].
    by apply percent_not_negative.
Qed.

Lemma generateReportJson_not_negative_witness :
  ∃ store' report,
    generateReportJson
      {| categories := [("pwa"%string, 1%positive)] |}
      (objectLiteral
         {[ "is-on-https"%string :=
              {| result_score := VBoolean true; result_displayValue := "" |} ]})
      {[ 1%positive :=
           {| category_id := None; category_name := "Progressive Web App";
              category_description := "";
              category_weight := Some 1;
              category_audits :=
                [ {| audit_id := "is-on-https"; audit_weight := Some 1 |} ] |} ]}
    = (store', Return report)
    ∧ nonNegative (report_score report).
Proof.
  edestruct generateReportJson_not_negative as (store' & report & Hrun & Hscore & _).
  2:{ exists store', report. split; [exact Hrun | exact Hscore]. }
  intros categoryId ref Hin. apply list_elem_of_singleton in Hin. injection Hin as -> ->.
  eexists. split; [reflexivity|]. simpl.
  split; [by right|].
  constructor; [|constructor]. simpl.
  split; [by right|].
  eexists. split; [reflexivity | exact I].
Defined.

Lemma setId_sameButId (categoryId : string) (category1 category2 : Category) :
  sameButId category1 category2 → setId categoryId category1 = setId categoryId category2.
Proof.
  intros (Hname & Hdescription & Hweight & Haudits). unfold setId.
  by rewrite Hname, Hdescription, Hweight, Haudits.
Qed.

Lemma agreeButIds_write (store1 store2 : Store) (categoryId : string) (ref : loc) :
  agreeButIds store1 store2 →
  agreeButIds (alter (setId categoryId) ref store1) (alter (setId categoryId) ref store2).
Proof.
  intros Hagree ref'. specialize (Hagree ref').
  destruct (decide (ref' = ref)) as [->|Hne].
  - rewrite !lookup_alter_eq.
    destruct (store1 !! ref), (store2 !! ref); simpl; done.
  - by rewrite !lookup_alter_ne.
Qed.

(** Stores that agree up to ids, and agree fully on what the keys do not
    reach, are the same after the writes. *)
Lemma writeIds_agree (entries : list (string * loc)) :
  ∀ store1 store2,
    agreeButIds store1 store2 →
    (∀ ref, ref ∉ map snd entries → store1 !! ref = store2 !! ref) →
    writeIds entries store1 = writeIds entries store2.
Proof.
  induction entries as [|[categoryId ref0] later IH]; intros store1 store2 Hagree Hrest.
  - simpl. apply map_eq. intros ref. apply Hrest. apply not_elem_of_nil.
  - rewrite !writeIds_cons. apply IH; [by apply agreeButIds_write|].
    intros ref Hnot. destruct (decide (ref = ref0)) as [->|Hne].
    + rewrite !lookup_alter_eq. specialize (Hagree ref0).
      destruct (store1 !! ref0), (store2 !! ref0); simpl; try done.
      f_equal. by apply setId_sameButId.
    + rewrite !lookup_alter_ne by done. apply Hrest.
      simpl. intros Hin. apply elem_of_cons in Hin as [?|?]; done.
Qed.

(** The outcome of the callbacks does not depend on the ids in the store. *)
Lemma scoreCategories_agree (resultsByAuditId : ResultsObject)
    (entries : list (string * loc)) :
  ∀ store1 store2,
    agreeButIds store1 store2 →
    (scoreCategories resultsByAuditId entries store1).2
    = (scoreCategories resultsByAuditId entries store2).2.
Proof.
  induction entries as [|[categoryId ref] later IH]; intros store1 store2 Hagree; [reflexivity|].
  simpl. unfold scoreCategory. pose proof (Hagree ref) as Href.
  destruct (store1 !! ref) as [category1|] eqn:H1, (store2 !! ref) as [category2|] eqn:H2;
    try done.
  rewrite (alter_resolved store1 ref categoryId category1 H1).
  rewrite (alter_resolved store2 ref categoryId category2 H2).
  rewrite (setId_sameButId categoryId category1 category2 Href).
  destruct (mapM (scoreAudit resultsByAuditId) (category_audits (setId categoryId category2)))
    as [audits|e]; simpl; [|reflexivity].
  specialize (IH _ _ (agreeButIds_write store1 store2 categoryId ref Hagree)).
  destruct (scoreCategories resultsByAuditId later (alter (setId categoryId) ref store1))
    as [s1 [r1|e1]],
    (scoreCategories resultsByAuditId later (alter (setId categoryId) ref store2))
    as [s2 [r2|e2]]; simpl in *; congruence.
Qed.

Lemma writeIds_agreeButIds (entries : list (string * loc)) (store : Store) :
  agreeButIds (writeIds entries store) store.
Proof.
  intros ref. destruct (writeIds_frame entries store ref) as [Hnone Hsome].
  destruct (writeIds entries store !! ref) as [after|] eqn:Hafter,
    (store !! ref) as [before|] eqn:Hbefore.
  - destruct (Hsome before after eq_refl eq_refl) as (H1 & H2 & H3 & H4). by repeat split.
  - destruct Hnone as [_ Hnone]. by specialize (Hnone eq_refl).
  - destruct Hnone as [Hnone _]. by specialize (Hnone eq_refl).
  - exact I.
Qed.

(** X12: [generateReportJson] can be run again: on the configuration as a
    first call that returned has left it, a second call returns the same
    report and changes nothing more, also when two keys hold the same
    object. *)
Theorem generateReportJson_again (config : Config)
    (resultsByAuditId : ResultsObject) (store store' : Store) (report : Report) :
  generateReportJson config resultsByAuditId store = (store', Return report) →
  generateReportJson config resultsByAuditId store' = (store', Return report).
Proof.
  intros Hrun.
  assert (Hfirst : ∃ reported,
            scoreCategories resultsByAuditId (categories config) store
            = (store', Return reported)
            ∧ report = {| report_score := arithmeticMean (map categoryItem reported);
                          report_categories := reported;
                          report_aggregations := _getAggregations reported |}).
  { unfold generateReportJson in Hrun.
    destruct (scoreCategories resultsByAuditId (categories config) store)
      as [s1 [reported|e]]; simpl in Hrun; [|discriminate].
    injection Hrun as <- <-. by eexists. }
  destruct Hfirst as (reported & Hfirst & ->).
  assert (Hwritten : store' = writeIds (categories config) store).
  { destruct (scoreCategories_store resultsByAuditId (categories config) store)
      as (n & _ & Hwrites & Hall).
    rewrite Hfirst in Hwrites, Hall. simpl in Hwrites, Hall.
    rewrite Hwrites, (Hall (ex_intro _ reported eq_refl)). by rewrite firstn_all. }
  assert (Hagree : agreeButIds store' store)
    by (rewrite Hwritten; apply writeIds_agreeButIds).
  pose proof (scoreCategories_agree resultsByAuditId (categories config) store' store Hagree)
    as Hsame.
  rewrite Hfirst in Hsame. simpl in Hsame.
  assert (Hfinal : writeIds (categories config) store' = store').
  { rewrite Hwritten at 2. apply writeIds_agree; [exact Hagree|].
    intros ref Hnot. rewrite Hwritten. by apply writeIds_elsewhere. }
  destruct (scoreCategories_store resultsByAuditId (categories config) store')
    as (n & _ & Hwrites & Hall).
  unfold generateReportJson.
  destruct (scoreCategories resultsByAuditId (categories config) store')
    as [s2 o2]. simpl in *. subst o2.
  rewrite (Hall (ex_intro _ reported eq_refl)), firstn_all, Hfinal in Hwrites.
  by subst s2.
Qed.

Lemma generateReportJson_again_witness :
  ∃ store' report,
    generateReportJson
      {| categories := [("pwa"%string, 1%positive); ("seo"%string, 1%positive)] |}
      (objectLiteral
         {[ "is-on-https"%string :=
              {| result_score := VBoolean true; result_displayValue := "" |} ]})
      store'
    = (store', Return report).
Proof.
  destruct (scoreCategories_returns
              (objectLiteral
                 {[ "is-on-https"%string :=
                      {| result_score := VBoolean true; result_displayValue := "" |} ]})
              [("pwa"%string, 1%positive); ("seo"%string, 1%positive)]
              {[ 1%positive :=
                   {| category_id := None; category_name := "Progressive Web App";
                      category_description := "";
                      category_weight := Some 1;
                      category_audits :=
                        [ {| audit_id := "is-on-https"; audit_weight := Some 1 |} ] |} ]})
    as (store' & reported & Hrun & _).
  { intros categoryId ref Hin.
    assert (ref = 1%positive) as ->.
    { apply elem_of_cons in Hin as [Hin|Hin]; [congruence|].
      apply list_elem_of_singleton in Hin. congruence. }
    eexists. split; [reflexivity|]. repeat constructor. simpl. by eexists. }
  exists store'. eexists.
  eapply (generateReportJson_again
            {| categories := [("pwa"%string, 1%positive); ("seo"%string, 1%positive)] |}).
  unfold generateReportJson. cbn [categories]. rewrite Hrun. reflexivity.
Defined.

End ReportFacts.

(** ** Template substitution *)

Module TemplateFacts.
Import TemplateStrings.
Local Open Scope nat_scope.

#[local] Arguments String.append !_ _ / : simpl nomatch.

Lemma append_nil_r (s : string) : s +:+ "" = s.
Proof. induction s as [|c s IH]; simpl; [reflexivity | by rewrite IH]. Qed.

Lemma append_assoc (a b c : string) : (a +:+ b) +:+ c = a +:+ (b +:+ c).
Proof. induction a as [|x a IH]; simpl; [reflexivity | by rewrite IH]. Qed.

Lemma prefix_append (p s : string) : String.prefix p (p +:+ s) = true.
Proof.
  induction p as [|c p IH]; simpl; [by destruct s|].
  destruct (ascii_dec c c); [exact IH | done].
Qed.

Lemma prefix_inv (p s : string) : String.prefix p s = true → ∃ rest, s = p +:+ rest.
Proof.
  revert s. induction p as [|c p IH]; intros s; simpl.
  - intros _. by exists s.
  - destruct s as [|d s]; simpl; [discriminate|].
    destruct (ascii_dec c d) as [->|]; [|discriminate].
    intros H. destruct (IH s H) as [rest ->]. by exists rest.
Qed.

(** Passing over the characters of a matched separator. *)
Lemma splitFrom_skip (separator : string) (passed : string) :
  ∀ current source,
    splitFrom separator (String.length passed) current (passed +:+ source)
    = match source with
      | EmptyString => [current]
      | _ => splitFrom separator 0 current source
      end.
Proof.
  induction passed as [|c passed IH]; intros current source; simpl.
  - by destruct source.
  - apply IH.
Qed.

(** What has been collected so far goes in front of the first part. *)
Lemma splitFrom_current (separator : string) (source : string) :
  ∀ skip current,
    splitFrom separator skip current source
    = match splitFrom separator skip "" source with
      | first :: parts => (current +:+ first) :: parts
      | [] => []
      end.
Proof.
  induction source as [|c source IH]; intros skip current; cbn [splitFrom].
  - by rewrite append_nil_r.
  - destruct skip as [|k]; [|apply IH].
    destruct (String.prefix separator (String c source)).
    + by rewrite append_nil_r.
    + rewrite (IH 0 (current +:+ String c "")), (IH 0 ("" +:+ String c "")).
      destruct (splitFrom separator 0 "" source) as [|first parts]; [reflexivity|].
      by rewrite append_assoc.
Qed.

Lemma splitFrom_not_nil (separator : string) (source : string) :
  ∀ skip current, splitFrom separator skip current source ≠ [].
Proof.
  induction source as [|c source IH]; intros skip current; cbn [splitFrom]; [discriminate|].
  destruct skip as [|k]; [|apply IH].
  destruct (String.prefix separator (String c source)); [discriminate | apply IH].
Qed.

Lemma split_not_nil (separator source : string) :
  separator ≠ "" → split separator source ≠ [].
Proof.
  intros Hsep. destruct separator as [|c sep]; [done|]. apply splitFrom_not_nil.
Qed.

Lemma split_empty (separator : string) : separator ≠ "" → split separator "" = [""].
Proof. intros Hsep. by destruct separator. Qed.

(** A separator at the front gives an empty first part. *)
Lemma split_match (separator source : string) :
  separator ≠ "" →
  split separator (separator +:+ source) = "" :: split separator source.
Proof.
  intros Hsep. destruct separator as [|c sep]; [done|].
  unfold split. cbn [append splitFrom].
  change (String.prefix (String c sep) (String c (sep +:+ source)))
    with (String.prefix (String c sep) (String c sep +:+ source)).
  rewrite prefix_append.
  replace (String.length (String c sep) - 1) with (String.length sep)
    by (cbn [String.length]; lia).
  rewrite splitFrom_skip.
  by destruct source.
Qed.

(** A character that starts no separator goes to the first part. *)
Lemma split_no_match (separator : string) (c : ascii) (source : string) :
  separator ≠ "" →
  String.prefix separator (String c source) = false →
  split separator (String c source)
  = match split separator source with
    | first :: parts => String c first :: parts
    | [] => []
    end.
Proof.
  intros Hsep Hno. destruct separator as [|d sep]; [done|].
  unfold split. cbn [splitFrom]. rewrite Hno. simpl append.
  by rewrite splitFrom_current.
Qed.

Lemma join_cons (separator part : string) (parts : list string) :
  parts ≠ [] → join separator (part :: parts) = part +:+ separator +:+ join separator parts.
Proof. by destruct parts. Qed.

Lemma join_first_char (separator : string) (c : ascii) (first : string) (parts : list string) :
  join separator (String c first :: parts) = String c (join separator (first :: parts)).
Proof. by destruct parts. Qed.

Lemma length_append (a b : string) :
  String.length (a +:+ b) = String.length a + String.length b.
Proof. induction a as [|c a IH]; simpl; [reflexivity | by rewrite IH]. Qed.

(** Splitting at a separator and joining with it gives the string back. *)
Lemma join_split (separator source : string) :
  join separator (split separator source) = source.
Proof.
  destruct (decide (separator = "")) as [->|Hsep].
  { induction source as [|c source IH]; [reflexivity|].
    simpl in *. destruct (codeUnits source) as [|part parts] eqn:Hparts.
    - destruct source; [reflexivity | discriminate].
    - simpl in IH |- *. by rewrite <- IH. }
  remember (String.length source) as n eqn:Hn.
  revert source Hn. induction n as [n IH] using lt_wf_ind. intros source ->.
  destruct source as [|c source]; [by rewrite split_empty|].
  destruct (String.prefix separator (String c source)) eqn:Hprefix.
  - apply prefix_inv in Hprefix as [rest Hrest]. rewrite Hrest, split_match by done.
    rewrite join_cons by (by apply split_not_nil). simpl. f_equal.
    apply (IH (String.length rest)); [|reflexivity].
    rewrite Hrest, length_append. destruct separator; [done | simpl; lia].
  - rewrite split_no_match by done.
    pose proof (IH (String.length source) ltac:(simpl; lia) source eq_refl) as Hsource.
    destruct (split separator source) as [|first parts] eqn:Hsplit.
    + by apply split_not_nil in Hsplit.
    + by rewrite join_first_char, Hsource.
Qed.


(** X13: replacing every search string by itself gives the source back,
    for any source and any search strings, the empty one included. *)
Theorem replaceStrings_identity (replacements : list Replacement) :
  Forall (λ r, replacement r = search r) replacements →
  ∀ source, replaceStrings source replacements = source.
Proof.
  induction 1 as [|first next Hfirst _ IH]; intros source; [reflexivity|].
  cbn [replaceStrings]. rewrite Hfirst.
  rewrite (map_ext (λ part, replaceStrings part next) (λ part, part) IH).
  rewrite map_id. apply join_split.
Qed.

Lemma replaceStrings_identity_witness :
  replaceStrings "a,b;c" [mkReplacement "," ","; mkReplacement ";" ";"] = "a,b;c".
Proof.
  apply replaceStrings_identity. by repeat constructor.
Defined.

Lemma occursIn_cons (needle : string) (c : ascii) (s : string) :
  occursIn needle s → occursIn needle (String c s).
Proof. intros (before & after & ->). by exists (String c before), after. Qed.

Lemma occursIn_prefix (needle s : string) :
  String.prefix needle s = true → occursIn needle s.
Proof. intros H. apply prefix_inv in H as [rest ->]. by exists "", rest. Qed.

(** Without an occurrence of the separator there is one part. *)
Lemma split_absent (separator source : string) :
  ¬ occursIn separator source → split separator source = [source].
Proof.
  intros Habsent.
  assert (Hsep : separator ≠ "").
  { intros ->. apply Habsent. by exists "", source. }
  induction source as [|c source IH]; [by apply split_empty|].
  rewrite split_no_match; [|exact Hsep|].
  - rewrite IH; [reflexivity|]. intros H. by apply Habsent, occursIn_cons.
  - destruct (String.prefix separator (String c source)) eqn:Hprefix; [|reflexivity].
    exfalso. by apply Habsent, occursIn_prefix.
Qed.

(** X14: when none of the search strings occurs in the source,
    [replaceStrings] returns the source unchanged. *)
Theorem replaceStrings_absent (source : string) (replacements : list Replacement) :
  Forall (λ r, ¬ occursIn (search r) source) replacements →
  replaceStrings source replacements = source.
Proof.
  induction 1 as [|first next Hfirst _ IH]; [reflexivity|].
  cbn [replaceStrings]. rewrite split_absent by done. cbn [map join]. exact IH.
Qed.

Lemma replaceStrings_absent_witness :
  replaceStrings "<html></html>"
    [ {| search := "%%LIGHTHOUSE_JSON%%"; replacement := "{}" |} ]
  = "<html></html>".
Proof.
  apply replaceStrings_absent. constructor; [|constructor].
  intros (before & after & H). simpl in H.
  repeat (destruct before as [|? before]; simpl in H; [discriminate|];
          injection H as _ H).
  destruct before; discriminate.
Defined.


(** The first match of the separator ends the first part. *)
Lemma split_first_match (separator before rest : string) :
  separator ≠ "" →
  noMatchBefore separator before (separator +:+ rest) →
  split separator (before +:+ separator +:+ rest) = before :: split separator rest.
Proof.
  intros Hsep. induction before as [|c before IH]; intros Hfirst.
  - change ("" +:+ separator +:+ rest) with (separator +:+ rest). by apply split_match.
  - change (String c before +:+ separator +:+ rest)
      with (String c (before +:+ separator +:+ rest)).
    rewrite split_no_match; [|exact Hsep|].
    + rewrite IH; [reflexivity|].
      intros skipped tail -> Htail. apply (Hfirst (String c skipped) tail); done.
    + apply (Hfirst "" (String c before)); done.
Qed.

Lemma join_map_cons (separator : string) (f : string → string) (part : string)
    (parts : list string) :
  parts ≠ [] →
  join separator (map f (part :: parts)) = f part +:+ separator +:+ join separator (map f parts).
Proof. by destruct parts. Qed.

Lemma replaceStrings_at_first_match (before rest : string) (first : Replacement)
    (next : list Replacement) :
  search first ≠ "" →
  noMatchBefore (search first) before (search first +:+ rest) →
  replaceStrings (before +:+ search first +:+ rest) (first :: next)
  = replaceStrings before next +:+ replacement first
    +:+ replaceStrings rest (first :: next).
Proof.
  intros Hsearch Hfirst. cbn [replaceStrings].
  rewrite split_first_match by done.
  apply join_map_cons. by apply split_not_nil.
Qed.

Lemma replaceStrings_empty (replacements : list Replacement) :
  replaceStrings "" replacements = "".
Proof.
  induction replacements as [|first next IH]; [reflexivity|].
  cbn [replaceStrings]. destruct (search first) as [|c sep]; [reflexivity|].
  cbn [split splitFrom map join]. exact IH.
Qed.

(** X15: [replaceStrings] is not serial.  At the first match of the first
    search string the replacement goes in as it is: only the later
    replacements are applied to what precedes the match, and what follows is
    replaced on its own.  A source that is just the search string becomes
    just the replacement, even when the replacement contains a later search
    string. *)
Theorem replaceStrings_not_serial (first : Replacement) (next : list Replacement) :
  search first ≠ "" →
  (∀ before rest,
     noMatchBefore (search first) before (search first +:+ rest) →
     replaceStrings (before +:+ search first +:+ rest) (first :: next)
     = replaceStrings before next +:+ replacement first
       +:+ replaceStrings rest (first :: next))
  ∧ replaceStrings (search first) (first :: next) = replacement first.
Proof.
  intros Hsearch. split.
  - intros before rest Hfirst. by apply replaceStrings_at_first_match.
  - pose proof (replaceStrings_at_first_match "" "" first next Hsearch) as H.
    change ("" +:+ search first +:+ "") with (search first +:+ "") in H.
    rewrite append_nil_r, !replaceStrings_empty in H.
    rewrite H.
    + change ("" +:+ replacement first +:+ "") with (replacement first +:+ "").
      apply append_nil_r.
    + intros skipped tail Hsplit Htail. destruct skipped, tail; try discriminate. done.
Qed.

Lemma replaceStrings_not_serial_witness :
  replaceStrings "%%A%%" [mkReplacement "%%A%%" "%%B%%"; mkReplacement "%%B%%" "x"]
  = "%%B%%".
Proof.
  apply (replaceStrings_not_serial (mkReplacement "%%A%%" "%%B%%")
           [mkReplacement "%%B%%" "x"]).
  discriminate.
Defined.

Lemma occursIn_nil (needle : string) : needle ≠ "" → ¬ occursIn needle "".
Proof.
  intros Hneedle (before & after & H). destruct before; [|discriminate].
  destruct needle; [done | discriminate].
Qed.

Lemma occursIn_char_inv (c d : ascii) (s : string) :
  occursIn (String c "") (String d s) → c = d ∨ occursIn (String c "") s.
Proof.
  intros (before & after & H). destruct before as [|b before]; simpl in H.
  - left. congruence.
  - right. injection H as _ ->. by exists before, after.
Qed.

Lemma occursIn_pair_inv (c1 c2 d : ascii) (s : string) :
  occursIn (String c1 (String c2 "")) (String d s) →
  (c1 = d ∧ ∃ s', s = String c2 s') ∨ occursIn (String c1 (String c2 "")) s.
Proof.
  intros (before & after & H). destruct before as [|b before]; simpl in H.
  - left. injection H as -> ->. split; [reflexivity | by eexists].
  - right. injection H as _ ->. by exists before, after.
Qed.

Lemma escapeLessThan_no_less_than (s : string) : ¬ occursIn "<" (escapeLessThan s).
Proof.
  induction s as [|c s IH]; [by apply occursIn_nil|].
  simpl. destruct (decide (c = "<"%char)) as [->|Hc].
  - simpl. intros H.
    repeat (apply occursIn_char_inv in H as [H|H]; [discriminate|]). by apply IH.
  - intros H. apply occursIn_char_inv in H as [H|H]; [congruence | by apply IH].
Qed.

(** X16: the JSON that [generateReportHtml] inlines contains no [<]
    after [.replace(/</g, '\u003c')], and a text without [<] is left as it
    is. *)
Theorem escapeLessThan_safe (s : string) :
  ¬ occursIn "<" (escapeLessThan s)
  ∧ (¬ occursIn "<" s → escapeLessThan s = s).
Proof.
  split; [apply escapeLessThan_no_less_than|].
  induction s as [|c s IH]; [reflexivity|]. intros Habsent. simpl.
  destruct (decide (c = "<"%char)) as [->|Hc].
  - exfalso. apply Habsent. by exists "", s.
  - f_equal. apply IH. intros H. by apply Habsent, occursIn_cons.
Qed.

Lemma escapeLessThan_safe_witness : escapeLessThan "[1,2]" = "[1,2]".
Proof.
  apply escapeLessThan_safe. intros H.
  repeat (apply occursIn_char_inv in H as [H|H]; [discriminate|]).
  by apply occursIn_nil in H.
Defined.

Lemma escapeClosingTag_head (s rest : string) :
  escapeClosingTag s = String "/" rest → ∃ s', s = String "/" s'.
Proof.
  destruct s as [|c [|d s]]; simpl; [discriminate | |].
  - intros [= -> _]. by eexists.
  - destruct (decide (c = "<"%char ∧ d = "/"%char)); simpl; [discriminate|].
    intros [= -> _]. by eexists.
Qed.

Lemma escapeClosingTag_no_closing_tag (n : nat) :
  ∀ s, String.length s <= n → ¬ occursIn "</" (escapeClosingTag s).
Proof.
  induction n as [|n IH]; intros s Hlen.
  - destruct s; [|simpl in Hlen; lia]. by apply occursIn_nil.
  - destruct s as [|c [|d s]].
    + by apply occursIn_nil.
    + simpl. intros H. apply occursIn_pair_inv in H as [[_ [s' Hs']] | H]; [discriminate|].
      by apply occursIn_nil in H.
    + cbn [escapeClosingTag]. destruct (decide (c = "<"%char ∧ d = "/"%char)) as [[-> ->]|Hno].
      * simpl. intros H.
        repeat (apply occursIn_pair_inv in H as [[H _]|H]; [discriminate|]).
        apply (IH s); [simpl in Hlen; lia | exact H].
      * intros H. apply occursIn_pair_inv in H as [[<- [s' Hs']] | H].
        -- apply (escapeClosingTag_head (String d s)) in Hs' as [s'' [= ->]]. by apply Hno.
        -- apply (IH (String d s)); [simpl in Hlen |- *; lia | exact H].
Qed.

Lemma escapeClosingTag_unchanged (n : nat) :
  ∀ s, String.length s <= n → ¬ occursIn "</" s → escapeClosingTag s = s.
Proof.
  induction n as [|n IH]; intros s Hlen Habsent.
  - destruct s; [reflexivity | simpl in Hlen; lia].
  - destruct s as [|c [|d s]]; [reflexivity | reflexivity |].
    cbn [escapeClosingTag]. destruct (decide (c = "<"%char ∧ d = "/"%char)) as [[-> ->]|Hno].
    + exfalso. apply Habsent. by exists "", s.
    + f_equal. apply (IH (String d s)); [simpl in Hlen |- *; lia|].
      intros H. by apply Habsent, occursIn_cons.
Qed.

(** X17: the script that [generateReportHtml] inlines contains no [</]
    after [.replace(/<\//g, '\u003c/')], and a text without [</] is left
    as it is. *)
Theorem escapeClosingTag_safe (s : string) :
  ¬ occursIn "</" (escapeClosingTag s)
  ∧ (¬ occursIn "</" s → escapeClosingTag s = s).
Proof.
  split.
  - by apply (escapeClosingTag_no_closing_tag (String.length s)).
  - by apply (escapeClosingTag_unchanged (String.length s)).
Qed.

Lemma escapeClosingTag_safe_witness : escapeClosingTag "a<b" = "a<b".
Proof.
  apply escapeClosingTag_safe. intros H.
  repeat (apply occursIn_pair_inv in H as [[? [? ?]]|H]; [discriminate|]).
  by apply occursIn_nil in H.
Defined.

(** A needle whose first character is not in [before] matches nowhere
    inside it. *)
Lemma noMatchBefore_fresh (c : ascii) (needle before rest : string) :
  ¬ occursIn (String c "") before → noMatchBefore (String c needle) before rest.
Proof.
  intros Hfresh skipped tail -> Htail. destruct tail as [|t tail]; [done|].
  simpl. destruct (ascii_dec c t) as [->|]; [|reflexivity].
  exfalso. apply Hfresh. by exists skipped, tail.
Qed.

Section GenerateReportHtml.
Context {ReportObject : Type}.
Variable REPORT_TEMPLATE REPORT_JAVASCRIPT REPORT_CSS REPORT_TEMPLATES : string.
Variable JSON_stringify : ReportObject → string.

(** X18: when the first [%%LIGHTHOUSE_JSON%%] of the template is where
    [before] ends, [generateReportHtml] puts the escaped JSON there as it is
    (placeholder texts inside the JSON are not replaced), after [before] with
    the three asset placeholders replaced and before the rest with all four
    replaced; the JSON put there contains no [<]. *)
Theorem generateReportHtml_embeds_json (before rest : string) (reportAsJson : ReportObject) :
  REPORT_TEMPLATE = before +:+ "%%LIGHTHOUSE_JSON%%" +:+ rest →
  noMatchBefore "%%LIGHTHOUSE_JSON%%" before ("%%LIGHTHOUSE_JSON%%" +:+ rest) →
  generateReportHtml REPORT_TEMPLATE REPORT_JAVASCRIPT REPORT_CSS REPORT_TEMPLATES
    JSON_stringify reportAsJson
  = replaceStrings before (assetReplacements REPORT_JAVASCRIPT REPORT_CSS REPORT_TEMPLATES)
    +:+ escapeLessThan (JSON_stringify reportAsJson)
    +:+ replaceStrings rest
          ({| search := "%%LIGHTHOUSE_JSON%%";
              replacement := escapeLessThan (JSON_stringify reportAsJson) |}
           :: assetReplacements REPORT_JAVASCRIPT REPORT_CSS REPORT_TEMPLATES)
  ∧ ¬ occursIn "<" (escapeLessThan (JSON_stringify reportAsJson)).
Proof.
  intros Htemplate Hfirst. split; [|apply escapeLessThan_no_less_than].
  unfold generateReportHtml. rewrite Htemplate.
  by apply (replaceStrings_at_first_match before rest
              {| search := "%%LIGHTHOUSE_JSON%%";
                 replacement := escapeLessThan (JSON_stringify reportAsJson) |}).
Qed.
End GenerateReportHtml.

Lemma generateReportHtml_embeds_json_witness :
  generateReportHtml "<b>%%LIGHTHOUSE_JSON%%</b>" "f()" "b{}" "<template>"
    (λ _ : unit, "[%%LIGHTHOUSE_TEMPLATES%%]") ()
  = replaceStrings "<b>" (assetReplacements "f()" "b{}" "<template>")
    +:+ escapeLessThan "[%%LIGHTHOUSE_TEMPLATES%%]"
    +:+ replaceStrings "</b>"
          ({| search := "%%LIGHTHOUSE_JSON%%";
              replacement := escapeLessThan "[%%LIGHTHOUSE_TEMPLATES%%]" |}
           :: assetReplacements "f()" "b{}" "<template>").
Proof.
  apply (generateReportHtml_embeds_json "<b>%%LIGHTHOUSE_JSON%%</b>" "f()" "b{}" "<template>"
           (λ _ : unit, "[%%LIGHTHOUSE_TEMPLATES%%]") "<b>" "</b>" ()).
  - reflexivity.
  - apply noMatchBefore_fresh. intros H.
    repeat (apply occursIn_char_inv in H as [H|H]; [discriminate|]).
    by apply occursIn_nil in H.
Defined.

End TemplateFacts.
